(** * V8 backport orchestration (lib/update-v8/backport.js)

    A shallow embedding of the backport tasks of node-core-utils: the
    commit-message synthesizer, the patch generator, the patch applier,
    the two version bumps and the strategy planner, together with the
    properties of the specification that concern them.

    JavaScript strings are modelled as [string] (sequences of 8-bit
    characters; the validator of the conflict prompt is also modelled on
    lists of 16-bit code units, for the lines that hold other characters),
    counters as [N] (the code only meets safe integers, the theorems that
    compute with them say so), objects as records, the
    listr2 tasks as records of a title and an action in a state-and-error
    monad whose state holds the run context, the file system, the operator's
    pending input and the trace of external effects. *)

From Stdlib Require Import String Ascii List Bool Arith NArith ZArith Lia.
From Stdlib Require Import Permutation DecimalString DecimalN.
Import ListNotations.

Open Scope string_scope.
Open Scope list_scope.
Open Scope nat_scope.

(** String concatenation, the [+] of the source; [++] is kept for lists. *)
Infix "+:+" := String.append (at level 60, right associativity).

(** ** Strings as the source uses them *)

Module JsString.

(** The line feed, the character the regular expression [/\n/g] matches. *)
Definition LF : ascii := Ascii.ascii_of_nat 10.
Definition nl : string := String LF "".

(** [`${n}`] for a non-negative integer [n]. *)
Definition ofN (n : N) : string := NilEmpty.string_of_uint (N.to_uint n).
Definition ofNat (n : nat) : string := ofN (N.of_nat n).

(** [s.replace(/\n/g, by)]. *)
Fixpoint replaceNewlines (by_ s : string) : string :=
  match s with
  | "" => ""
  | String c s' =>
      if Ascii.eqb c LF then by_ +:+ replaceNewlines by_ s'
      else String c (replaceNewlines by_ s')
  end.

(** [s.split('\n')]: the pieces between line feeds (one more than there are
    line feeds). *)
Fixpoint lines (s : string) : list string :=
  match s with
  | "" => [""]
  | String c s' =>
      if Ascii.eqb c LF then "" :: lines s'
      else match lines s' with
           | [] => [String c ""]
           | l :: ls => String c l :: ls
           end
  end.

(** [pieces.join(sep)]. *)
Fixpoint join (sep : string) (pieces : list string) : string :=
  match pieces with
  | [] => ""
  | [p] => p
  | p :: ps => p +:+ sep +:+ join sep ps
  end.

(** [toUpperCase] on 8-bit characters, as far as the comparison with
    ['RESOLVED'] goes: the letters a-z are mapped to A-Z and every other
    character is left as it is.  [Utf16.toUpperCase] below is the function
    on all code units; on 8-bit characters the two give the same answer to
    that comparison. *)
Definition isLower (c : ascii) : bool :=
  let n := nat_of_ascii c in (97 <=? n) && (n <=? 122).
Definition isUpper (c : ascii) : bool :=
  let n := nat_of_ascii c in (65 <=? n) && (n <=? 90).
Definition upperChar (c : ascii) : ascii :=
  if isLower c then ascii_of_nat (nat_of_ascii c - 32) else c.
Definition lowerChar (c : ascii) : ascii :=
  if isUpper c then ascii_of_nat (nat_of_ascii c + 32) else c.

Fixpoint toUpperCase (s : string) : string :=
  match s with
  | "" => ""
  | String c s' => String (upperChar c) (toUpperCase s')
  end.

(** White space and line terminators removed by [trim]. *)
Definition isSpace (c : ascii) : bool :=
  let n := nat_of_ascii c in
  (n =? 32) || ((9 <=? n) && (n <=? 13)) || (n =? 160).

Fixpoint trimStart (s : string) : string :=
  match s with
  | "" => ""
  | String c s' => if isSpace c then trimStart s' else s
  end.

(** Drops the trailing white space: a character is kept when something
    that is not white space follows or it is not white space itself. *)
Fixpoint trimEnd (s : string) : string :=
  match s with
  | "" => ""
  | String c s' =>
      match trimEnd s' with
      | "" => if isSpace c then "" else String c ""
      | t => String c t
      end
  end.

Definition trim (s : string) : string := trimEnd (trimStart s).

(** [\d] *)
Definition isDigit (c : ascii) : bool :=
  let n := nat_of_ascii c in (48 <=? n) && (n <=? 57).

(** The longest run of digits at the start of [s], and what follows it
    (the greedy [\d*]). *)
Fixpoint spanDigits (s : string) : string * string :=
  match s with
  | "" => ("", "")
  | String c s' =>
      if isDigit c then let (d, r) := spanDigits s' in (String c d, r)
      else ("", s)
  end.

(** [s.startsWith(p)], returning the rest. *)
Fixpoint stripPrefix (p s : string) : option string :=
  match p, s with
  | "", _ => Some s
  | String a p', String b s' =>
      if Ascii.eqb a b then stripPrefix p' s' else None
  | String _ _, "" => None
  end.

(** [parseInt(ds, 10)] on a string of digits. *)
Definition digitVal (c : ascii) : N := N.of_nat (nat_of_ascii c - 48).
Fixpoint parseDigits (acc : N) (ds : string) : N :=
  match ds with
  | "" => acc
  | String c ds' => parseDigits (10 * acc + digitVal c)%N ds'
  end.
Definition parseInt10 (ds : string) : N := parseDigits 0%N ds.

Fixpoint allDigits (s : string) : bool :=
  match s with
  | "" => true
  | String c s' => isDigit c && allDigits s'
  end.

Definition startsWithDigit (s : string) : bool :=
  match s with
  | "" => false
  | String c _ => isDigit c
  end.

End JsString.
Import JsString.

(** ** Strings of 16-bit code units

    The line an operator types at a prompt can hold any character.  For the
    validator of the prompt a JavaScript string is therefore also modelled
    as the list of its UTF-16 code units. *)

Module Utf16.

(** An 8-bit string as code units. *)
Definition ofString (s : string) : list N :=
  map N_of_ascii (list_ascii_of_string s).

(** [===] on two strings. *)
Fixpoint eqUnits (v w : list N) : bool :=
  match v, w with
  | [], [] => true
  | a :: v', b :: w' => (a =? b)%N && eqUnits v' w'
  | _, _ => false
  end.

(** The characters other than a-z whose upper case holds an ASCII letter,
    each with its upper case (Unicode's UnicodeData.txt and the
    unconditional mappings of SpecialCasing.txt): sharp s, dotless i,
    n preceded by apostrophe, long s, j with caron, h with line below,
    t with diaeresis, w and y with ring above, a with right half ring, and
    the ligatures ff, fi, fl, ffi, ffl, long s t and st. *)
Definition specialUpper : list (N * list N) :=
  [ (223, [83; 83]);
    (305, [73]);
    (329, [700; 78]);
    (383, [83]);
    (496, [74; 780]);
    (7830, [72; 817]);
    (7831, [84; 776]);
    (7832, [87; 778]);
    (7833, [89; 778]);
    (7834, [65; 702]);
    (64256, [70; 70]);
    (64257, [70; 73]);
    (64258, [70; 76]);
    (64259, [70; 70; 73]);
    (64260, [70; 70; 76]);
    (64261, [83; 84]);
    (64262, [83; 84]) ]%N.

Fixpoint lookupUnit (u : N) (table : list (N * list N))
  : option (list N) :=
  match table with
  | [] => None
  | (k, upper) :: table' =>
      if (u =? k)%N then Some upper else lookupUnit u table'
  end.

Definition isLowerUnit (u : N) : bool := ((97 <=? u) && (u <=? 122))%N.
Definition isCapital (u : N) : bool := ((65 <=? u) && (u <=? 90))%N.

(** [String.prototype.toUpperCase], as far as a comparison with a word of
    ASCII capitals goes: a-z are mapped to A-Z and the characters of
    [specialUpper] to their upper case; the upper case of every other
    character holds no ASCII letter, and the character is left as it
    is. *)
Definition upperUnit (u : N) : list N :=
  if isLowerUnit u then [(u - 32)%N]
  else match lookupUnit u specialUpper with
       | Some upper => upper
       | None => [u]
       end.

Definition toUpperCase (value : list N) : list N := flat_map upperUnit value.

Definition RESOLVED : list N := ofString "RESOLVED".

(** [value => value.toUpperCase() === 'RESOLVED'], the validator of the
    prompt of [applyPatch], on every line that can be typed. *)
Definition validate (value : list N) : bool :=
  eqUnits (toUpperCase value) RESOLVED.



(** Equality of two strings up to the case of their ASCII letters. *)
Definition lowerAscii (u : N) : N :=
  if isCapital u then (u + 32)%N else u.

Definition eqNoCase (v w : list N) : bool :=
  eqUnits (map lowerAscii v) (map lowerAscii w).




End Utf16.

(** ** Data model *)

(** One element of [ctx.patches].  [hadConflicts] is absent until
    [applyPatch] sets it; an absent field is falsy, so [false] stands for
    it. *)
Record Patch := mkPatch {
  sha : string;
  data : string;
  message : string;
  hadConflicts : bool
}.

Definition undefinedPatch : Patch := mkPatch "" "" "" false.

(** ** The run: errors, effects and state *)

(** What a rejected promise carries. *)
Inductive Err :=
| TypeError (msg : string)
| CommandFailed (descr : string)
| FsError (path : string).

(** The eventual state of a promise: fulfilled, rejected, or never settled
    (the run waits for the operator for ever). *)
Inductive Result (A : Type) :=
| Ok (a : A)
| Throw (e : Err)
| Blocked.
Arguments Ok {A} a.
Arguments Throw {A} e.
Arguments Blocked {A}.

(** Effects on the outside world, in the order the run starts them. *)
Inductive Event :=
| EStart (title : string)
| EConfirm (answer : bool)
| EPrompt (value : string)
| EGitV8 (args : list string)
| EGitNode (cmd : string) (args : list string) (input : option string)
| EGitConfig (key : string)
| ERead (path : string)
| EWrite (path content : string).

(** The fields of the listr context [ctx] the tasks use.  [bump] is [None]
    when the property is absent: the code tests [ctx.bump !== false]. *)
Record Ctx := mkCtx {
  ctx_sha : list string;
  nodeDir : string;
  bump : option bool;
  nodeMajorVersion : Z;
  gpgSign : list string;
  currentVersion_patch : N;
  patches : list Patch
}.

Record State := mkState {
  ctx : Ctx;
  files : list (string * string);
  confirms : list bool;
  typed : list string;
  trace : list Event
}.

Definition M (A : Type) : Type := State -> Result A * State.

Definition ret {A} (a : A) : M A := fun st => (Ok a, st).

Definition bind {A B} (m : M A) (k : A -> M B) : M B :=
  fun st =>
    match m st with
    | (Ok a, st') => k a st'
    | (Throw e, st') => (Throw e, st')
    | (Blocked, st') => (Blocked, st')
    end.

Definition throw {A} (e : Err) : M A := fun st => (Throw e, st).

(** [try { m } catch (e) { h e }] *)
Definition tryCatch {A} (m : M A) (h : Err -> M A) : M A :=
  fun st =>
    match m st with
    | (Throw e, st') => h e st'
    | r => r
    end.

Declare Scope monad_scope.
Delimit Scope monad_scope with monad.
Notation "x <- m ;; k" := (bind m (fun x => k))
  (at level 61, m at next level, right associativity) : monad_scope.
Notation "m ;; k" := (bind m (fun _ => k))
  (at level 61, right associativity) : monad_scope.
Open Scope monad_scope.

Definition getCtx : M Ctx := fun st => (Ok (ctx st), st).

(** An assignment to a field of [ctx]. *)
Definition modifyCtx (f : Ctx -> Ctx) : M unit :=
  fun st =>
    (Ok tt,
     mkState (f (ctx st)) (files st) (confirms st) (typed st) (trace st)).

Definition emit (e : Event) (st : State) : State :=
  mkState (ctx st) (files st) (confirms st) (typed st) (trace st ++ [e]).

Definition log (e : Event) : M unit := fun st => (Ok tt, emit e st).

(** [ctx.patches = ps] *)
Definition setPatches (ps : list Patch) (c : Ctx) : Ctx :=
  mkCtx (ctx_sha c) (nodeDir c) (bump c) (nodeMajorVersion c) (gpgSign c)
        (currentVersion_patch c) ps.

Definition setPatchLevel (n : N) (c : Ctx) : Ctx :=
  mkCtx (ctx_sha c) (nodeDir c) (bump c) (nodeMajorVersion c) (gpgSign c)
        n (patches c).

(** Patch objects are shared between [ctx.patches] and the closures of the
    per-patch tasks: a patch is referred to by its index in [ctx.patches],
    and a write to one of its fields is a write to that element. *)
Fixpoint updateNth {A} (i : nat) (f : A -> A) (l : list A) : list A :=
  match l, i with
  | [], _ => []
  | x :: l', 0 => f x :: l'
  | x :: l', S i' => x :: updateNth i' f l'
  end.

Definition markConflict (p : Patch) : Patch :=
  mkPatch (sha p) (data p) (message p) true.

Definition getPatch (i : nat) : M Patch :=
  fun st => (Ok (nth i (patches (ctx st)) undefinedPatch), st).

(** [patch.hadConflicts = true] *)
Definition setHadConflicts (i : nat) : M unit :=
  fun st =>
    (Ok tt,
     mkState (setPatches (updateNth i markConflict (patches (ctx st))) (ctx st))
             (files st) (confirms st) (typed st) (trace st)).

(** *** The file system *)

Fixpoint lookupFile (path : string) (fs : list (string * string))
  : option string :=
  match fs with
  | [] => None
  | (p, c) :: fs' => if String.eqb p path then Some c else lookupFile path fs'
  end.

(** [fs.readFile(path, 'utf8')] *)
Definition readFile (path : string) : M string :=
  fun st =>
    let st' := emit (ERead path) st in
    match lookupFile path (files st) with
    | Some c => (Ok c, st')
    | None => (Throw (FsError path), st')
    end.

(** [fs.writeFile(path, content)] *)
Definition writeFile (path content : string) : M unit :=
  fun st =>
    (Ok tt,
     mkState (ctx st) ((path, content) :: files st) (confirms st) (typed st)
             (trace st ++ [EWrite path content])).

(** *** The operator *)

(** [confirm({message, default: false})] of [@inquirer/prompts]: the next
    answer of the operator; without one the run stays suspended. *)
Definition confirm : M bool :=
  fun st =>
    match confirms st with
    | [] => (Blocked, st)
    | a :: rest =>
        (Ok a, mkState (ctx st) (files st) rest (typed st)
                       (trace st ++ [EConfirm a]))
    end.

(** The validated input prompt of the prompt adapter: every submitted line
    is passed to [validate]; a rejected line prompts again, the first
    accepted one is the answer.  Returns the answer (if any), the lines not
    yet read and the lines submitted. *)
Fixpoint promptLoop (validate : string -> bool) (inputs : list string)
  : option string * list string * list Event :=
  match inputs with
  | [] => (None, [], [])
  | v :: rest =>
      if validate v then (Some v, rest, [EPrompt v])
      else let '(r, rest', evs) := promptLoop validate rest in
           (r, rest', EPrompt v :: evs)
  end.

Definition prompt (validate : string -> bool) : M string :=
  fun st =>
    let '(r, rest, evs) := promptLoop validate (typed st) in
    let st' := mkState (ctx st) (files st) (confirms st) rest
                       (trace st ++ evs) in
    match r with
    | Some v => (Ok v, st')
    | None => (Blocked, st')
    end.

(** *** Tasks and their runner *)

Record Task := mkTask {
  title : string;
  task : M unit
}.

(** [task.newListr(todo)]: the tasks run one after the other, and the first
    failure stops the list. *)
Fixpoint newListr (todo : list Task) : M unit :=
  match todo with
  | [] => ret tt
  | t :: rest => log (EStart (title t)) ;; task t ;; newListr rest
  end.

(** *** Promise.all *)

Fixpoint setNth {A} (i : nat) (v : A) (l : list A) : list A :=
  match l, i with
  | [], _ => []
  | _ :: l', 0 => v :: l'
  | x :: l', S i' => x :: setNth i' v l'
  end.

Fixpoint filled {A} (values : list (option A)) : list A :=
  match values with
  | [] => []
  | Some v :: rest => v :: filled rest
  | None :: rest => filled rest
  end.

(** The promises settle in the order [sched] lists their indices.  A
    fulfilment stores its value in the slot of its index
    ([values[index] = x]) and the last of them resolves with [values]; the
    first rejection rejects the whole. *)
Fixpoint promiseAllFrom {A} (sched : list nat) (promises : list (Result A))
    (values : list (option A)) (remaining : nat) : Result (list A) :=
  match sched with
  | [] => Blocked
  | i :: sched' =>
      match nth_error promises i, nth_error values i with
      | Some (Ok v), Some None =>
          let values' := setNth i (Some v) values in
          if remaining =? 1 then Ok (filled values')
          else promiseAllFrom sched' promises values' (remaining - 1)
      | Some (Throw e), _ => Throw e
      | _, _ => promiseAllFrom sched' promises values remaining
      end
  end.

Definition promiseAll {A} (sched : list nat) (promises : list (Result A))
  : Result (list A) :=
  match promises with
  | [] => Ok []
  | _ => promiseAllFrom sched promises
           (repeat None (length promises)) (length promises)
  end.

Definition liftResult {A} (r : Result A) : M A := fun st => (r, st).

Definition mapResult {A B} (f : A -> B) (r : Result A) : Result B :=
  match r with
  | Ok a => Ok (f a)
  | Throw e => Throw e
  | Blocked => Blocked
  end.

(** *** The two patterns of the version files *)

(** Leftmost match of a pattern given by its matcher at a position:
    [matchAt s] is the captured group and the text after the match when the
    pattern matches at the start of [s].  The result is the text before the
    match, the group and the text after the match. *)
Fixpoint search (matchAt : string -> option (string * string)) (s : string)
  : option (string * string * string) :=
  match matchAt s with
  | Some (g, post) => Some ("", g, post)
  | None =>
      match s with
      | "" => None
      | String c s' =>
          match search matchAt s' with
          | Some (pre, g, post) => Some (String c pre, g, post)
          | None => None
          end
      end
  end.

(** [s.replace(re, replacement)] for a pattern without the [g] flag and a
    replacement without [$]: the first match is replaced, and a string
    without a match is returned as it is. *)
Definition replaceFirst (matchAt : string -> option (string * string))
    (replacement s : string) : string :=
  match search matchAt s with
  | Some (pre, _, post) => pre +:+ replacement +:+ post
  | None => s
  end.

Definition isEmpty (s : string) : bool :=
  match s with "" => true | _ => false end.

(** [/V8_PATCH_LEVEL (\d+)/] at a position. *)
Definition patchLevelAt (s : string) : option (string * string) :=
  match stripPrefix "V8_PATCH_LEVEL " s with
  | Some r =>
      let (ds, post) := spanDigits r in
      if isEmpty ds then None else Some (ds, post)
  | None => None
  end.

Definition embedderKey : string := "'v8_embedder_string': '-node.".

(** [embedderRegex = /'v8_embedder_string': '-node\.(\d+)'/] at a
    position. *)
Definition embedderAt (s : string) : option (string * string) :=
  match stripPrefix embedderKey s with
  | Some r =>
      let (ds, r') := spanDigits r in
      if isEmpty ds then None
      else match stripPrefix "'" r' with
           | Some post => Some (ds, post)
           | None => None
           end
  | None => None
  end.

(** [path.join(dir, name)] for a normalized directory name. *)
Definition pathJoin (dir name : string) : string := dir +:+ "/" +:+ name.

(** ** The options of one invocation *)

Record Options := mkOptions {
  opt_sha : list string;
  squash : bool;
  preserveOriginalAuthor : bool;
  opt_bump : option bool;
  opt_nodeMajorVersion : Z
}.

(** [x !== false] *)
Definition notFalse (b : option bool) : bool :=
  match b with Some false => false | _ => true end.

(** [[...xs]] of a value that may be [undefined]: only an iterable can be
    spread into an array literal. *)
Definition spread {A} (xs : option (list A)) : M (list A) :=
  match xs with
  | Some l => ret l
  | None => throw (TypeError "undefined is not iterable")
  end.

(** A value nobody reads: the result of an awaited call in statement
    position, or of the function of a task. *)
Definition discard {A} (m : M A) : M unit := m ;; ret tt.

Fixpoint logAll (es : list Event) : M unit :=
  match es with
  | [] => ret tt
  | e :: es' => log e ;; logAll es'
  end.

Fixpoint forEach {A} (xs : list A) (body : A -> M unit) : M unit :=
  match xs with
  | [] => ret tt
  | x :: xs' => body x ;; forEach xs' body
  end.

(** ** backport.js *)

Section Backport.

(** [shortSha] is imported from [../utils.js] and [getCurrentV8Version] from
    [./common.js]. *)
Variable shortSha : string -> string.
Variable getCurrentV8Version : Task.

(** The two repositories and the git configuration: what a command answers.
    [ctx.execGitV8] only queries the upstream clone; the answer of
    [ctx.execGitNode] may depend on everything the run did before, and so
    may that of [git config]. *)
Variable gitV8 : list string -> Result string.
Variable gitNode :
  list Event -> string -> list string -> option string -> Result string.
Variable gitConfig : list Event -> string -> Result string.

(** The order in which the concurrent queries of [generatePatches] settle:
    the [rev-parse] calls, the per-commit fetches, and for the commit at
    index [i] its pair of [format-patch] and [log]. *)
Variable schedRevParse : list nat.
Variable schedFetch : list nat.
Variable schedPair : nat -> list nat.

Definition execGitNode (cmd : string) (args : list string)
    (input : option string) : M string :=
  fun st =>
    (gitNode (trace st) cmd args input, emit (EGitNode cmd args input) st).

(** [forceRunAsync('git', ['config', configKey], {ignoreFailure: false,
    captureStdout: true, ...})] *)
Definition getGitConfigEntry (configKey : string) : M string :=
  fun st =>
    (mapResult trim (gitConfig (trace st) configKey),
     emit (EGitConfig configKey) st).

Definition checkOptions (options : Options) : M (option bool) :=
  if (1 <? length (opt_sha options)) && squash options then
    wantSquash <- confirm ;;
    if negb wantSquash then ret (Some true) else ret None
  else ret None.

Definition formatMessageTitle (patches : list Patch) : string :=
  let action :=
    if existsb hadConflicts patches then "backport" else "cherry-pick" in
  let at_ i := nth i patches undefinedPatch in
  if length patches =? 1 then
    "deps: V8: " +:+ action +:+ " " +:+ shortSha (sha (at_ 0))
  else if length patches =? 2 then
    "deps: V8: " +:+ action +:+ " " +:+ shortSha (sha (at_ 0)) +:+ " and " +:+
      shortSha (sha (at_ 1))
  else if length patches =? 3 then
    "deps: V8: " +:+ action +:+ " " +:+ shortSha (sha (at_ 0)) +:+ ", " +:+
      shortSha (sha (at_ 1)) +:+ " and " +:+ shortSha (sha (at_ 2))
  else
    "deps: V8: " +:+ action +:+ " " +:+ ofNat (length patches) +:+ " commits".

(** [trailers] is the third parameter, with default ['']: a caller that
    leaves it out or passes [undefined] (here [None]) gets the default. *)
Definition formatMessageBody
    (patch : Patch) (prefixTitle : bool) (trailers : option string) : string :=
  let trailers := match trailers with Some t => t | None => "" end in
  let indentedMessage := replaceNewlines (nl +:+ "    ") (message patch) in
  let body :=
    "Original commit message:" +:+ nl +:+ nl +:+
    "    " +:+ indentedMessage +:+ nl +:+ nl +:+
    "Refs: https://github.com/v8/v8/commit/" +:+ sha patch +:+ trailers in
  if prefixTitle then
    let action := if hadConflicts patch then "Backport" else "Cherry-pick" in
    action +:+ " " +:+ shortSha (sha patch) +:+ "." +:+ nl +:+ body
  else body.

(** The message body [commitSquashedBackport] builds. *)
Definition squashedMessageBody (patches : list Patch) : string :=
  if length patches =? 1 then
    formatMessageBody (nth 0 patches undefinedPatch) false None
  else
    fold_left
      (fun messageBody patch =>
         messageBody +:+ formatMessageBody patch true None +:+ nl +:+ nl)
      patches "".

Definition commitSquashedBackport : Task :=
  mkTask "Commit backport" (
    c <- getCtx ;;
    let patches := patches c in
    let messageTitle := formatMessageTitle patches in
    let messageBody := squashedMessageBody patches in
    execGitNode "add" ["deps/v8"] None ;;
    execGitNode "commit" ["-m"; messageTitle; "-m"; messageBody] None ;;
    ret tt).

(** [commitTask(patch, extraArgs, trailers)]; an argument the caller leaves
    out is [undefined], here [None]. *)
Definition commitTask (patch : nat) (extraArgs : option (list string))
    (trailers : option string) : M unit :=
  p <- getPatch patch ;;
  let messageTitle := formatMessageTitle [p] in
  let messageBody := formatMessageBody p false trailers in
  execGitNode "add" ["deps/v8"] None ;;
  c <- getCtx ;;
  extra <- spread extraArgs ;;
  execGitNode "commit"
    (gpgSign c ++ extra ++ ["-m"; messageTitle; "-m"; messageBody]) None ;;
  ret tt.

Definition amendHEAD (patch : nat) : Task :=
  mkTask "Amend/commit" (
    p <- getPatch patch ;;
    coAuthor <-
      (if hadConflicts p then
         c <- getCtx ;;
         execGitNode "am" (gpgSign c ++ ["--continue"]) None ;;
         name <- getGitConfigEntry "user.name" ;;
         email <- getGitConfigEntry "user.email" ;;
         ret (Some (nl +:+ "Co-authored-by: " +:+ name +:+ " <" +:+ email
                       +:+ ">"))
       else ret None) ;;
    commitTask patch (Some ["--amend"]) coAuthor).

Definition commitPatch (patch : nat) : Task :=
  mkTask "Commit patch" (commitTask patch None None).

(** The calls of [generatePatches] start in the order of the array, before
    any of them settles. *)
Definition revParse (sha : string) : Result string :=
  mapResult trim (gitV8 ["rev-parse"; sha]).

Definition fetchArgs (sha : string) : list (list string) :=
  [ ["format-patch"; "--stdout"; sha +:+ "^.." +:+ sha];
    ["log"; "--format=%B"; "-n"; "1"; sha] ].

Definition fetchPatch (i : nat) (sha : string) : Result Patch :=
  mapResult
    (fun pm => mkPatch sha (nth 0 pm "") (nth 1 pm "") false)
    (promiseAll (schedPair i) (map gitV8 (fetchArgs sha))).

Fixpoint mapi {A B} (f : nat -> A -> B) (i : nat) (l : list A) : list B :=
  match l with
  | [] => []
  | x :: l' => f i x :: mapi f (S i) l'
  end.

Definition generatePatches : Task :=
  mkTask "Generate patches" (
    c <- getCtx ;;
    let shas := ctx_sha c in
    logAll (map (fun sha => EGitV8 ["rev-parse"; sha]) shas) ;;
    fullShas <- liftResult (promiseAll schedRevParse (map revParse shas)) ;;
    logAll (map EGitV8 (flat_map fetchArgs fullShas)) ;;
    ps <- liftResult (promiseAll schedFetch (mapi fetchPatch 0 fullShas)) ;;
    modifyCtx (setPatches ps)).

(** The [validate] of the prompt, on a line of 8-bit characters;
    [Utf16.validate] is the same function on code units. *)
Definition validateResolved (value : string) : bool :=
  String.eqb (toUpperCase value) "RESOLVED".

(** [applyPatch(ctx, task, patch, method = 'apply')]: [undefined] after a
    clean apply, the answer of the prompt after a failed one. *)
Definition applyPatch (patch : nat) (method : string) : M (option string) :=
  tryCatch
    (p <- getPatch patch ;;
     execGitNode method ["-p1"; "--3way"; "--directory=deps/v8"]
                 (Some (data p)) ;;
     ret None)
    (fun e =>
       setHadConflicts patch ;;
       answer <- prompt validateResolved ;;
       ret (Some answer)).

Definition patchRefs (c : Ctx) : list nat := seq 0 (length (patches c)).

Definition applyPatches : Task :=
  mkTask "Apply patches to deps/v8" (
    c <- getCtx ;;
    forEach (patchRefs c) (fun patch => discard (applyPatch patch "apply"))).

Definition v8VersionPath (c : Ctx) : string :=
  nodeDir c +:+ "/deps/v8/include/v8-version.h".

Definition incrementV8Version : Task :=
  mkTask "Increment V8 version" (
    modifyCtx (fun c => setPatchLevel (currentVersion_patch c + 1)%N c) ;;
    c <- getCtx ;;
    let incremented := currentVersion_patch c in
    let versionHPath := v8VersionPath c in
    versionH <- readFile versionHPath ;;
    let versionH :=
      replaceFirst patchLevelAt ("V8_PATCH_LEVEL " +:+ ofN incremented)
                   versionH in
    writeFile versionHPath versionH).

Definition incrementEmbedderVersion : Task :=
  mkTask "Increment embedder version number" (
    c <- getCtx ;;
    let commonGypiPath := pathJoin (nodeDir c) "common.gypi" in
    commonGypi <- readFile commonGypiPath ;;
    match search embedderAt commonGypi with
    | None =>
        throw (TypeError "Cannot read properties of null (reading '1')")
    | Some (_, group1, _) =>
        let embedderValue := parseInt10 group1 in
        let embedderString :=
          embedderKey +:+ ofN (embedderValue + 1)%N +:+ "'" in
        writeFile commonGypiPath
                  (replaceFirst embedderAt embedderString commonGypi) ;;
        execGitNode "add" ["common.gypi"] None ;;
        ret tt
    end).

(** The version bump a task list includes: none when [bump] is [false],
    else the one [nodeMajorVersion] selects. *)
Definition bumpTasks (bump : option bool) (nodeMajorVersion : Z)
  : list Task :=
  if notFalse bump then
    if (nodeMajorVersion <? 9)%Z then [incrementV8Version]
    else [incrementEmbedderVersion]
  else [].

Definition applyPatchTask (patches : list Patch) (patch : nat) : Task :=
  mkTask ("Commit " +:+ shortSha (sha (nth patch patches undefinedPatch))) (
    c <- getCtx ;;
    newListr
      ([mkTask "Apply patch" (discard (applyPatch patch "apply"))] ++
       bumpTasks (bump c) (nodeMajorVersion c) ++
       [commitPatch patch])).

Definition cherryPickV8CommitTask (patches : list Patch) (patch : nat)
  : Task :=
  mkTask ("Commit " +:+ shortSha (sha (nth patch patches undefinedPatch))) (
    c <- getCtx ;;
    newListr
      ([mkTask "Cherry-pick" (discard (applyPatch patch "am"))] ++
       bumpTasks (bump c) (nodeMajorVersion c) ++
       [amendHEAD patch])).

Definition applyAndCommitPatches : Task :=
  mkTask "Apply and commit patches to deps/v8" (
    c <- getCtx ;;
    newListr (map (applyPatchTask (patches c)) (patchRefs c))).

Definition cherryPickV8Commits : Task :=
  mkTask "Cherry-pick commit from V8 clone to deps/v8" (
    c <- getCtx ;;
    newListr (map (cherryPickV8CommitTask (patches c)) (patchRefs c))).

Definition doBackport_todo (options : Options) : list Task :=
  [getCurrentV8Version; generatePatches] ++
  (if squash options then
     [applyPatches] ++
     bumpTasks (opt_bump options) (opt_nodeMajorVersion options) ++
     [commitSquashedBackport]
   else if preserveOriginalAuthor options then [cherryPickV8Commits]
   else [applyAndCommitPatches]).

Definition doBackport (options : Options) : Task :=
  mkTask "V8 commit backport" (newListr (doBackport_todo options)).

(** Modelled from the spec: the command that calls [checkOptions] and runs
    the task of [doBackport] is not part of this file.  "Declining aborts
    the run before any patch is generated or applied": the value
    [checkOptions] returns is the cancellation, and a cancelled run starts
    no task. *)
Definition backport (options : Options) : M unit :=
  cancelled <- checkOptions options ;;
  match cancelled with
  | Some true => ret tt
  | _ => newListr [doBackport options]
  end.

End Backport.

(** ** Notions the properties are stated with *)

(** Equality of two strings up to the case of their ASCII letters. *)
Definition sameLetter (a b : ascii) : bool :=
  Ascii.eqb (lowerChar a) (lowerChar b).

Fixpoint eqNoCase (s t : string) : bool :=
  match s, t with
  | "", "" => true
  | String a s', String b t' => sameLetter a b && eqNoCase s' t'
  | _, _ => false
  end.



Fixpoint hasNewline (s : string) : bool :=
  match s with
  | "" => false
  | String c s' => Ascii.eqb c LF || hasNewline s'
  end.

(** The action word of a title. *)
Definition actionWord (patches : list Patch) : string :=
  if existsb hadConflicts patches then "backport" else "cherry-pick".

(** The arguments of [git apply] and [git am]. *)
Definition applyArgs : list string := ["-p1"; "--3way"; "--directory=deps/v8"].

(** The patch a per-patch task refers to, and the command that applies it. *)
Definition patchAt (st : State) (patch : nat) : Patch :=
  nth patch (patches (ctx st)) undefinedPatch.

Definition applyCall (st : State) (patch : nat) (method : string) : Event :=
  EGitNode method applyArgs (Some (data (patchAt st patch))).

(** The state after a failed apply that the operator acknowledged (or that
    still waits): the patch is marked, the typed lines are consumed, the
    command and the submitted lines are on the trace. *)
Definition afterConflict (st : State) (patch : nat) (method : string)
    (unread : list string) (submitted : list string) : State :=
  mkState
    (setPatches (updateNth patch markConflict (patches (ctx st))) (ctx st))
    (files st) (confirms st) unread
    (trace st ++
     [EGitNode method applyArgs
               (Some (data (nth patch (patches (ctx st)) undefinedPatch)))] ++
     map EPrompt submitted).

(** The state after the operator answered the confirmation. *)
Definition afterConfirm (st : State) (answer : bool) (rest : list bool)
  : State :=
  mkState (ctx st) (files st) rest (typed st) (trace st ++ [EConfirm answer]).

(** The build-configuration file, and the two version files after a
    bump. *)
Definition commonGypiPath (c : Ctx) : string := pathJoin (nodeDir c) "common.gypi".

Definition bumpedVersionH (pre : string) (level : N) (post : string)
  : string :=
  pre +:+ "V8_PATCH_LEVEL " +:+ ofN level +:+ post.

Definition bumpedGypi (pre : string) (n : N) (post : string) : string :=
  pre +:+ embedderKey +:+ ofN n +:+ "'" +:+ post.

Definition afterPatchLevelBump (st : State) (versionH : string) : State :=
  mkState (setPatchLevel (currentVersion_patch (ctx st) + 1)%N (ctx st))
          ((v8VersionPath (ctx st), versionH) :: files st)
          (confirms st) (typed st)
          (trace st ++ [ERead (v8VersionPath (ctx st));
                        EWrite (v8VersionPath (ctx st)) versionH]).

Definition gypiRewritten (st : State) (commonGypi : string) : list Event :=
  trace st ++ [ERead (commonGypiPath (ctx st));
               EWrite (commonGypiPath (ctx st)) commonGypi].

Definition afterEmbedderBump (st : State) (commonGypi : string) : State :=
  mkState (ctx st) ((commonGypiPath (ctx st), commonGypi) :: files st)
          (confirms st) (typed st)
          (gypiRewritten st commonGypi ++
           [EGitNode "add" ["common.gypi"] None]).

(** Slots of [Promise.all]: the number of empty ones, and a slot that is
    empty or holds the value of its promise. *)
Fixpoint countNone {A} (values : list (option A)) : nat :=
  match values with
  | [] => 0
  | None :: rest => S (countNone rest)
  | Some _ :: rest => countNone rest
  end.

Definition slotFor {A} (slot : option A) (v : A) : Prop :=
  slot = None \/ slot = Some v.

(** The state after [generatePatches] stored the records [ps] for the
    references of [ctx.sha]. *)
Definition afterGenerate (st : State) (ps : list Patch) : State :=
  mkState (setPatches ps (ctx st)) (files st) (confirms st) (typed st)
          (trace st ++
           map (fun ref => EGitV8 ["rev-parse"; ref]) (ctx_sha (ctx st)) ++
           map EGitV8 (flat_map fetchArgs (map sha ps))).

Fixpoint hasSpace (s : string) : bool :=
  match s with
  | "" => false
  | String c s' => isSpace c || hasSpace s'
  end.

(** The record [generatePatches] builds for a reference, from what the
    three queries answer for it. *)
Definition patchRecord (full diff msg : string -> string) (ref : string)
  : Patch :=
  mkPatch (trim (full ref)) (diff ref) (msg ref) false.

(** The value of a decimal numeral read after the digits of value [acc]. *)
Fixpoint uintVal (acc : N) (u : Decimal.uint) : N :=
  match u with
  | Decimal.Nil => acc
  | Decimal.D0 u => uintVal (10 * acc + 0) u
  | Decimal.D1 u => uintVal (10 * acc + 1) u
  | Decimal.D2 u => uintVal (10 * acc + 2) u
  | Decimal.D3 u => uintVal (10 * acc + 3) u
  | Decimal.D4 u => uintVal (10 * acc + 4) u
  | Decimal.D5 u => uintVal (10 * acc + 5) u
  | Decimal.D6 u => uintVal (10 * acc + 6) u
  | Decimal.D7 u => uintVal (10 * acc + 7) u
  | Decimal.D8 u => uintVal (10 * acc + 8) u
  | Decimal.D9 u => uintVal (10 * acc + 9) u
  end%N.

(** The three strategies of the planner and the tasks each one adds to the
    two common ones. *)
Inductive Strategy := Squash | PreserveAuthor | PatchThenCommit.

(** What a git command of the downstream repository contributes to the
    history: applying a patch ([apply], or [am] with the patch on its
    input) and committing, freshly or by amending [HEAD]. *)
Inductive Step :=
| SApply (method data : string)
| SCommit (amend : bool).

Definition stepOf (e : Event) : option Step :=
  match e with
  | EGitNode cmd args (Some input) =>
      if String.eqb cmd "apply" || String.eqb cmd "am"
      then Some (SApply cmd input) else None
  | EGitNode cmd args None =>
      if String.eqb cmd "commit"
      then Some (SCommit (existsb (String.eqb "--amend") args)) else None
  | _ => None
  end.

Fixpoint topology (tr : list Event) : list Step :=
  match tr with
  | [] => []
  | e :: tr' =>
      match stepOf e with
      | Some s => s :: topology tr'
      | None => topology tr'
      end
  end.

Definition isCommit (e : Event) : bool :=
  match e with
  | EGitNode cmd _ _ => String.eqb cmd "commit"
  | _ => false
  end.

Definition notCommit (e : Event) : bool := negb (isCommit e).

Definition isGitNode (e : Event) : bool :=
  match e with
  | EGitNode _ _ _ => true
  | _ => false
  end.

Definition isMutation (e : Event) : bool :=
  match e with
  | EGitNode _ _ _ | EWrite _ _ => true
  | _ => false
  end.

Definition isFetch (e : Event) : bool :=
  match e with
  | EGitV8 _ => true
  | _ => false
  end.

(** The diffs of the patches of the context.  An action that keeps them and
    only adds events accepted by [ok] to the trace, and an action that never
    ends normally. *)
Definition datas (st : State) : list string := map data (patches (ctx st)).

Definition evolves (ok : Event -> bool) (st st' : State) : Prop :=
  datas st' = datas st
  /\ exists evs, trace st' = trace st ++ evs /\ forallb ok evs = true.

Definition emitsOnly (ok : Event -> bool) {A} (m : M A) : Prop :=
  forall st, evolves ok st (snd (m st)).

(** An event that is no step of the history, and an action that, when it
    ends normally, keeps the diffs and has added the steps [expected] to the
    history. *)
Definition quiet (e : Event) : bool :=
  match stepOf e with
  | Some _ => false
  | None => true
  end.

Definition performs {A} (m : M A) (expected : list string -> list Step)
  : Prop :=
  forall st a st',
    m st = (Ok a, st') ->
    datas st' = datas st
    /\ topology (trace st') = topology (trace st) ++ expected (datas st).

Definition isApplyMethod (method : string) : bool :=
  String.eqb method "apply" || String.eqb method "am".

Definition neverOk {A} (m : M A) : Prop :=
  forall st a, fst (m st) <> Ok a.

(** The state after the [rev-parse] queries of [generatePatches] were
    started and one of them failed. *)
Definition afterRevParse (st : State) : State :=
  mkState (ctx st) (files st) (confirms st) (typed st)
          (trace st ++
           map (fun ref => EGitV8 ["rev-parse"; ref]) (ctx_sha (ctx st))).

(** The state after the run added [evs] to the trace and changed nothing
    else. *)
Definition withEvents (st : State) (evs : list Event) : State :=
  mkState (ctx st) (files st) (confirms st) (typed st) (trace st ++ evs).

Definition stageV8 : Event := EGitNode "add" ["deps/v8"] None.

(** The commands of [amendHEAD]: the continuation of [git am], the
    trailer built from the git identity, and the amending commit. *)
Definition amContinue (st : State) : Event :=
  EGitNode "am" (gpgSign (ctx st) ++ ["--continue"]) None.

Definition coAuthorTrailer (name email : string) : string :=
  nl +:+ "Co-authored-by: " +:+ trim name +:+ " <" +:+ trim email +:+ ">".

Definition commitArgs (shortSha : string -> string) (st : State)
    (patch : nat) (extra : list string) (trailers : option string)
  : list string :=
  gpgSign (ctx st) ++ extra ++
  ["-m"; formatMessageTitle shortSha [patchAt st patch];
   "-m"; formatMessageBody shortSha (patchAt st patch) false trailers].

(** The commit of [commitSquashedBackport]. *)
Definition squashCommit (shortSha : string -> string) (st : State) : Event :=
  EGitNode "commit"
    ["-m"; formatMessageTitle shortSha (patches (ctx st));
     "-m"; squashedMessageBody shortSha (patches (ctx st))] None.

(** The state after the patch-level bump incremented the counter and found
    no header to read. *)
Definition afterFailedRead (st : State) : State :=
  mkState (setPatchLevel (currentVersion_patch (ctx st) + 1)%N (ctx st))
          (files st) (confirms st) (typed st)
          (trace st ++ [ERead (v8VersionPath (ctx st))]).

(** [n] runs of an action, one after the other. *)
Fixpoint times (n : nat) (m : M unit) : M unit :=
  match n with
  | 0 => ret tt
  | S n' => m ;; times n' m
  end.

Fixpoint lastChar (s : string) : option ascii :=
  match s with
  | "" => None
  | String c "" => Some c
  | String _ s' => lastChar s'
  end.

(** A patch record that kept its sha, diff and message, and its conflict
    flag if that was set; an action that keeps every patch record of the
    context so, however it ends. *)
Definition keptPatch (p p' : Patch) : Prop :=
  sha p' = sha p /\ data p' = data p /\ message p' = message p
  /\ (hadConflicts p = true -> hadConflicts p' = true).

Definition keepsPatches {A} (m : M A) : Prop :=
  forall st,
    Forall2 keptPatch (patches (ctx st)) (patches (ctx (snd (m st)))).

(** A text that ends with a character that is no digit. *)
Definition endsOffDigits (s : string) : Prop :=
  exists c, lastChar s = Some c /\ isDigit c = false.

(** An event of a version bump: a file read or written, or the staging of
    [common.gypi]. *)
Definition isBumpEvent (e : Event) : bool :=
  match e with
  | ERead _ | EWrite _ _ => true
  | EGitNode cmd [arg] _ =>
      String.eqb cmd "add" && String.eqb arg "common.gypi"
  | _ => false
  end.

Definition notBumpEvent (e : Event) : bool := negb (isBumpEvent e).

(** The state after all the queries of [generatePatches] were started and
    a fetch failed: the context is as before. *)
Definition afterFetches (st : State) (fullShas : list string) : State :=
  withEvents st
    (map (fun ref => EGitV8 ["rev-parse"; ref]) (ctx_sha (ctx st)) ++
     map EGitV8 (flat_map fetchArgs fullShas)).

Section Planner.

Variable shortSha : string -> string.
Variable getCurrentV8Version : Task.
Variable gitV8 : list string -> Result string.
Variable gitNode :
  list Event -> string -> list string -> option string -> Result string.
Variable gitConfig : list Event -> string -> Result string.
Variable schedRevParse : list nat.
Variable schedFetch : list nat.
Variable schedPair : nat -> list nat.

Definition strategyTodo (options : Options) (s : Strategy) : list Task :=
  match s with
  | Squash =>
      [applyPatches gitNode] ++
      bumpTasks gitNode (opt_bump options) (opt_nodeMajorVersion options) ++
      [commitSquashedBackport shortSha gitNode]
  | PreserveAuthor => [cherryPickV8Commits shortSha gitNode gitConfig]
  | PatchThenCommit => [applyAndCommitPatches shortSha gitNode]
  end.

Definition planned (options : Options) (s : Strategy) : Prop :=
  doBackport_todo shortSha getCurrentV8Version gitV8 gitNode gitConfig
                  schedRevParse schedFetch schedPair options =
  [getCurrentV8Version;
   generatePatches gitV8 schedRevParse schedFetch schedPair] ++
  strategyTodo options s.

End Planner.

(** ** A concrete run, for the examples *)

Module Demo.

Definition shortSha (s : string) : string := substring 0 12 s.

Definition getCurrentV8Version : Task :=
  mkTask "Get current V8 version" (ret tt).

(** The upstream clone knows the two commits by their first twelve digits;
    [sha1] and [sha2] are their full names. *)
Definition digits28 : string := "d9f1e4a07c3b5e8f6a2d4c1b0e9f".
Definition sha1 : string := "4c074516397b" +:+ digits28.
Definition sha2 : string := "a51f429772d1" +:+ digits28.

Definition gitV8 (args : list string) : Result string :=
  match args with
  | ["rev-parse"; ref] => Ok (ref +:+ digits28 +:+ nl)
  | ["format-patch"; "--stdout"; range] => Ok ("diff of " +:+ range)
  | ["log"; "--format=%B"; "-n"; "1"; s] =>
      Ok ("fix " +:+ s +:+ nl +:+ nl +:+ "Details." +:+ nl)
  | _ => Throw (CommandFailed "git: unknown revision")
  end.

(** Every command of the downstream repository succeeds. *)
Definition gitNodeClean (tr : list Event) (cmd : string)
    (args : list string) (input : option string) : Result string := Ok "".

(** Applying a patch fails, every other command succeeds. *)
Definition gitNodeConflict (tr : list Event) (cmd : string)
    (args : list string) (input : option string) : Result string :=
  match input with
  | Some _ => Throw (CommandFailed "error: patch failed")
  | None => Ok ""
  end.

Definition gitConfig (tr : list Event) (key : string) : Result string :=
  Ok ("Jane " +:+ key +:+ nl).

Definition versionH : string :=
  "#define V8_BUILD_NUMBER 7" +:+ nl +:+
  "#define V8_PATCH_LEVEL 12" +:+ nl +:+
  "#define V8_IS_CANDIDATE_VERSION 0" +:+ nl.

Definition commonGypi : string :=
  "    # Reset this number to 0 on major V8 upgrades." +:+ nl +:+
  "    'v8_embedder_string': '-node.5'," +:+ nl +:+
  "    'v8_enable_31bit_smis_on_64bit_arch%': 0," +:+ nl.

Definition ctx0 (bump : option bool) (major : Z) : Ctx :=
  mkCtx ["4c074516397b"; "a51f429772d1"] "/node" bump major [] 12%N [].

Definition files0 : list (string * string) :=
  [("/node/deps/v8/include/v8-version.h", versionH);
   ("/node/common.gypi", commonGypi)].

Definition state0 (bump : option bool) (major : Z) : State :=
  mkState (ctx0 bump major) files0 [false] ["done"; "resolved"] [].

Definition options0 (squash preserve : bool) : Options :=
  mkOptions ["4c074516397b"; "a51f429772d1"] squash preserve None 20%Z.

Definition run (gitNode :
    list Event -> string -> list string -> option string -> Result string)
    (options : Options) : Result unit * State :=
  task (doBackport shortSha getCurrentV8Version gitV8 gitNode gitConfig
                   [1; 0] [0; 1] (fun _ => [1; 0]) options)
       (state0 (opt_bump options) (opt_nodeMajorVersion options)).

(** A version header and a build configuration without the patterns. *)
Definition versionHOther : string :=
  "#define V8_MAJOR_VERSION 12" +:+ nl +:+ "#define V8_PATCH 3" +:+ nl.

Definition commonGypiOther : string :=
  "    'v8_embedder_string': '-node'," +:+ nl.

Definition stateOther : State :=
  mkState (ctx0 None 8%Z)
          [("/node/deps/v8/include/v8-version.h", versionHOther);
           ("/node/common.gypi", commonGypiOther)]
          [] [] [].

Definition patch1 : Patch :=
  mkPatch sha1 "diff 1" ("fix" +:+ nl +:+ "Details.") false.
Definition patch2 : Patch :=
  mkPatch sha2 "diff 2" "tidy" false.

(** The state in which the task "Apply patch" of the first patch runs. *)
Definition stateApply : State :=
  emit (EStart "Apply patch")
       (mkState (setPatches [patch1; patch2] (ctx0 (Some false) 20%Z))
                files0 [] ["done"; "resolved"; "yes"] []).

(** Git is not installed: every command fails to start. *)
Definition gitNodeMissing (tr : list Event) (cmd : string)
    (args : list string) (input : option string) : Result string :=
  Throw (CommandFailed "spawn git ENOENT").

(** What the three queries answer for a reference. *)
Definition full (ref : string) : string := ref +:+ digits28 +:+ nl.
Definition diff (ref : string) : string :=
  "diff of " +:+ (ref +:+ digits28) +:+ "^.." +:+ (ref +:+ digits28).
Definition msg (ref : string) : string :=
  "fix " +:+ (ref +:+ digits28) +:+ nl +:+ nl +:+ "Details." +:+ nl.

(** The state after the patches were generated, with two lines typed, and
    the same with the first patch marked by a failed [git am]. *)
Definition stateReady : State :=
  mkState (setPatches [patch1; patch2] (ctx0 None 20%Z))
          files0 [] ["resolved"; "Resolved"] [].

Definition stateConflicted : State :=
  mkState (setPatches [markConflict patch1; patch2] (ctx0 None 20%Z))
          files0 [] [] [].

(** The second reference is unknown to the upstream clone. *)
Definition gitV8Unknown (args : list string) : Result string :=
  match args with
  | ["rev-parse"; "a51f429772d1"] =>
      Throw (CommandFailed "fatal: bad revision")
  | _ => gitV8 args
  end.

(** The message of the second commit cannot be read. *)
Definition gitV8NoLog (args : list string) : Result string :=
  match args with
  | ["log"; "--format=%B"; "-n"; "1"; s] =>
      if String.eqb s sha2 then Throw (CommandFailed "fatal: bad object")
      else gitV8 args
  | _ => gitV8 args
  end.

(** A checkout without the version files. *)
Definition stateBare : State :=
  mkState (ctx0 None 20%Z) [] [] [] [].

(** The version files after one bump of [state0]. *)
Definition versionH13 : string :=
  "#define V8_BUILD_NUMBER 7" +:+ nl +:+
  "#define V8_PATCH_LEVEL 13" +:+ nl +:+
  "#define V8_IS_CANDIDATE_VERSION 0" +:+ nl.

Definition commonGypi6 : string :=
  "    # Reset this number to 0 on major V8 upgrades." +:+ nl +:+
  "    'v8_embedder_string': '-node.6'," +:+ nl +:+
  "    'v8_enable_31bit_smis_on_64bit_arch%': 0," +:+ nl.

End Demo.

(** ** Strings *)

Lemma append_nil_r (s : string) : s +:+ "" = s.
Proof. induction s; simpl; congruence. Qed.

Lemma append_assoc (s t u : string) : (s +:+ t) +:+ u = s +:+ t +:+ u.
Proof. induction s; simpl; congruence. Qed.

Lemma lines_nonempty (s : string) : lines s <> [].
Proof.
  induction s as [|c s IH]; simpl; [discriminate|].
  destruct (Ascii.eqb c LF); [discriminate|].
  destruct (lines s); discriminate.
Qed.

(** Replacing every line feed by [sep] is joining the lines with [sep]. *)
Lemma replaceNewlines_join_lines (sep s : string) :
  replaceNewlines sep s = join sep (lines s).
Proof.
  induction s as [|c s IH]; simpl; [reflexivity|].
  destruct (Ascii.eqb c LF).
  - rewrite IH. pose proof (lines_nonempty s).
    destruct (lines s); [contradiction|reflexivity].
  - rewrite IH. pose proof (lines_nonempty s).
    destruct (lines s) as [|l [|l' ls]]; [contradiction| |]; reflexivity.
Qed.

(** ** The commit message synthesizer *)

Section SynthesizerFacts.

Variable shortSha : string -> string.

Lemma actionWord_backport (patches : list Patch) :
  actionWord patches = "backport" <->
  exists p, In p patches /\ hadConflicts p = true.
Proof.
  unfold actionWord. destruct (existsb hadConflicts patches) eqn:E.
  - apply existsb_exists in E. tauto.
  - split; [discriminate|]. intros H. apply existsb_exists in H. congruence.
Qed.

Lemma actionWord_cherry_pick (patches : list Patch) :
  actionWord patches = "cherry-pick" <->
  forall p, In p patches -> hadConflicts p = false.
Proof.
  unfold actionWord. destruct (existsb hadConflicts patches) eqn:E.
  - split; [discriminate|]. intros H. apply existsb_exists in E.
    destruct E as (p & Hin & Hp). rewrite (H p Hin) in Hp. discriminate.
  - split; [|reflexivity]. intros _ p Hin.
    destruct (hadConflicts p) eqn:Hp; [|reflexivity].
    assert (existsb hadConflicts patches = true)
      by (apply existsb_exists; eauto).
    congruence.
Qed.

(** C4: the title of one, two, three and more than three patches, and the
    action word: "backport" exactly when some patch of the list had
    conflicts, "cherry-pick" otherwise. *)
Theorem formatMessageTitle_grammar :
  forall (p1 p2 p3 p4 : Patch) (more : list Patch),
    formatMessageTitle shortSha [p1] =
      "deps: V8: " +:+ actionWord [p1] +:+ " " +:+ shortSha (sha p1)
    /\ formatMessageTitle shortSha [p1; p2] =
      "deps: V8: " +:+ actionWord [p1; p2] +:+ " " +:+ shortSha (sha p1) +:+
      " and " +:+ shortSha (sha p2)
    /\ formatMessageTitle shortSha [p1; p2; p3] =
      "deps: V8: " +:+ actionWord [p1; p2; p3] +:+ " " +:+
      shortSha (sha p1) +:+ ", " +:+ shortSha (sha p2) +:+ " and " +:+
      shortSha (sha p3)
    /\ formatMessageTitle shortSha (p1 :: p2 :: p3 :: p4 :: more) =
      "deps: V8: " +:+ actionWord (p1 :: p2 :: p3 :: p4 :: more) +:+ " " +:+
      ofNat (4 + length more) +:+ " commits"
    /\ (forall patches,
          (actionWord patches = "backport" <->
           exists p, In p patches /\ hadConflicts p = true)
          /\ (actionWord patches = "cherry-pick" <->
              forall p, In p patches -> hadConflicts p = false)).
Proof.
  intros p1 p2 p3 p4 more.
  repeat split; try reflexivity;
    try apply actionWord_backport; try apply actionWord_cherry_pick.
Qed.

Lemma fold_left_bodies (f : Patch -> string) (patches : list Patch)
    (acc : string) :
  fold_left (fun messageBody patch => messageBody +:+ f patch) patches acc =
  acc +:+ String.concat "" (map f patches).
Proof.
  revert acc. induction patches as [|p ps IH]; intros acc; simpl.
  - now rewrite append_nil_r.
  - rewrite IH, append_assoc. destruct ps; simpl; [|reflexivity].
    now rewrite append_nil_r.
Qed.

Lemma concat_blank_line_join (bodies : list string) :
  bodies <> [] ->
  String.concat "" (map (fun b => b +:+ nl +:+ nl) bodies) =
  join (nl +:+ nl) bodies +:+ nl +:+ nl.
Proof.
  induction bodies as [|b bs IH]; [congruence|]. intros _.
  destruct bs as [|b' bs].
  - reflexivity.
  - change (String.concat "" (map (fun b0 => b0 +:+ nl +:+ nl) (b :: b' :: bs)))
      with ((b +:+ nl +:+ nl) +:+
            String.concat "" (map (fun b0 => b0 +:+ nl +:+ nl) (b' :: bs))).
    rewrite IH by discriminate.
    change (join (nl +:+ nl) (b :: b' :: bs))
      with (b +:+ (nl +:+ nl) +:+ join (nl +:+ nl) (b' :: bs)).
    now rewrite !append_assoc.
Qed.

(** C5: the body of one patch is the header, the original message with
    every line feed followed by four spaces (its lines joined by a line
    feed and four spaces), a blank line, the Refs line with the full SHA,
    and the trailers as they are; with [prefixTitle] the action line of the
    patch itself comes first; a squashed commit of several patches has the
    prefixed bodies of all of them, joined by a blank line and ended by
    one, and a squashed commit of one patch has its plain body. *)
Theorem formatMessageBody_layout :
  forall (p q : Patch) (more : list Patch) (trailers : string),
    formatMessageBody shortSha p false (Some trailers) =
      "Original commit message:" +:+ nl +:+ nl +:+ "    " +:+
      join (nl +:+ "    ") (lines (message p)) +:+ nl +:+ nl +:+
      "Refs: https://github.com/v8/v8/commit/" +:+ sha p +:+ trailers
    /\ formatMessageBody shortSha p false None =
       formatMessageBody shortSha p false (Some "")
    /\ formatMessageBody shortSha p true (Some trailers) =
      (if hadConflicts p then "Backport" else "Cherry-pick") +:+ " " +:+
      shortSha (sha p) +:+ "." +:+ nl +:+
      formatMessageBody shortSha p false (Some trailers)
    /\ squashedMessageBody shortSha [p] =
       formatMessageBody shortSha p false (Some "")
    /\ squashedMessageBody shortSha (p :: q :: more) =
       join (nl +:+ nl)
            (map (fun x => formatMessageBody shortSha x true (Some ""))
                 (p :: q :: more)) +:+ nl +:+ nl.
Proof.
  intros p q more trailers. split; [|split; [|split; [|split]]].
  - unfold formatMessageBody. now rewrite replaceNewlines_join_lines.
  - reflexivity.
  - unfold formatMessageBody. destruct (hadConflicts p); reflexivity.
  - reflexivity.
  - unfold squashedMessageBody.
    replace (length (p :: q :: more) =? 1) with false by reflexivity.
    rewrite (fold_left_bodies
               (fun x => formatMessageBody shortSha x true None +:+ nl +:+ nl)).
    change ("" +:+ ?s) with s.
    rewrite <- (concat_blank_line_join
                  (map (fun x => formatMessageBody shortSha x true (Some ""))
                       (p :: q :: more))) by discriminate.
    rewrite map_map. reflexivity.
Qed.

End SynthesizerFacts.

(** ** The strategy planner *)

Section PlannerFacts.

Variable shortSha : string -> string.
Variable getCurrentV8Version : Task.
Variable gitV8 : list string -> Result string.
Variable gitNode :
  list Event -> string -> list string -> option string -> Result string.
Variable gitConfig : list Event -> string -> Result string.
Variable schedRevParse : list nat.
Variable schedFetch : list nat.
Variable schedPair : nat -> list nat.

Local Abbreviation plans :=
  (planned shortSha getCurrentV8Version gitV8 gitNode gitConfig
           schedRevParse schedFetch schedPair).

(** The first task of a strategy tells the strategies apart. *)
Lemma strategyTodo_first_title (options : Options) (s : Strategy) :
  map title (firstn 1 (strategyTodo shortSha gitNode gitConfig options s)) =
  match s with
  | Squash => ["Apply patches to deps/v8"]
  | PreserveAuthor => ["Cherry-pick commit from V8 clone to deps/v8"]
  | PatchThenCommit => ["Apply and commit patches to deps/v8"]
  end.
Proof. destruct s; reflexivity. Qed.

Lemma planned_unique (options : Options) (s s' : Strategy) :
  plans options s -> plans options s' -> s = s'.
Proof.
  unfold plans, planned. intros H H'. rewrite H in H'.
  apply app_inv_head in H'.
  pose proof (strategyTodo_first_title options s) as T.
  rewrite H', strategyTodo_first_title in T.
  destruct s, s'; try reflexivity; discriminate T.
Qed.

(** C2: for every value of the options exactly one strategy is planned:
    squash when [squash] is set, whatever [preserveOriginalAuthor] is;
    preserve-author exactly when [squash] is unset and
    [preserveOriginalAuthor] is set; patch-then-commit when neither is. *)
Theorem strategy_selection_exclusive :
  forall options : Options,
    (exists s, plans options s /\ forall s', plans options s' -> s' = s)
    /\ (plans options Squash <-> squash options = true)
    /\ (plans options PreserveAuthor <->
        squash options = false /\ preserveOriginalAuthor options = true)
    /\ (plans options PatchThenCommit <->
        squash options = false /\ preserveOriginalAuthor options = false).
Proof.
  intros options.
  assert (Hsel : plans options
            (if squash options then Squash
             else if preserveOriginalAuthor options then PreserveAuthor
             else PatchThenCommit)).
  { unfold plans, planned, doBackport_todo.
    destruct (squash options), (preserveOriginalAuthor options); reflexivity. }
  split; [|split; [|split]].
  - eexists; split; [exact Hsel|].
    intros s' Hs'. exact (planned_unique options _ _ Hs' Hsel).
  - split.
    + intros H. pose proof (planned_unique options _ _ H Hsel) as E.
      destruct (squash options); [reflexivity|].
      destruct (preserveOriginalAuthor options); discriminate E.
    + intros E. rewrite E in Hsel. exact Hsel.
  - split.
    + intros H. pose proof (planned_unique options _ _ H Hsel) as E.
      destruct (squash options); [discriminate E|].
      destruct (preserveOriginalAuthor options);
        [split; reflexivity|discriminate E].
    + intros [E1 E2]. rewrite E1, E2 in Hsel. exact Hsel.
  - split.
    + intros H. pose proof (planned_unique options _ _ H Hsel) as E.
      destruct (squash options); [discriminate E|].
      destruct (preserveOriginalAuthor options);
        [discriminate E|split; reflexivity].
    + intros [E1 E2]. rewrite E1, E2 in Hsel. exact Hsel.
Qed.

End PlannerFacts.

(** ** The patch applier *)





(** *** The validator on every line that can be typed *)

Module Utf16Facts.
Import Utf16.








End Utf16Facts.




Section PromptFacts.

Variable validate : string -> bool.

Lemma promptLoop_accepts (rejected : list string) (tok : string)
    (rest : list string) :
  Forall (fun v => validate v = false) rejected ->
  validate tok = true ->
  promptLoop validate (rejected ++ tok :: rest) =
  (Some tok, rest, map EPrompt rejected ++ [EPrompt tok]).
Proof.
  intros Hrej Htok. induction Hrej as [|v vs Hv _ IH]; simpl.
  - now rewrite Htok.
  - now rewrite Hv, IH.
Qed.


(** Whatever is typed, the prompt ends with an accepted answer or goes on
    waiting: the answer it returns is one the validator accepts. *)
Lemma promptLoop_answer_valid (inputs : list string) (v : string)
    (rest : list string) (evs : list Event) :
  promptLoop validate inputs = (Some v, rest, evs) -> validate v = true.
Proof.
  revert rest evs. induction inputs as [|x xs IH]; intros rest evs; simpl.
  - discriminate.
  - destruct (validate x) eqn:Hx.
    + intros E. injection E as <- _ _. exact Hx.
    + destruct (promptLoop validate xs) as [[r rest'] evs'].
      intros E. injection E as -> _ _. eapply IH. reflexivity.
Qed.

End PromptFacts.


Lemma nth_updateNth_other {A} (f : A -> A) (d : A) (l : list A) (i j : nat) :
  i <> j -> nth j (updateNth i f l) d = nth j l d.
Proof.
  revert i j. induction l as [|x l IH]; intros [|i] [|j] H; simpl;
    try reflexivity; try lia. apply IH. lia.
Qed.

Lemma length_updateNth {A} (f : A -> A) (l : list A) (i : nat) :
  length (updateNth i f l) = length l.
Proof.
  revert i. induction l as [|x l IH]; intros [|i]; simpl; auto.
Qed.

Section ApplierFacts.

Variable gitNode :
  list Event -> string -> list string -> option string -> Result string.

Lemma applyPatch_clean (st : State) (patch : nat) (method out : string) :
  gitNode (trace st) method applyArgs
          (Some (data (nth patch (patches (ctx st)) undefinedPatch))) = Ok out ->
  applyPatch gitNode patch method st =
  (Ok None,
   emit (EGitNode method applyArgs
           (Some (data (nth patch (patches (ctx st)) undefinedPatch)))) st).
Proof.
  intros H. unfold applyPatch, tryCatch, bind, getPatch, execGitNode.
  cbn. unfold applyArgs in H. now rewrite H.
Qed.

Lemma applyPatch_failed (st : State) (patch : nat) (method : string)
    (e : Err) :
  gitNode (trace st) method applyArgs
          (Some (data (nth patch (patches (ctx st)) undefinedPatch))) = Throw e ->
  applyPatch gitNode patch method st =
  let '(r, unread, evs) := promptLoop validateResolved (typed st) in
  (match r with Some answer => Ok (Some answer) | None => Blocked end,
   mkState
     (setPatches (updateNth patch markConflict (patches (ctx st))) (ctx st))
     (files st) (confirms st) unread
     (trace st ++
      [EGitNode method applyArgs
         (Some (data (nth patch (patches (ctx st)) undefinedPatch)))] ++ evs)).
Proof.
  intros H. unfold applyPatch, tryCatch, bind, getPatch, execGitNode.
  cbn. unfold applyArgs in H. rewrite H.
  unfold prompt, setHadConflicts. cbn.
  destruct (promptLoop validateResolved (typed st)) as [[r unread] evs].
  rewrite <- app_assoc. destruct r; reflexivity.
Qed.

Lemma applyPatch_acknowledged (st : State) (patch : nat) (method : string)
    (e : Err) (rejected : list string) (tok : string) (rest : list string) :
  gitNode (trace st) method applyArgs
          (Some (data (nth patch (patches (ctx st)) undefinedPatch))) = Throw e ->
  typed st = rejected ++ tok :: rest ->
  Forall (fun v => validateResolved v = false) rejected ->
  validateResolved tok = true ->
  applyPatch gitNode patch method st =
  (Ok (Some tok), afterConflict st patch method rest (rejected ++ [tok])).
Proof.
  intros H Ht Hrej Htok. rewrite (applyPatch_failed st patch method e H).
  rewrite Ht, (promptLoop_accepts _ rejected tok rest Hrej Htok).
  unfold afterConflict. now rewrite map_app.
Qed.


End ApplierFacts.

Section ApplierClaims.

Variable gitNode :
  list Event -> string -> list string -> option string -> Result string.

Lemma newListr_cons (t : Task) (rest : list Task) (st : State) :
  newListr (t :: rest) st =
  match task t (emit (EStart (title t)) st) with
  | (Ok _, st') => newListr rest st'
  | (Throw e, st') => (Throw e, st')
  | (Blocked, st') => (Blocked, st')
  end.
Proof.
  cbn [newListr]. unfold bind, log.
  destruct (task t (emit (EStart (title t)) st)) as [[[]|e|] st'];
    reflexivity.
Qed.



End ApplierClaims.

(** C10: whatever error the apply command throws, [applyPatch] does not
    throw: the error is dropped, the outcome is the same for any two
    errors, and once the operator has entered the token the function
    returns and the task list goes on with the step after the apply. *)
Theorem applyPatch_swallows_every_error :
  forall (gitNode gitNode' :
            list Event -> string -> list string -> option string ->
            Result string)
         (st : State) (patch : nat) (method : string) (e e' : Err),
    gitNode (trace st) method applyArgs (Some (data (patchAt st patch)))
      = Throw e ->
    gitNode' (trace st) method applyArgs (Some (data (patchAt st patch)))
      = Throw e' ->
    (forall thrown, fst (applyPatch gitNode patch method st) <> Throw thrown)
    /\ applyPatch gitNode patch method st = applyPatch gitNode' patch method st
    /\ (forall rejected tok rest,
          typed st = rejected ++ tok :: rest ->
          Forall (fun v => validateResolved v = false) rejected ->
          validateResolved tok = true ->
          applyPatch gitNode patch method st =
            (Ok (Some tok),
             afterConflict st patch method rest (rejected ++ [tok]))
          /\ forall (st0 : State) (name : string) (next : list Task),
               st = emit (EStart name) st0 ->
               newListr (mkTask name (discard (applyPatch gitNode patch method))
                           :: next) st0 =
               newListr next
                 (afterConflict st patch method rest (rejected ++ [tok]))).
Proof.
  intros gitNode gitNode' st patch method e e' H H'. split; [|split].
  - intros thrown. rewrite (applyPatch_failed gitNode st patch method e H).
    destruct (promptLoop validateResolved (typed st)) as [[[v|] unread] evs];
      discriminate.
  - rewrite (applyPatch_failed gitNode st patch method e H).
    now rewrite (applyPatch_failed gitNode' st patch method e' H').
  - intros rejected tok rest Ht Hrej Htok.
    pose proof (applyPatch_acknowledged gitNode st patch method e rejected
                  tok rest H Ht Hrej Htok) as Hack.
    split; [exact Hack|].
    intros st0 name next Hst. rewrite newListr_cons. cbn [task title].
    unfold discard, bind. rewrite <- Hst, Hack. reflexivity.
Qed.

(** ** The pre-flight check *)

Section PreflightFacts.

Variable shortSha : string -> string.
Variable getCurrentV8Version : Task.
Variable gitV8 : list string -> Result string.
Variable gitNode :
  list Event -> string -> list string -> option string -> Result string.
Variable gitConfig : list Event -> string -> Result string.
Variable schedRevParse : list nat.
Variable schedFetch : list nat.
Variable schedPair : nat -> list nat.

Local Abbreviation theBackport :=
  (backport shortSha getCurrentV8Version gitV8 gitNode gitConfig
            schedRevParse schedFetch schedPair).
Local Abbreviation theTask :=
  (doBackport shortSha getCurrentV8Version gitV8 gitNode gitConfig
              schedRevParse schedFetch schedPair).

Lemma checkOptions_asks (options : Options) (st : State) (answer : bool)
    (rest : list bool) :
  1 < length (opt_sha options) -> squash options = true ->
  confirms st = answer :: rest ->
  checkOptions options st =
  (Ok (if answer then None else Some true), afterConfirm st answer rest).
Proof.
  intros Hlen Hsq Hc. unfold checkOptions.
  apply Nat.ltb_lt in Hlen. rewrite Hlen, Hsq. cbn.
  unfold bind, confirm. rewrite Hc. destruct answer; reflexivity.
Qed.

Lemma checkOptions_silent (options : Options) (st : State) :
  length (opt_sha options) <= 1 \/ squash options = false ->
  checkOptions options st = (Ok None, st).
Proof.
  intros H. unfold checkOptions.
  destruct H as [H|H].
  - apply Nat.ltb_ge in H. now rewrite H.
  - rewrite H. now rewrite andb_false_r.
Qed.

(** C9: with more than one SHA and squash the operator is asked; when they
    decline, [checkOptions] returns [true] and the run ends there: nothing
    but the answer is on the trace (no fetch from upstream, no command or
    write in the repository) and the context and the files are as before;
    when they accept, and when squash is off or at most one SHA is given
    (nothing is asked then), [checkOptions] returns no cancellation and the
    backport task runs. *)
Theorem checkOptions_preflight :
  forall (options : Options) (st : State),
    (1 < length (opt_sha options) -> squash options = true ->
     forall rest,
       (confirms st = false :: rest ->
        checkOptions options st = (Ok (Some true), afterConfirm st false rest)
        /\ theBackport options st = (Ok tt, afterConfirm st false rest)
        /\ existsb (fun e => isFetch e || isMutation e)
                   (trace (afterConfirm st false rest)) =
           existsb (fun e => isFetch e || isMutation e) (trace st))
       /\ (confirms st = true :: rest ->
           checkOptions options st = (Ok None, afterConfirm st true rest)
           /\ theBackport options st =
              newListr [theTask options] (afterConfirm st true rest)))
    /\ (length (opt_sha options) <= 1 \/ squash options = false ->
        checkOptions options st = (Ok None, st)
        /\ theBackport options st = newListr [theTask options] st).
Proof.
  intros options st. split.
  - intros Hlen Hsq rest. split; intros Hc.
    + pose proof (checkOptions_asks options st false rest Hlen Hsq Hc) as E.
      split; [exact E|]. split.
      * unfold theBackport, backport, bind. now rewrite E.
      * cbn [afterConfirm trace]. rewrite existsb_app. cbn.
        now rewrite orb_false_r.
    + pose proof (checkOptions_asks options st true rest Hlen Hsq Hc) as E.
      split; [exact E|].
      unfold theBackport, backport, bind. now rewrite E.
  - intros H. pose proof (checkOptions_silent options st H) as E.
    split; [exact E|].
    unfold theBackport, backport, bind. now rewrite E.
Qed.

End PreflightFacts.

(** ** The version metadata editor *)

Lemma stripPrefix_sound (p s r : string) :
  stripPrefix p s = Some r -> s = p +:+ r.
Proof.
  revert s. induction p as [|a p IH]; intros s; simpl.
  - now intros [= ->].
  - destruct s as [|b s]; [discriminate|].
    destruct (Ascii.eqb a b) eqn:E; [|discriminate].
    apply Ascii.eqb_eq in E as ->. intros H. now rewrite (IH s H).
Qed.

Lemma spanDigits_sound (s d r : string) :
  spanDigits s = (d, r) ->
  s = d +:+ r /\ allDigits d = true /\ startsWithDigit r = false.
Proof.
  revert d r. induction s as [|c s IH]; intros d r; simpl.
  - intros [= <- <-]. auto.
  - destruct (isDigit c) eqn:E.
    + destruct (spanDigits s) as [d' r'] eqn:Es. intros [= <- <-].
      destruct (IH d' r' eq_refl) as (-> & Hd & Hr).
      simpl. rewrite E. auto.
    + intros [= <- <-]. simpl. auto.
Qed.

Section SearchFacts.

Variable matchAt : string -> option (string * string).

(** A match found by [search] is a match of the pattern at the end of the
    text before it. *)
Lemma search_sound (s pre g post : string) :
  search matchAt s = Some (pre, g, post) ->
  exists matched, s = pre +:+ matched /\ matchAt matched = Some (g, post).
Proof.
  revert pre. induction s as [|c s IH]; intros pre; simpl.
  - destruct (matchAt "") as [[g' post']|] eqn:E; [|discriminate].
    intros [= <- <- <-]. exists "". auto.
  - destruct (matchAt (String c s)) as [[g' post']|] eqn:E.
    + intros [= <- <- <-]. exists (String c s). auto.
    + destruct (search matchAt s) as [[[pre' g'] post']|]; [|discriminate].
      intros [= <- <- <-]. destruct (IH pre' eq_refl) as (m & -> & Hm).
      exists m. auto.
Qed.

(** It is the first one: the pattern matches at no earlier position. *)
Lemma search_leftmost (s pre g post : string) :
  search matchAt s = Some (pre, g, post) ->
  forall a b rest, pre = a +:+ b -> b <> "" -> s = a +:+ rest ->
                   matchAt rest = None.
Proof.
  revert pre. induction s as [|c s IH]; intros pre; simpl.
  - destruct (matchAt "") as [[g' post']|] eqn:E; [|discriminate].
    intros [= <- <- <-] a b rest Hab Hb _.
    destruct a; simpl in Hab; [congruence|discriminate].
  - destruct (matchAt (String c s)) as [[g' post']|] eqn:E.
    + intros [= <- <- <-] a b rest Hab Hb _.
      destruct a; simpl in Hab; [congruence|discriminate].
    + destruct (search matchAt s) as [[[pre' g'] post']|] eqn:Es;
        [|discriminate].
      intros [= <- <- <-] a b rest Hab Hb Hs.
      destruct a as [|c' a]; simpl in Hab, Hs.
      * now subst rest.
      * injection Hab as _ Hab. injection Hs as _ Hs.
        exact (IH pre' eq_refl a b rest Hab Hb Hs).
Qed.

Lemma search_none (s : string) :
  search matchAt s = None -> matchAt s = None.
Proof.
  destruct s; simpl; destruct (matchAt _) as [[? ?]|]; congruence.
Qed.

End SearchFacts.

Lemma patchLevelAt_sound (s ds post : string) :
  patchLevelAt s = Some (ds, post) ->
  s = "V8_PATCH_LEVEL " +:+ ds +:+ post
  /\ allDigits ds = true /\ ds <> "" /\ startsWithDigit post = false.
Proof.
  unfold patchLevelAt.
  destruct (stripPrefix "V8_PATCH_LEVEL " s) as [r|] eqn:E; [|discriminate].
  destruct (spanDigits r) as [d p] eqn:Es.
  destruct (isEmpty d) eqn:Ed; [discriminate|]. intros [= <- <-].
  apply stripPrefix_sound in E. apply spanDigits_sound in Es.
  destruct Es as (-> & Hd & Hp). repeat split; auto.
  intros ->. discriminate.
Qed.

Lemma embedderAt_sound (s ds post : string) :
  embedderAt s = Some (ds, post) ->
  s = embedderKey +:+ ds +:+ "'" +:+ post
  /\ allDigits ds = true /\ ds <> "".
Proof.
  unfold embedderAt.
  destruct (stripPrefix embedderKey s) as [r|] eqn:E; [|discriminate].
  destruct (spanDigits r) as [d r'] eqn:Es.
  destruct (isEmpty d) eqn:Ed; [discriminate|].
  destruct (stripPrefix "'" r') as [p|] eqn:Eq; [|discriminate].
  intros [= <- <-].
  apply stripPrefix_sound in E, Eq. apply spanDigits_sound in Es.
  destruct Es as (-> & Hd & _). subst r'. repeat split; auto.
  intros ->. discriminate.
Qed.

(** *** Decimal numerals *)

Lemma parseDigits_string_of_uint (u : Decimal.uint) (acc : N) :
  parseDigits acc (NilEmpty.string_of_uint u) = uintVal acc u.
Proof.
  revert acc. induction u; intros acc; simpl; try reflexivity; apply IHu.
Qed.

Lemma uintVal_pos (u : Decimal.uint) (acc : positive) :
  uintVal (Npos acc) u = Npos (Pos.of_uint_acc u acc).
Proof.
  revert acc. induction u; intros acc; cbn [uintVal Pos.of_uint_acc];
    try reflexivity; rewrite <- IHu; f_equal;
    change (10 * N.pos acc)%N with (N.pos (10 * acc));
    cbn [N.add]; f_equal; apply Pos.add_comm.
Qed.

Lemma uintVal_of_uint (u : Decimal.uint) : uintVal 0 u = N.of_uint u.
Proof.
  unfold N.of_uint.
  induction u; simpl; try reflexivity; try exact IHu; apply uintVal_pos.
Qed.

(** Reading back the numeral of [n] gives [n]. *)
Lemma parseInt10_ofN (n : N) : parseInt10 (ofN n) = n.
Proof.
  unfold parseInt10, ofN.
  rewrite parseDigits_string_of_uint, uintVal_of_uint.
  apply DecimalN.Unsigned.of_to.
Qed.

Lemma string_of_uint_digits (u : Decimal.uint) :
  allDigits (NilEmpty.string_of_uint u) = true.
Proof. induction u; simpl; auto. Qed.

Lemma hasNewline_app (s t : string) :
  hasNewline (s +:+ t) = hasNewline s || hasNewline t.
Proof.
  induction s as [|c s IH]; simpl; [reflexivity|].
  rewrite IH. now rewrite orb_assoc.
Qed.

Lemma digit_not_newline (c : ascii) :
  isDigit c = true -> Ascii.eqb c LF = false.
Proof.
  intros H. destruct (Ascii.eqb c LF) eqn:E; [|reflexivity].
  apply Ascii.eqb_eq in E. subst c. discriminate H.
Qed.

Lemma allDigits_no_newline (s : string) :
  allDigits s = true -> hasNewline s = false.
Proof.
  induction s as [|c s IH]; simpl; [reflexivity|].
  intros H. apply andb_prop in H as [Hc Hs].
  now rewrite (digit_not_newline c Hc), (IH Hs).
Qed.

(** *** Lines of a file around a replaced piece *)

Lemma lines_inline (mid post : string) :
  hasNewline mid = false ->
  lines (mid +:+ post) =
  (mid +:+ hd "" (lines post)) :: tl (lines post).
Proof.
  induction mid as [|c mid IH]; simpl; intros H.
  - pose proof (lines_nonempty post). now destruct (lines post).
  - apply orb_false_elim in H as [Hc Hm]. rewrite Hc, (IH Hm). reflexivity.
Qed.

(** The lines of a text in which a piece without line feed sits between
    [pre] and [post]: the lines of [pre] but the last, the line the piece is
    on, and the lines of [post] but the first. *)
Lemma lines_splice (pre mid post : string) :
  hasNewline mid = false ->
  lines (pre +:+ mid +:+ post) =
  removelast (lines pre) ++
  (last (lines pre) "" +:+ mid +:+ hd "" (lines post)) :: tl (lines post).
Proof.
  intros Hmid. induction pre as [|c pre IH].
  - simpl. now apply lines_inline.
  - cbn [String.append lines]. rewrite IH.
    pose proof (lines_nonempty pre) as Hne.
    destruct (Ascii.eqb c LF).
    + destruct (lines pre) as [|l ls]; [contradiction|]. reflexivity.
    + destruct (lines pre) as [|l [|l' ls]]; [contradiction| |]; reflexivity.
Qed.

(** Replacing a piece without line feed by another one changes the line it
    is on and no other. *)
Lemma lines_replace_inline (pre mid mid' post : string) :
  hasNewline mid = false -> hasNewline mid' = false ->
  exists before after line line',
    lines (pre +:+ mid +:+ post) = before ++ line :: after
    /\ lines (pre +:+ mid' +:+ post) = before ++ line' :: after.
Proof.
  intros H H'. rewrite (lines_splice pre mid post H).
  rewrite (lines_splice pre mid' post H').
  do 4 eexists. split; reflexivity.
Qed.

Section BumpFacts.

Variable gitNode :
  list Event -> string -> list string -> option string -> Result string.

Lemma replaceFirst_found matchAt (replacement s pre g post : string) :
  search matchAt s = Some (pre, g, post) ->
  replaceFirst matchAt replacement s = pre +:+ replacement +:+ post.
Proof. unfold replaceFirst. now intros ->. Qed.

Lemma replaceFirst_absent matchAt (replacement s : string) :
  search matchAt s = None -> replaceFirst matchAt replacement s = s.
Proof. unfold replaceFirst. now intros ->. Qed.

Lemma incrementV8Version_run (st : State) (versionH : string) :
  lookupFile (v8VersionPath (ctx st)) (files st) = Some versionH ->
  task incrementV8Version st =
  (Ok tt,
   afterPatchLevelBump st
     (replaceFirst patchLevelAt
        ("V8_PATCH_LEVEL " +:+ ofN (currentVersion_patch (ctx st) + 1))
        versionH)).
Proof.
  intros H. unfold incrementV8Version, afterPatchLevelBump.
  cbn [task]. unfold bind, getCtx, modifyCtx, readFile, writeFile. cbn.
  change (nodeDir (ctx st) +:+ "/deps/v8/include/v8-version.h")
    with (v8VersionPath (ctx st)).
  rewrite H. cbn. rewrite <- app_assoc. reflexivity.
Qed.

Lemma incrementEmbedderVersion_found (st : State)
    (commonGypi pre ds post out : string) :
  lookupFile (commonGypiPath (ctx st)) (files st) = Some commonGypi ->
  search embedderAt commonGypi = Some (pre, ds, post) ->
  gitNode (gypiRewritten st (bumpedGypi pre (parseInt10 ds + 1) post))
          "add" ["common.gypi"] None = Ok out ->
  task (incrementEmbedderVersion gitNode) st =
  (Ok tt, afterEmbedderBump st (bumpedGypi pre (parseInt10 ds + 1) post)).
Proof.
  intros Hf Hs Hadd.
  assert (E : replaceFirst embedderAt
                (embedderKey +:+ ofN (parseInt10 ds + 1) +:+ "'") commonGypi
              = bumpedGypi pre (parseInt10 ds + 1) post).
  { rewrite (replaceFirst_found embedderAt _ commonGypi pre ds post Hs).
    unfold bumpedGypi. now rewrite !append_assoc. }
  unfold incrementEmbedderVersion, afterEmbedderBump.
  cbn [task]. unfold bind at 1 2. unfold getCtx, readFile.
  cbn -[String.append embedderKey ofN parseInt10 replaceFirst search].
  change (pathJoin (nodeDir (ctx st)) "common.gypi")
    with (commonGypiPath (ctx st)).
  rewrite Hf, Hs, E. unfold bind, writeFile, execGitNode.
  cbn -[String.append embedderKey ofN parseInt10 replaceFirst search].
  unfold gypiRewritten in Hadd |- *.
  rewrite <- !app_assoc. cbn [app]. cbn [app] in Hadd.
  rewrite Hadd. unfold ret, emit. cbn [ctx files confirms typed trace].
  rewrite <- !app_assoc. reflexivity.
Qed.

Lemma incrementEmbedderVersion_absent (st : State) (commonGypi : string) :
  lookupFile (commonGypiPath (ctx st)) (files st) = Some commonGypi ->
  search embedderAt commonGypi = None ->
  task (incrementEmbedderVersion gitNode) st =
  (Throw (TypeError "Cannot read properties of null (reading '1')"),
   emit (ERead (commonGypiPath (ctx st))) st).
Proof.
  intros Hf Hs. unfold incrementEmbedderVersion.
  cbn [task]. unfold bind, getCtx, readFile.
  cbn -[String.append embedderKey ofN parseInt10 replaceFirst search].
  change (pathJoin (nodeDir (ctx st)) "common.gypi")
    with (commonGypiPath (ctx st)).
  now rewrite Hf, Hs.
Qed.

(** Without the pattern in the version header the patch-level bump writes
    the file back as it read it and ends normally. *)
Lemma incrementV8Version_absent (st : State) (versionH : string) :
  lookupFile (v8VersionPath (ctx st)) (files st) = Some versionH ->
  search patchLevelAt versionH = None ->
  task incrementV8Version st = (Ok tt, afterPatchLevelBump st versionH).
Proof.
  intros Hf Hs. rewrite (incrementV8Version_run st versionH Hf).
  now rewrite (replaceFirst_absent _ _ _ Hs).
Qed.

End BumpFacts.

(** The patch-level bump of a header that has the pattern. *)
Lemma patch_level_bump_rewrites
    (st : State) (versionH pre ds post : string) :
  lookupFile (v8VersionPath (ctx st)) (files st) = Some versionH ->
  search patchLevelAt versionH = Some (pre, ds, post) ->
  let level := (currentVersion_patch (ctx st) + 1)%N in
  versionH = pre +:+ "V8_PATCH_LEVEL " +:+ ds +:+ post
  /\ allDigits ds = true
  /\ task incrementV8Version st =
     (Ok tt, afterPatchLevelBump st (bumpedVersionH pre level post))
  /\ (exists before after line line',
        lines versionH = before ++ line :: after
        /\ lines (bumpedVersionH pre level post) = before ++ line' :: after)
  /\ filter isGitNode
       (trace (afterPatchLevelBump st (bumpedVersionH pre level post))) =
     filter isGitNode (trace st).
Proof.
  intros Hf Hs level.
  destruct (search_sound _ _ _ _ _ Hs) as (m & Hm & Hat).
  destruct (patchLevelAt_sound _ _ _ Hat) as (-> & Hds & _ & _).
  split; [exact Hm|]. split; [exact Hds|]. split; [|split].
  - rewrite (incrementV8Version_run st versionH Hf).
    now rewrite (replaceFirst_found _ _ _ _ _ _ Hs).
  - rewrite Hm. unfold bumpedVersionH.
    rewrite <- !(append_assoc "V8_PATCH_LEVEL ").
    apply lines_replace_inline.
    + rewrite hasNewline_app, (allDigits_no_newline ds Hds). reflexivity.
    + rewrite hasNewline_app.
      rewrite (allDigits_no_newline (ofN level)
                 (string_of_uint_digits _)). reflexivity.
  - cbn [afterPatchLevelBump trace]. rewrite filter_app. cbn.
    now rewrite app_nil_r.
Qed.

(** The embedder bump of a build configuration that has the pattern. *)
Lemma embedder_bump_rewrites
    (gitNode :
       list Event -> string -> list string -> option string -> Result string)
    (st : State) (commonGypi pre ds post out : string) :
  lookupFile (commonGypiPath (ctx st)) (files st) = Some commonGypi ->
  search embedderAt commonGypi = Some (pre, ds, post) ->
  gitNode (gypiRewritten st (bumpedGypi pre (parseInt10 ds + 1) post))
          "add" ["common.gypi"] None = Ok out ->
  commonGypi = pre +:+ embedderKey +:+ ds +:+ "'" +:+ post
  /\ allDigits ds = true
  /\ (forall n, ds = ofN n -> parseInt10 ds = n)
  /\ task (incrementEmbedderVersion gitNode) st =
     (Ok tt, afterEmbedderBump st (bumpedGypi pre (parseInt10 ds + 1) post)).
Proof.
  intros Hf Hs Hadd.
  destruct (search_sound _ _ _ _ _ Hs) as (m & Hm & Hat).
  destruct (embedderAt_sound _ _ _ Hat) as (-> & Hds & _).
  split; [exact Hm|]. split; [exact Hds|]. split.
  - intros n ->. apply parseInt10_ofN.
  - now apply incrementEmbedderVersion_found with (commonGypi := commonGypi)
                                                   (out := out).
Qed.

(** C7: with the pattern in the version header, one patch-level bump
    increments the counter of the context and writes the header back with
    the new counter in place of the digits of the first [V8_PATCH_LEVEL];
    only the line of the pattern changes, and the task reads and writes the
    file and runs no git command.  With the pattern in the build
    configuration, one embedder bump writes it back with [<N+1>] in place of
    [<N>], the text around the pattern being the same, and then stages
    [common.gypi].  The counters are safe integers. *)
Theorem version_bump_rewrites :
  (forall (st : State) (versionH pre ds post : string),
     lookupFile (v8VersionPath (ctx st)) (files st) = Some versionH ->
     search patchLevelAt versionH = Some (pre, ds, post) ->
     (currentVersion_patch (ctx st) + 1 <= 2 ^ 53)%N ->
     let level := (currentVersion_patch (ctx st) + 1)%N in
     versionH = pre +:+ "V8_PATCH_LEVEL " +:+ ds +:+ post
     /\ allDigits ds = true
     /\ task incrementV8Version st =
        (Ok tt, afterPatchLevelBump st (bumpedVersionH pre level post))
     /\ (exists before after line line',
           lines versionH = before ++ line :: after
           /\ lines (bumpedVersionH pre level post) =
              before ++ line' :: after)
     /\ filter isGitNode
          (trace (afterPatchLevelBump st (bumpedVersionH pre level post))) =
        filter isGitNode (trace st))
  /\ (forall (gitNode :
                list Event -> string -> list string -> option string ->
                Result string)
             (st : State) (commonGypi pre ds post out : string),
        lookupFile (commonGypiPath (ctx st)) (files st) = Some commonGypi ->
        search embedderAt commonGypi = Some (pre, ds, post) ->
        (parseInt10 ds + 1 <= 2 ^ 53)%N ->
        gitNode (gypiRewritten st (bumpedGypi pre (parseInt10 ds + 1) post))
                "add" ["common.gypi"] None = Ok out ->
        commonGypi = pre +:+ embedderKey +:+ ds +:+ "'" +:+ post
        /\ allDigits ds = true
        /\ (forall n, ds = ofN n -> parseInt10 ds = n)
        /\ task (incrementEmbedderVersion gitNode) st =
           (Ok tt,
            afterEmbedderBump st (bumpedGypi pre (parseInt10 ds + 1) post))).
Proof.
  split.
  - intros st versionH pre ds post Hf Hs _.
    exact (patch_level_bump_rewrites st versionH pre ds post Hf Hs).
  - intros gitNode st commonGypi pre ds post out Hf Hs _ Hadd.
    exact (embedder_bump_rewrites gitNode st commonGypi pre ds post out
             Hf Hs Hadd).
Qed.

(** C8, as the code has it: a version header without [V8_PATCH_LEVEL
    <digits>] is written back unchanged and the patch-level bump ends
    normally, with the counter of the context incremented; a build
    configuration without the embedder pattern makes the embedder bump
    throw a [TypeError] before it writes anything. *)
Theorem patch_level_bump_ignores_missing_pattern :
  search patchLevelAt Demo.versionHOther = None
  /\ task incrementV8Version Demo.stateOther =
     (Ok tt, afterPatchLevelBump Demo.stateOther Demo.versionHOther)
  /\ lookupFile "/node/deps/v8/include/v8-version.h"
       (files (snd (task incrementV8Version Demo.stateOther))) =
     Some Demo.versionHOther
  /\ currentVersion_patch
       (ctx (snd (task incrementV8Version Demo.stateOther))) = 13%N
  /\ search embedderAt Demo.commonGypiOther = None
  /\ task (incrementEmbedderVersion Demo.gitNodeClean) Demo.stateOther =
     (Throw (TypeError "Cannot read properties of null (reading '1')"),
      emit (ERead "/node/common.gypi") Demo.stateOther).
Proof. repeat split; vm_compute; reflexivity. Qed.

(** ** Promise.all *)

Lemma length_setNth {A} (i : nat) (v : A) (l : list A) :
  length (setNth i v l) = length l.
Proof. revert i. induction l; intros [|i]; simpl; auto. Qed.

Lemma nth_error_setNth_other {A} (i j : nat) (v : A) (l : list A) :
  i <> j -> nth_error (setNth i v l) j = nth_error l j.
Proof.
  revert i j. induction l as [|x l IH]; intros [|i] [|j] H; simpl;
    try reflexivity; try lia. apply IH. lia.
Qed.

Lemma nth_error_setNth_same {A} (i : nat) (v : A) (l : list A) :
  i < length l -> nth_error (setNth i v l) i = Some v.
Proof.
  revert i. induction l as [|x l IH]; intros [|i] H; simpl in *;
    try lia; [reflexivity|]. apply IH. lia.
Qed.

Section PromiseAllFacts.

Context {A : Type}.

Lemma countNone_setNth (i : nat) (v : A) (values : list (option A)) :
  nth_error values i = Some None ->
  S (countNone (setNth i (Some v) values)) = countNone values.
Proof.
  revert i. induction values as [|[x|] vs IH]; intros [|i]; simpl;
    try discriminate; try reflexivity; intros H.
  - now apply IH.
  - f_equal. now apply IH.
Qed.

Lemma countNone_pos (values : list (option A)) :
  0 < countNone values -> exists i, nth_error values i = Some None.
Proof.
  induction values as [|[x|] vs IH]; simpl; intros H.
  - lia.
  - destruct (IH H) as [i Hi]. now exists (S i).
  - now exists 0.
Qed.

Lemma slotFor_setNth (i : nat) (v : A) (values : list (option A))
    (vs : list A) :
  Forall2 slotFor values vs -> nth_error vs i = Some v ->
  Forall2 slotFor (setNth i (Some v) values) vs.
Proof.
  intros H. revert i. induction H as [|s x ss xs Hs Hss IH]; intros [|i];
    simpl; try discriminate.
  - intros [= ->]. constructor; [now right|assumption].
  - intros Hi. constructor; [assumption|now apply IH].
Qed.

Lemma filled_complete (values : list (option A)) (vs : list A) :
  Forall2 slotFor values vs -> countNone values = 0 -> filled values = vs.
Proof.
  intros H. induction H as [|s x ss xs [->| ->] _ IH]; simpl;
    [reflexivity|discriminate|].
  intros Hc. now rewrite (IH Hc).
Qed.

(** While empty slots remain and the schedule lists exactly their indices,
    each once, the fulfilments fill the slots and the last one resolves
    with the values in the order of the promises. *)
Lemma promiseAllFrom_fulfilled (vs : list A) :
  forall (sched : list nat) (values : list (option A)) (remaining : nat),
    Forall2 slotFor values vs ->
    remaining = countNone values -> 0 < remaining ->
    NoDup sched ->
    (forall i, In i sched <-> nth_error values i = Some None) ->
    promiseAllFrom sched (map Ok vs) values remaining = Ok vs.
Proof.
  induction sched as [|i sched IH];
    intros values remaining Hslots Hrem Hpos Hnd Hin.
  - exfalso. rewrite Hrem in Hpos.
    destruct (countNone_pos values Hpos) as [i Hi].
    apply Hin in Hi. destruct Hi.
  - assert (Hi : nth_error values i = Some None) by (apply Hin; now left).
    assert (Hlt : i < length values)
      by (apply nth_error_Some; congruence).
    pose proof (Forall2_length Hslots) as Hlen.
    destruct (nth_error vs i) as [v|] eqn:Hv;
      [|apply nth_error_None in Hv; lia].
    cbn [promiseAllFrom].
    rewrite (map_nth_error Ok i vs Hv), Hi.
    pose proof (countNone_setNth i v values Hi) as Hcount.
    pose proof (slotFor_setNth i v values vs Hslots Hv) as Hslots'.
    destruct (remaining =? 1) eqn:E1.
    + apply Nat.eqb_eq in E1. f_equal.
      apply filled_complete; [assumption|lia].
    + apply Nat.eqb_neq in E1. apply IH.
      * assumption.
      * lia.
      * lia.
      * now inversion Hnd.
      * intros j. inversion Hnd as [|? ? Hni Hnd']; subst. split.
        -- intros Hj. rewrite nth_error_setNth_other by congruence.
           apply Hin. now right.
        -- intros Hj. destruct (Nat.eq_dec i j) as [<-|Hne].
           ++ rewrite nth_error_setNth_same in Hj by assumption.
              discriminate.
           ++ rewrite nth_error_setNth_other in Hj by assumption.
              apply Hin in Hj. destruct Hj; [contradiction|assumption].
Qed.

Lemma nth_error_repeat_None (n i : nat) :
  nth_error (repeat (@None A) n) i = Some None <-> i < n.
Proof.
  revert i. induction n as [|n IH]; intros [|i]; simpl.
  - split; [discriminate|lia].
  - split; [discriminate|lia].
  - split; [lia|reflexivity].
  - rewrite IH. lia.
Qed.

Lemma countNone_repeat (n : nat) : countNone (repeat (@None A) n) = n.
Proof. induction n; simpl; auto. Qed.

Lemma slotFor_repeat (vs : list A) :
  Forall2 slotFor (repeat None (length vs)) vs.
Proof. induction vs; simpl; constructor; [now left|assumption]. Qed.

(** Whatever the order in which fulfilled promises settle, [Promise.all]
    resolves with their values in the order of the promises. *)
Lemma promiseAll_fulfilled (sched : list nat) (vs : list A) :
  Permutation sched (seq 0 (length vs)) ->
  promiseAll sched (map Ok vs) = Ok vs.
Proof.
  intros Hperm. unfold promiseAll.
  destruct vs as [|v vs]; [reflexivity|].
  change (match map Ok (v :: vs) with
          | [] => Ok []
          | _ :: _ =>
              promiseAllFrom sched (map Ok (v :: vs))
                (repeat None (length (map Ok (v :: vs))))
                (length (map Ok (v :: vs)))
          end)
    with (promiseAllFrom sched (map Ok (v :: vs))
            (repeat None (length (map (@Ok A) (v :: vs))))
            (length (map (@Ok A) (v :: vs)))).
  rewrite length_map. apply promiseAllFrom_fulfilled.
  - apply slotFor_repeat.
  - now rewrite countNone_repeat.
  - simpl. lia.
  - apply (Permutation_NoDup (Permutation_sym Hperm)), seq_NoDup.
  - intros i. rewrite nth_error_repeat_None. split.
    + intros Hi. apply (Permutation_in _ Hperm), in_seq in Hi. lia.
    + intros Hi. apply (Permutation_in _ (Permutation_sym Hperm)), in_seq.
      lia.
Qed.

End PromiseAllFacts.

(** ** The patch generator *)

Lemma trimEnd_line (s : string) :
  hasSpace s = false -> trimEnd (s +:+ nl) = s.
Proof.
  induction s as [|c s IH]; simpl; [reflexivity|].
  intros H. apply orb_false_elim in H as [Hc Hs].
  rewrite (IH Hs), Hc. now destruct s.
Qed.

(** The line git prints for an object name, trimmed, is the name. *)
Lemma trim_line (s : string) : hasSpace s = false -> trim (s +:+ nl) = s.
Proof.
  intros H. unfold trim. destruct s as [|c s]; [reflexivity|].
  pose proof H as H'. simpl in H'. apply orb_false_elim in H' as [Hc _].
  cbn [String.append trimStart]. rewrite Hc.
  exact (trimEnd_line (String c s) H).
Qed.

Lemma logAll_run (es : list Event) (st : State) :
  logAll es st =
  (Ok tt,
   mkState (ctx st) (files st) (confirms st) (typed st) (trace st ++ es)).
Proof.
  revert st. induction es as [|e es IH]; intros st.
  - cbn. rewrite app_nil_r. now destruct st.
  - cbn [logAll]. unfold bind, log. rewrite IH. cbn.
    now rewrite <- app_assoc.
Qed.

Section GeneratorFacts.

Variable gitV8 : list string -> Result string.
Variable schedRevParse : list nat.
Variable schedFetch : list nat.
Variable schedPair : nat -> list nat.

Hypothesis pair_settles : forall i, Permutation (schedPair i) [0; 1].

Lemma fetchPatch_fulfilled (i : nat) (sha diff msg : string) :
  gitV8 ["format-patch"; "--stdout"; sha +:+ "^.." +:+ sha] = Ok diff ->
  gitV8 ["log"; "--format=%B"; "-n"; "1"; sha] = Ok msg ->
  fetchPatch gitV8 schedPair i sha = Ok (mkPatch sha diff msg false).
Proof.
  intros Hd Hm. unfold fetchPatch, fetchArgs. cbn [map].
  rewrite Hd, Hm. change [Ok diff; Ok msg] with (map Ok [diff; msg]).
  rewrite promiseAll_fulfilled by apply pair_settles. reflexivity.
Qed.

Lemma mapi_fetchPatch (full diff msg : string -> string)
    (refs : list string) (k : nat) :
  (forall ref, In ref refs ->
     gitV8 ["format-patch"; "--stdout";
            trim (full ref) +:+ "^.." +:+ trim (full ref)] = Ok (diff ref)
     /\ gitV8 ["log"; "--format=%B"; "-n"; "1"; trim (full ref)] =
        Ok (msg ref)) ->
  mapi (fetchPatch gitV8 schedPair) k
       (map (fun ref => trim (full ref)) refs) =
  map Ok (map (patchRecord full diff msg) refs).
Proof.
  revert k. induction refs as [|ref refs IH]; intros k H; [reflexivity|].
  cbn [map mapi]. destruct (H ref (or_introl eq_refl)) as [Hd Hm].
  rewrite (fetchPatch_fulfilled k _ _ _ Hd Hm).
  rewrite IH by (intros r Hr; apply H; now right). reflexivity.
Qed.

End GeneratorFacts.

(** C6: when every query of the upstream clone is answered, the task
    stores one record per reference of [ctx.sha], in the order of the
    references, whatever the order in which the concurrent queries settle;
    the [sha] of a record is the trimmed answer of [rev-parse] for its
    reference (the object name itself when git prints it on a line), and
    its diff and message are the answers of [format-patch] for the range
    [sha^..sha] and of [log -n 1] for that [sha]. *)
Theorem generatePatches_keeps_input_order :
  forall (gitV8 : list string -> Result string)
         (schedRevParse schedFetch : list nat) (schedPair : nat -> list nat)
         (st : State) (full diff msg : string -> string),
    Permutation schedRevParse (seq 0 (length (ctx_sha (ctx st)))) ->
    Permutation schedFetch (seq 0 (length (ctx_sha (ctx st)))) ->
    (forall i, Permutation (schedPair i) [0; 1]) ->
    (forall ref, In ref (ctx_sha (ctx st)) ->
       gitV8 ["rev-parse"; ref] = Ok (full ref)) ->
    (forall ref, In ref (ctx_sha (ctx st)) ->
       gitV8 ["format-patch"; "--stdout";
              trim (full ref) +:+ "^.." +:+ trim (full ref)] = Ok (diff ref)
       /\ gitV8 ["log"; "--format=%B"; "-n"; "1"; trim (full ref)] =
          Ok (msg ref)) ->
    task (generatePatches gitV8 schedRevParse schedFetch schedPair) st =
      (Ok tt,
       afterGenerate st (map (patchRecord full diff msg) (ctx_sha (ctx st))))
    /\ patches (ctx (afterGenerate st
                       (map (patchRecord full diff msg) (ctx_sha (ctx st))))) =
       map (patchRecord full diff msg) (ctx_sha (ctx st))
    /\ (forall ref name,
          full ref = name +:+ nl -> hasSpace name = false ->
          sha (patchRecord full diff msg ref) = name).
Proof.
  intros gitV8 schedRevParse schedFetch schedPair st full diff msg
         Hs1 Hs2 Hpair Hfull Hfetch.
  split; [|split].
  - unfold generatePatches. cbn [task]. unfold bind at 1. unfold getCtx.
    unfold bind at 1. rewrite logAll_run.
    assert (E1 : map (revParse gitV8) (ctx_sha (ctx st)) =
                 map Ok (map (fun ref => trim (full ref)) (ctx_sha (ctx st)))).
    { rewrite map_map. apply map_ext_in. intros ref Hin.
      unfold revParse. now rewrite (Hfull ref Hin). }
    unfold bind at 1. unfold liftResult at 1.
    rewrite E1, promiseAll_fulfilled by now rewrite length_map.
    unfold bind at 1. rewrite logAll_run.
    unfold bind at 1. unfold liftResult.
    rewrite (mapi_fetchPatch gitV8 schedPair Hpair full diff msg _ 0 Hfetch).
    rewrite promiseAll_fulfilled by now rewrite length_map.
    unfold bind, getCtx, modifyCtx, afterGenerate.
    cbn [ctx files confirms typed trace].
    rewrite <- app_assoc. do 4 f_equal.
    rewrite map_map. reflexivity.
  - reflexivity.
  - intros ref name Hline Hname. unfold patchRecord. cbn [sha].
    rewrite Hline. now apply trim_line.
Qed.

(** ** What the tasks add to the trace *)

Section TraceFacts.

Variable ok : Event -> bool.

Lemma evolves_refl (st : State) : evolves ok st st.
Proof. split; [reflexivity|]. exists []. now rewrite app_nil_r. Qed.

Lemma evolves_trans (st1 st2 st3 : State) :
  evolves ok st1 st2 -> evolves ok st2 st3 -> evolves ok st1 st3.
Proof.
  intros (Hd & evs & Ht & Hok) (Hd' & evs' & Ht' & Hok'). split.
  - congruence.
  - exists (evs ++ evs'). rewrite Ht', Ht, <- app_assoc. split; [reflexivity|].
    rewrite forallb_app. now rewrite Hok, Hok'.
Qed.

Lemma evolves_emit (e : Event) (st : State) :
  ok e = true -> evolves ok st (emit e st).
Proof.
  intros H. split; [reflexivity|]. exists [e]. cbn. now rewrite H.
Qed.

Lemma emitsOnly_ret {A} (a : A) : emitsOnly ok (ret a).
Proof. intros st. apply evolves_refl. Qed.

Lemma emitsOnly_throw {A} (e : Err) : emitsOnly ok (@throw A e).
Proof. intros st. apply evolves_refl. Qed.

Lemma emitsOnly_bind {A B} (m : M A) (k : A -> M B) :
  emitsOnly ok m -> (forall a, emitsOnly ok (k a)) ->
  emitsOnly ok (bind m k).
Proof.
  intros Hm Hk st. specialize (Hm st).
  unfold bind. destruct (m st) as [[a|e|] st1]; cbn in Hm.
  - exact (evolves_trans _ _ _ Hm (Hk a st1)).
  - exact Hm.
  - exact Hm.
Qed.

Lemma emitsOnly_bind_throw {A B} (e : Err) (k : A -> M B) :
  emitsOnly ok (bind (throw e) k).
Proof. intros st. apply evolves_refl. Qed.

Lemma emitsOnly_tryCatch {A} (m : M A) (h : Err -> M A) :
  emitsOnly ok m -> (forall e, emitsOnly ok (h e)) ->
  emitsOnly ok (tryCatch m h).
Proof.
  intros Hm Hh st. specialize (Hm st).
  unfold tryCatch. destruct (m st) as [[a|e|] st1]; cbn in Hm.
  - exact Hm.
  - exact (evolves_trans _ _ _ Hm (Hh e st1)).
  - exact Hm.
Qed.

Lemma emitsOnly_discard {A} (m : M A) :
  emitsOnly ok m -> emitsOnly ok (discard m).
Proof.
  intros H. apply emitsOnly_bind; [exact H|intros _; apply emitsOnly_ret].
Qed.

Lemma emitsOnly_getCtx : emitsOnly ok getCtx.
Proof. intros st. apply evolves_refl. Qed.

Lemma emitsOnly_modifyCtx (f : Ctx -> Ctx) :
  (forall c, map data (patches (f c)) = map data (patches c)) ->
  emitsOnly ok (modifyCtx f).
Proof.
  intros H st. split; [apply H|]. exists []. cbn. now rewrite app_nil_r.
Qed.

Lemma emitsOnly_getPatch (i : nat) : emitsOnly ok (getPatch i).
Proof. intros st. apply evolves_refl. Qed.

Lemma map_data_updateNth (i : nat) (ps : list Patch) :
  map data (updateNth i markConflict ps) = map data ps.
Proof.
  revert i. induction ps as [|p ps IH]; intros [|i]; simpl;
    try reflexivity. now rewrite IH.
Qed.

Lemma emitsOnly_setHadConflicts (i : nat) : emitsOnly ok (setHadConflicts i).
Proof.
  intros st. split; [apply map_data_updateNth|].
  exists []. cbn. now rewrite app_nil_r.
Qed.

Lemma emitsOnly_liftResult {A} (r : Result A) : emitsOnly ok (liftResult r).
Proof. intros st. apply evolves_refl. Qed.

Lemma emitsOnly_log (e : Event) : ok e = true -> emitsOnly ok (log e).
Proof. intros H st. now apply evolves_emit. Qed.

Lemma emitsOnly_readFile (path : string) :
  ok (ERead path) = true -> emitsOnly ok (readFile path).
Proof.
  intros H st. unfold readFile.
  destruct (lookupFile path (files st)); now apply evolves_emit.
Qed.

Lemma emitsOnly_writeFile (path content : string) :
  ok (EWrite path content) = true -> emitsOnly ok (writeFile path content).
Proof.
  intros H st. split; [reflexivity|].
  exists [EWrite path content]. cbn. now rewrite H.
Qed.

Lemma promptLoop_events (validate : string -> bool) (inputs : list string) :
  (forall v, ok (EPrompt v) = true) ->
  forallb ok (snd (promptLoop validate inputs)) = true.
Proof.
  intros H. induction inputs as [|v vs IH]; [reflexivity|]. simpl.
  destruct (validate v); simpl; [now rewrite H|].
  destruct (promptLoop validate vs) as [[r rest] evs]. simpl in *.
  now rewrite H, IH.
Qed.

Lemma emitsOnly_prompt (validate : string -> bool) :
  (forall v, ok (EPrompt v) = true) -> emitsOnly ok (prompt validate).
Proof.
  intros H st. pose proof (promptLoop_events validate (typed st) H) as Hev.
  unfold prompt. destruct (promptLoop validate (typed st)) as [[r rest] evs].
  split; [now destruct r|]. exists evs. destruct r; cbn; auto.
Qed.

Lemma emitsOnly_forEach {A} (xs : list A) (body : A -> M unit) :
  (forall x, emitsOnly ok (body x)) -> emitsOnly ok (forEach xs body).
Proof.
  intros H. induction xs as [|x xs IH]; cbn [forEach].
  - apply emitsOnly_ret.
  - apply emitsOnly_bind; [apply H|intros _; apply IH].
Qed.

Lemma emitsOnly_newListr (todo : list Task) :
  (forall t, ok (EStart t) = true) ->
  Forall (fun t => emitsOnly ok (task t)) todo ->
  emitsOnly ok (newListr todo).
Proof.
  intros Hs H. induction H as [|t todo Ht _ IH]; cbn [newListr].
  - apply emitsOnly_ret.
  - apply emitsOnly_bind; [apply emitsOnly_log, Hs|intros _].
    apply emitsOnly_bind; [exact Ht|intros _; exact IH].
Qed.

End TraceFacts.

Lemma neverOk_bind {A B} (m : M A) (k : A -> M B) :
  (forall a, neverOk (k a)) -> neverOk (bind m k).
Proof.
  intros Hk st b. unfold bind. destruct (m st) as [[a|e|] st1].
  - apply Hk.
  - discriminate.
  - discriminate.
Qed.

Lemma neverOk_newListr_last (todo : list Task) (t : Task) :
  neverOk (task t) -> neverOk (newListr (todo ++ [t])).
Proof.
  intros Ht. induction todo as [|u todo IH]; cbn [app newListr].
  - apply neverOk_bind. intros _ st a. unfold bind.
    specialize (Ht st). destruct (task t st) as [[[]|e|] st1]; cbn in *.
    + now destruct (Ht tt).
    + discriminate.
    + discriminate.
  - apply neverOk_bind. intros _. apply neverOk_bind. intros _. exact IH.
Qed.

Lemma neverOk_newListr_first (t : Task) (todo : list Task) :
  neverOk (task t) -> neverOk (newListr (t :: todo)).
Proof.
  intros Ht. cbn [newListr]. apply neverOk_bind. intros _ st a.
  unfold bind. specialize (Ht st).
  destruct (task t st) as [[[]|e|] st1]; cbn in *.
  - now destruct (Ht tt).
  - discriminate.
  - discriminate.
Qed.

(** ** The three strategies *)

Section StrategyFacts.

Variable shortSha : string -> string.
Variable gitNode :
  list Event -> string -> list string -> option string -> Result string.
Variable gitConfig : list Event -> string -> Result string.

Lemma emitsOnly_execGitNode (ok : Event -> bool) (cmd : string)
    (args : list string) (input : option string) :
  ok (EGitNode cmd args input) = true ->
  emitsOnly ok (execGitNode gitNode cmd args input).
Proof.
  intros H st. now apply evolves_emit.
Qed.

Lemma applyPatch_notCommit (patch : nat) (method : string) :
  String.eqb method "commit" = false ->
  emitsOnly notCommit (applyPatch gitNode patch method).
Proof.
  intros Hm. unfold applyPatch. apply emitsOnly_tryCatch.
  - apply emitsOnly_bind; [apply emitsOnly_getPatch|intros p].
    apply emitsOnly_bind; [|intros _; apply emitsOnly_ret].
    apply emitsOnly_execGitNode. unfold notCommit. cbn. now rewrite Hm.
  - intros e. apply emitsOnly_bind; [apply emitsOnly_setHadConflicts|].
    intros _. apply emitsOnly_bind; [|intros answer; apply emitsOnly_ret].
    now apply emitsOnly_prompt.
Qed.

Section BumpEvents.

Variable ok : Event -> bool.
Hypothesis ok_read : forall path, ok (ERead path) = true.
Hypothesis ok_write : forall path content, ok (EWrite path content) = true.
Hypothesis ok_add : ok (EGitNode "add" ["common.gypi"] None) = true.

Lemma incrementV8Version_emitsOnly :
  emitsOnly ok (task incrementV8Version).
Proof.
  cbn [task incrementV8Version].
  apply emitsOnly_bind; [now apply emitsOnly_modifyCtx|intros _].
  apply emitsOnly_bind; [apply emitsOnly_getCtx|intros c].
  apply emitsOnly_bind; [now apply emitsOnly_readFile|intros versionH].
  now apply emitsOnly_writeFile.
Qed.

Lemma incrementEmbedderVersion_emitsOnly :
  emitsOnly ok (task (incrementEmbedderVersion gitNode)).
Proof.
  cbn [task incrementEmbedderVersion].
  apply emitsOnly_bind; [apply emitsOnly_getCtx|intros c].
  apply emitsOnly_bind; [now apply emitsOnly_readFile|intros commonGypi].
  destruct (search embedderAt commonGypi) as [[[pre g] post]|].
  - apply emitsOnly_bind; [now apply emitsOnly_writeFile|intros _].
    apply emitsOnly_bind; [|intros _; apply emitsOnly_ret].
    now apply emitsOnly_execGitNode.
  - apply emitsOnly_throw.
Qed.

Lemma bumpTasks_emitsOnly (bump : option bool) (major : Z) :
  Forall (fun t => emitsOnly ok (task t)) (bumpTasks gitNode bump major).
Proof.
  unfold bumpTasks. destruct (notFalse bump); [|constructor].
  destruct (major <? 9)%Z.
  - apply Forall_cons; [apply incrementV8Version_emitsOnly|constructor].
  - apply Forall_cons; [apply incrementEmbedderVersion_emitsOnly|constructor].
Qed.

End BumpEvents.

Lemma bumpTasks_notCommit (bump : option bool) (major : Z) :
  Forall (fun t => emitsOnly notCommit (task t))
         (bumpTasks gitNode bump major).
Proof. now apply bumpTasks_emitsOnly. Qed.

Lemma bumpTasks_quiet (bump : option bool) (major : Z) :
  Forall (fun t => emitsOnly quiet (task t)) (bumpTasks gitNode bump major).
Proof. now apply bumpTasks_emitsOnly. Qed.

(** [commitPatch] passes no [extraArgs]: the task stages [deps/v8] and
    throws where it spreads them; it runs no [git commit] and never ends
    normally. *)
Lemma commitPatch_notCommit (patch : nat) :
  emitsOnly notCommit (task (commitPatch shortSha gitNode patch)).
Proof.
  cbn [task commitPatch]. unfold commitTask.
  apply emitsOnly_bind; [apply emitsOnly_getPatch|intros p].
  apply emitsOnly_bind; [now apply emitsOnly_execGitNode|intros _].
  apply emitsOnly_bind; [apply emitsOnly_getCtx|intros c].
  cbn [spread]. apply emitsOnly_bind_throw.
Qed.

Lemma commitPatch_neverOk (patch : nat) :
  neverOk (task (commitPatch shortSha gitNode patch)).
Proof.
  cbn [task commitPatch]. unfold commitTask.
  apply neverOk_bind; intros p. apply neverOk_bind; intros _.
  apply neverOk_bind; intros c. intros st r. discriminate.
Qed.

Lemma applyPatchTask_notCommit (ps : list Patch) (patch : nat) :
  emitsOnly notCommit (task (applyPatchTask shortSha gitNode ps patch)).
Proof.
  cbn [task applyPatchTask].
  apply emitsOnly_bind; [apply emitsOnly_getCtx|intros c].
  apply emitsOnly_newListr; [reflexivity|].
  apply Forall_app. split; [|apply Forall_app; split].
  - constructor; [|constructor]. cbn [task].
    now apply emitsOnly_discard, applyPatch_notCommit.
  - apply bumpTasks_notCommit.
  - constructor; [|constructor]. apply commitPatch_notCommit.
Qed.

Lemma applyPatchTask_neverOk (ps : list Patch) (patch : nat) :
  neverOk (task (applyPatchTask shortSha gitNode ps patch)).
Proof.
  cbn [task applyPatchTask]. apply neverOk_bind. intros c.
  rewrite app_assoc. apply neverOk_newListr_last, commitPatch_neverOk.
Qed.

(** The patch-then-commit strategy as it is written: whatever git answers
    and the operator types, the task runs no [git commit], and with a
    patch to apply it does not end normally. *)
Lemma applyAndCommitPatches_creates_no_commit :
  emitsOnly notCommit (task (applyAndCommitPatches shortSha gitNode))
  /\ forall st a,
       patches (ctx st) <> [] ->
       fst (task (applyAndCommitPatches shortSha gitNode) st) <> Ok a.
Proof.
  split.
  - cbn [task applyAndCommitPatches].
    apply emitsOnly_bind; [apply emitsOnly_getCtx|intros c].
    apply emitsOnly_newListr; [reflexivity|].
    apply Forall_forall. intros t Ht. apply in_map_iff in Ht.
    destruct Ht as (i & <- & _). apply applyPatchTask_notCommit.
  - intros st a Hne. cbn [task applyAndCommitPatches].
    unfold bind at 1. unfold getCtx. unfold patchRefs.
    destruct (patches (ctx st)) as [|p ps] eqn:E; [contradiction|].
    cbn [length seq map].
    apply neverOk_newListr_first, applyPatchTask_neverOk.
Qed.

End StrategyFacts.

(** ** The history each strategy leaves *)

Lemma topology_app (tr tr' : list Event) :
  topology (tr ++ tr') = topology tr ++ topology tr'.
Proof.
  induction tr as [|e tr IH]; [reflexivity|]. simpl.
  destruct (stepOf e); simpl; now rewrite IH.
Qed.

Lemma topology_quiet (evs : list Event) :
  forallb quiet evs = true -> topology evs = [].
Proof.
  induction evs as [|e evs IH]; [reflexivity|]. simpl. unfold quiet at 1.
  destruct (stepOf e); [discriminate|]. exact IH.
Qed.

Lemma evolves_quiet_topology (st st' : State) :
  evolves quiet st st' -> topology (trace st') = topology (trace st).
Proof.
  intros (_ & evs & Ht & Hq).
  now rewrite Ht, topology_app, (topology_quiet evs Hq), app_nil_r.
Qed.

Lemma nth_datas (st : State) (i : nat) :
  data (patchAt st i) = nth i (datas st) "".
Proof.
  unfold patchAt, datas.
  exact (eq_sym (map_nth data (patches (ctx st)) undefinedPatch i)).
Qed.

Lemma map_nth_seq (d : list string) :
  map (fun i => nth i d "") (seq 0 (length d)) = d.
Proof.
  induction d as [|x d IH]; [reflexivity|]. cbn [length seq map nth].
  rewrite <- seq_shift, map_map. cbn [nth]. now rewrite IH.
Qed.

Section PerformsFacts.

Lemma performs_quiet {A} (m : M A) :
  emitsOnly quiet m -> performs m (fun _ => []).
Proof.
  intros Hq st a st' H. specialize (Hq st). rewrite H in Hq. cbn in Hq.
  split; [apply Hq|]. rewrite app_nil_r.
  now apply evolves_quiet_topology.
Qed.

Lemma performs_ext {A} (m : M A) (f g : list string -> list Step) :
  (forall d, f d = g d) -> performs m f -> performs m g.
Proof.
  intros E H st a st' Hrun. rewrite <- E. exact (H st a st' Hrun).
Qed.

Lemma performs_bind {A B} (m : M A) (k : A -> M B)
    (f g : list string -> list Step) :
  performs m f -> (forall a, performs (k a) g) ->
  performs (bind m k) (fun d => f d ++ g d).
Proof.
  intros Hm Hk st b st' H. unfold bind in H.
  destruct (m st) as [[a|e|] st1] eqn:E; try discriminate.
  destruct (Hm st a st1 E) as [Hd Ht].
  destruct (Hk a st1 b st' H) as [Hd' Ht'].
  split; [congruence|]. rewrite Ht', Ht, Hd. now rewrite app_assoc.
Qed.

Lemma performs_after_quiet {A B} (m : M A) (k : A -> M B)
    (g : list string -> list Step) :
  emitsOnly quiet m -> (forall a, performs (k a) g) ->
  performs (bind m k) g.
Proof.
  intros Hm Hk.
  apply (performs_ext _ (fun d => [] ++ g d)); [reflexivity|].
  apply performs_bind; [now apply performs_quiet|exact Hk].
Qed.

Lemma performs_then_quiet {A B} (m : M A) (k : A -> M B)
    (f : list string -> list Step) :
  performs m f -> (forall a, emitsOnly quiet (k a)) ->
  performs (bind m k) f.
Proof.
  intros Hm Hk.
  apply (performs_ext _ (fun d => f d ++ []));
    [intros d; apply app_nil_r|].
  apply performs_bind; [exact Hm|]. intros a. now apply performs_quiet.
Qed.

Lemma performs_newListr_nil : performs (newListr []) (fun _ => []).
Proof. apply performs_quiet, emitsOnly_ret. Qed.

Lemma performs_newListr_cons (t : Task) (todo : list Task)
    (f g : list string -> list Step) :
  performs (task t) f -> performs (newListr todo) g ->
  performs (newListr (t :: todo)) (fun d => f d ++ g d).
Proof.
  intros Ht Htodo. cbn [newListr].
  apply performs_after_quiet; [now apply emitsOnly_log|intros _].
  apply performs_bind; [exact Ht|intros _; exact Htodo].
Qed.

Lemma performs_newListr_quiet (todo rest : list Task)
    (g : list string -> list Step) :
  Forall (fun t => emitsOnly quiet (task t)) todo ->
  performs (newListr rest) g ->
  performs (newListr (todo ++ rest)) g.
Proof.
  intros H Hrest. induction H as [|t todo Ht _ IH]; [exact Hrest|].
  cbn [app].
  apply (performs_ext _ (fun d => [] ++ g d)); [reflexivity|].
  apply performs_newListr_cons; [now apply performs_quiet|exact IH].
Qed.

End PerformsFacts.

Section Histories.

Variable shortSha : string -> string.
Variable gitNode :
  list Event -> string -> list string -> option string -> Result string.
Variable gitConfig : list Event -> string -> Result string.

Lemma applyPatch_performs (patch : nat) (method : string) :
  isApplyMethod method = true ->
  performs (applyPatch gitNode patch method)
           (fun d => [SApply method (nth patch d "")]).
Proof.
  intros Hm st a st' H.
  assert (Hstep : topology [applyCall st patch method] =
                  [SApply method (nth patch (datas st) "")]).
  { cbn. unfold isApplyMethod in Hm. rewrite Hm. now rewrite nth_datas. }
  destruct (gitNode (trace st) method applyArgs
                    (Some (data (patchAt st patch)))) as [out|e|] eqn:E.
  - rewrite (applyPatch_clean gitNode st patch method out E) in H.
    injection H as _ <-. split; [reflexivity|].
    cbn [emit trace]. now rewrite topology_app, <- Hstep.
  - rewrite (applyPatch_failed gitNode st patch method e E) in H.
    pose proof (promptLoop_events quiet validateResolved (typed st)
                  (fun _ => eq_refl)) as Hq.
    destruct (promptLoop validateResolved (typed st)) as [[[v|] unread] evs];
      [|discriminate].
    injection H as _ <-. split; [apply map_data_updateNth|].
    cbn [trace snd] in Hq |- *.
    change (EGitNode method applyArgs
              (Some (data (nth patch (patches (ctx st)) undefinedPatch)))
            :: evs)
      with ([applyCall st patch method] ++ evs).
    rewrite !topology_app, (topology_quiet evs Hq), app_nil_r.
    now rewrite <- Hstep.
  - exfalso. unfold applyPatch, tryCatch, bind, getPatch, execGitNode in H.
    cbn in H. unfold applyArgs, patchAt in E. rewrite E in H. discriminate.
Qed.

Lemma applyEach_performs (refs : list nat) :
  performs (forEach refs (fun patch => discard (applyPatch gitNode patch "apply")))
           (fun d => map (fun i => SApply "apply" (nth i d "")) refs).
Proof.
  induction refs as [|i refs IH]; cbn [forEach map].
  - apply performs_quiet, emitsOnly_ret.
  - apply (performs_bind _ _ (fun d => [SApply "apply" (nth i d "")])).
    + apply performs_then_quiet; [now apply applyPatch_performs|].
      intros _. apply emitsOnly_ret.
    + intros _. exact IH.
Qed.

Lemma applyPatches_performs :
  performs (task (applyPatches gitNode)) (map (SApply "apply")).
Proof.
  intros st a st' H. cbn [task applyPatches] in H.
  unfold bind at 1 in H. unfold getCtx in H.
  destruct (applyEach_performs (patchRefs (ctx st)) st a st' H) as [Hd Ht].
  split; [exact Hd|]. rewrite Ht. f_equal.
  unfold patchRefs.
  replace (length (patches (ctx st))) with (length (datas st))
    by apply length_map.
  transitivity (map (SApply "apply")
                    (map (fun i => nth i (datas st) "")
                         (seq 0 (length (datas st))))).
  - now rewrite map_map.
  - now rewrite map_nth_seq.
Qed.

Lemma title_not_amend (ps : list Patch) :
  String.eqb "--amend" (formatMessageTitle shortSha ps) = false.
Proof.
  unfold formatMessageTitle.
  destruct (length ps =? 1); [reflexivity|].
  destruct (length ps =? 2); [reflexivity|].
  destruct (length ps =? 3); reflexivity.
Qed.

Lemma prefixed_body_not_amend (p : Patch) (rest : string) :
  String.eqb "--amend" (formatMessageBody shortSha p true None +:+ rest) =
  false.
Proof. unfold formatMessageBody. destruct (hadConflicts p); reflexivity. Qed.

Lemma squashedMessageBody_not_amend (ps : list Patch) :
  String.eqb "--amend" (squashedMessageBody shortSha ps) = false.
Proof.
  unfold squashedMessageBody. destruct (length ps =? 1); [reflexivity|].
  rewrite (fold_left_bodies
             (fun x => formatMessageBody shortSha x true None +:+ nl +:+ nl)).
  change ("" +:+ ?x) with x.
  destruct ps as [|p [|q ps]]; [reflexivity| |].
  - cbn [map String.concat]. apply prefixed_body_not_amend.
  - cbn [map String.concat]. rewrite append_assoc.
    apply prefixed_body_not_amend.
Qed.

Lemma commitSquashedBackport_performs :
  performs (task (commitSquashedBackport shortSha gitNode))
           (fun _ => [SCommit false]).
Proof.
  intros st a st' H. cbn [task commitSquashedBackport] in H.
  unfold bind, getCtx, execGitNode in H. cbn [trace emit] in H.
  destruct (gitNode (trace st) "add" ["deps/v8"] None); try discriminate.
  destruct (gitNode _ "commit" _ None); try discriminate.
  injection H as _ <-. split; [reflexivity|].
  cbn [emit trace]. rewrite !topology_app.
  change (topology [EGitNode "add" ["deps/v8"] None]) with (@nil Step).
  rewrite app_nil_r. f_equal.
  change (topology [EGitNode "commit" ?args None])
    with [SCommit (existsb (String.eqb "--amend") args)].
  cbn [existsb].
  rewrite title_not_amend, squashedMessageBody_not_amend. reflexivity.
Qed.

(** X2: a squash run that ends normally has run one [git apply] per patch,
    in the order of the patches, and then one commit, which does not amend:
    whatever applies failed and were resolved on the way, the history gets
    exactly one commit, after all the patches. *)
Theorem squash_commits_once (options : Options) (st st' : State) :
  newListr (strategyTodo shortSha gitNode gitConfig options Squash) st =
    (Ok tt, st') ->
  topology (trace st') =
  topology (trace st) ++ map (SApply "apply") (datas st) ++ [SCommit false].
Proof.
  intros H.
  assert (P : performs
                (newListr (strategyTodo shortSha gitNode gitConfig options
                                        Squash))
                (fun d => map (SApply "apply") d ++ [SCommit false])).
  { cbn [strategyTodo app].
    apply performs_newListr_cons; [apply applyPatches_performs|].
    apply performs_newListr_quiet; [apply bumpTasks_quiet|].
    apply (performs_ext _ (fun d => [SCommit false] ++ []));
      [reflexivity|].
    apply performs_newListr_cons;
      [apply commitSquashedBackport_performs|apply performs_newListr_nil]. }
  exact (proj2 (P st tt st' H)).
Qed.

Lemma getGitConfigEntry_quiet (key : string) :
  emitsOnly quiet (getGitConfigEntry gitConfig key).
Proof. intros st. now apply evolves_emit. Qed.

Lemma commitTask_amend_performs (patch : nat) (trailers : option string) :
  performs (commitTask shortSha gitNode patch (Some ["--amend"]) trailers)
           (fun _ => [SCommit true]).
Proof.
  intros st a st' H.
  unfold commitTask, bind, getPatch, getCtx, spread, ret, execGitNode in H.
  cbn [trace emit ctx] in H.
  destruct (gitNode (trace st) "add" ["deps/v8"] None); try discriminate.
  destruct (gitNode _ "commit" _ None); try discriminate.
  injection H as _ <-. split; [reflexivity|].
  cbn [emit trace]. rewrite !topology_app.
  change (topology [EGitNode "add" ["deps/v8"] None]) with (@nil Step).
  rewrite app_nil_r. f_equal.
  change (topology [EGitNode "commit" ?args None])
    with [SCommit (existsb (String.eqb "--amend") args)].
  rewrite existsb_app. cbn [app existsb].
  change (String.eqb "--amend" "--amend") with true.
  cbn [orb]. now rewrite orb_true_r.
Qed.

Lemma amendHEAD_performs (patch : nat) :
  performs (task (amendHEAD shortSha gitNode gitConfig patch))
           (fun _ => [SCommit true]).
Proof.
  cbn [task amendHEAD].
  apply performs_after_quiet; [apply emitsOnly_getPatch|intros p].
  apply performs_after_quiet; [|intros coAuthor;
                                 apply commitTask_amend_performs].
  destruct (hadConflicts p); [|apply emitsOnly_ret].
  apply emitsOnly_bind; [apply emitsOnly_getCtx|intros c].
  apply emitsOnly_bind; [now apply emitsOnly_execGitNode|intros _].
  apply emitsOnly_bind; [apply getGitConfigEntry_quiet|intros name].
  apply emitsOnly_bind; [apply getGitConfigEntry_quiet|intros email].
  apply emitsOnly_ret.
Qed.

Lemma cherryPickV8CommitTask_performs (ps : list Patch) (patch : nat) :
  performs (task (cherryPickV8CommitTask shortSha gitNode gitConfig ps patch))
           (fun d => [SApply "am" (nth patch d ""); SCommit true]).
Proof.
  cbn [task cherryPickV8CommitTask].
  apply performs_after_quiet; [apply emitsOnly_getCtx|intros c].
  cbn [app].
  apply (performs_ext _ (fun d => [SApply "am" (nth patch d "")] ++
                                  [SCommit true])); [reflexivity|].
  apply performs_newListr_cons.
  - cbn [task]. apply performs_then_quiet; [now apply applyPatch_performs|].
    intros _. apply emitsOnly_ret.
  - apply performs_newListr_quiet; [apply bumpTasks_quiet|].
    apply (performs_ext _ (fun d => [SCommit true] ++ []));
      [reflexivity|].
    apply performs_newListr_cons;
      [apply amendHEAD_performs|apply performs_newListr_nil].
Qed.

Lemma cherryPickEach_performs (ps : list Patch) (refs : list nat) :
  performs
    (newListr (map (cherryPickV8CommitTask shortSha gitNode gitConfig ps) refs))
    (fun d => flat_map (fun i => [SApply "am" (nth i d ""); SCommit true])
                       refs).
Proof.
  induction refs as [|i refs IH]; cbn [map flat_map].
  - apply performs_newListr_nil.
  - apply performs_newListr_cons;
      [apply cherryPickV8CommitTask_performs|exact IH].
Qed.

Lemma cherryPickV8Commits_performs :
  performs (task (cherryPickV8Commits shortSha gitNode gitConfig))
           (flat_map (fun x => [SApply "am" x; SCommit true])).
Proof.
  intros st a st' H. cbn [task cherryPickV8Commits] in H.
  unfold bind at 1 in H. unfold getCtx in H.
  destruct (cherryPickEach_performs (patches (ctx st)) (patchRefs (ctx st))
              st a st' H) as [Hd Ht].
  split; [exact Hd|]. rewrite Ht. f_equal.
  unfold patchRefs.
  replace (length (patches (ctx st))) with (length (datas st))
    by apply length_map.
  rewrite !flat_map_concat_map. f_equal.
  transitivity (map (fun x => [SApply "am" x; SCommit true])
                    (map (fun i => nth i (datas st) "")
                         (seq 0 (length (datas st))))).
  - now rewrite map_map.
  - now rewrite map_nth_seq.
Qed.

(** X3: a preserve-author run that ends normally has run, for each patch in
    the order of the patches, one [git am] with the diff of the patch on its
    input and then one commit that amends: no patch is applied before the
    commit of the one before it is amended, and no commit is a fresh one. *)
Theorem preserve_author_amends_each_commit
    (options : Options) (st st' : State) :
  newListr (strategyTodo shortSha gitNode gitConfig options PreserveAuthor)
           st = (Ok tt, st') ->
  topology (trace st') =
  topology (trace st) ++
  flat_map (fun x => [SApply "am" x; SCommit true]) (datas st).
Proof.
  intros H.
  assert (P : performs
                (newListr (strategyTodo shortSha gitNode gitConfig options
                                        PreserveAuthor))
                (flat_map (fun x => [SApply "am" x; SCommit true]))).
  { cbn [strategyTodo].
    apply (performs_ext _
             (fun d => flat_map (fun x => [SApply "am" x; SCommit true]) d
                       ++ []));
      [intros d; apply app_nil_r|].
    apply performs_newListr_cons;
      [apply cherryPickV8Commits_performs|apply performs_newListr_nil]. }
  exact (proj2 (P st tt st' H)).
Qed.

(** X4: the task list of the patch-then-commit strategy runs no
    [git commit], whatever git answers and the operator types, and with a
    patch to apply it does not end normally: [commitPatch] gives
    [commitTask] no [extraArgs], and spreading them throws. *)
Theorem patch_then_commit_never_commits (options : Options) (st : State) :
  filter isCommit
    (trace (snd (newListr (strategyTodo shortSha gitNode gitConfig options
                                        PatchThenCommit) st))) =
  filter isCommit (trace st)
  /\ (patches (ctx st) <> [] ->
      fst (newListr (strategyTodo shortSha gitNode gitConfig options
                                  PatchThenCommit) st) <> Ok tt).
Proof.
  destruct (applyAndCommitPatches_creates_no_commit shortSha gitNode)
    as [Hev Hnever].
  split.
  - assert (E : emitsOnly notCommit
                  (newListr (strategyTodo shortSha gitNode gitConfig options
                                          PatchThenCommit))).
    { cbn [strategyTodo]. apply emitsOnly_newListr; [reflexivity|].
      constructor; [exact Hev|constructor]. }
    destruct (E st) as (_ & evs & Ht & Hok). rewrite Ht, filter_app.
    assert (Hnone : filter isCommit evs = []).
    { clear Ht. induction evs as [|e evs IH]; [reflexivity|].
      cbn in Hok |- *. apply andb_prop in Hok as [He Hevs].
      unfold notCommit in He. apply negb_true_iff in He. rewrite He.
      now apply IH. }
    now rewrite Hnone, app_nil_r.
  - intros Hne. cbn [strategyTodo]. rewrite newListr_cons.
    specialize (Hnever (emit (EStart (title (applyAndCommitPatches shortSha
                                                gitNode))) st) tt Hne).
    destruct (task (applyAndCommitPatches shortSha gitNode) _)
      as [[[]|e|] st1]; cbn in *; [contradiction|discriminate|discriminate].
Qed.

End Histories.

(** C1, on the two-commit input of the specification with every git command
    succeeding: squash applies both patches and commits once; preserve-author
    applies each patch with [git am] and amends the commit it made; the
    default strategy applies the first patch, stages it, and throws a
    [TypeError] before any [git commit]: it creates no commit, where the
    claim has one per patch. *)
Theorem default_strategy_throws_before_commit :
  let run := Demo.run Demo.gitNodeClean in
  let diff1 :=
    "diff of " +:+ Demo.sha1 +:+ "^.." +:+ Demo.sha1 in
  let diff2 :=
    "diff of " +:+ Demo.sha2 +:+ "^.." +:+ Demo.sha2 in
  (fst (run (Demo.options0 true false)) = Ok tt
   /\ topology (trace (snd (run (Demo.options0 true false)))) =
      [SApply "apply" diff1; SApply "apply" diff2; SCommit false])
  /\ (fst (run (Demo.options0 false true)) = Ok tt
      /\ topology (trace (snd (run (Demo.options0 false true)))) =
         [SApply "am" diff1; SCommit true; SApply "am" diff2; SCommit true])
  /\ (fst (run (Demo.options0 false false)) =
        Throw (TypeError "undefined is not iterable")
      /\ topology (trace (snd (run (Demo.options0 false false)))) =
         [SApply "apply" diff1]
      /\ filter isCommit (trace (snd (run (Demo.options0 false false)))) = []).
Proof. vm_compute. repeat split. Qed.

(** ** The properties at a concrete run *)


Lemma applyPatch_swallows_every_error_witness :
  applyPatch Demo.gitNodeConflict 0 "apply" Demo.stateApply =
    applyPatch Demo.gitNodeMissing 0 "apply" Demo.stateApply
  /\ applyPatch Demo.gitNodeMissing 0 "apply" Demo.stateApply =
     (Ok (Some "resolved"),
      afterConflict Demo.stateApply 0 "apply" ["yes"] ["done"; "resolved"]).
Proof.
  destruct (applyPatch_swallows_every_error
              Demo.gitNodeMissing Demo.gitNodeConflict Demo.stateApply 0
              "apply" (CommandFailed "spawn git ENOENT")
              (CommandFailed "error: patch failed") eq_refl eq_refl)
    as (_ & Hsame & Hack).
  split; [symmetry; exact Hsame|].
  apply (Hack ["done"] "resolved" ["yes"] eq_refl).
  - constructor; [reflexivity|constructor].
  - reflexivity.
Defined.

Lemma checkOptions_preflight_witness :
  backport Demo.shortSha Demo.getCurrentV8Version Demo.gitV8
           Demo.gitNodeClean Demo.gitConfig [1; 0] [0; 1] (fun _ => [1; 0])
           (Demo.options0 true false) (Demo.state0 None 20%Z) =
  (Ok tt, afterConfirm (Demo.state0 None 20%Z) false []).
Proof.
  destruct (checkOptions_preflight
              Demo.shortSha Demo.getCurrentV8Version Demo.gitV8
              Demo.gitNodeClean Demo.gitConfig [1; 0] [0; 1]
              (fun _ => [1; 0])
              (Demo.options0 true false) (Demo.state0 None 20%Z))
    as (Hask & _).
  assert (Hlen : 1 < length (opt_sha (Demo.options0 true false)))
    by (cbn; lia).
  destruct (Hask Hlen eq_refl []) as (Hdecline & _).
  exact (proj1 (proj2 (Hdecline eq_refl))).
Defined.

Lemma version_bump_rewrites_witness :
  task incrementV8Version (Demo.state0 None 8%Z) =
    (Ok tt, afterPatchLevelBump (Demo.state0 None 8%Z) Demo.versionH13)
  /\ task (incrementEmbedderVersion Demo.gitNodeClean)
          (Demo.state0 None 20%Z) =
     (Ok tt, afterEmbedderBump (Demo.state0 None 20%Z) Demo.commonGypi6).
Proof.
  assert (H13 : (12 + 1 <= 2 ^ 53)%N) by (vm_compute; discriminate).
  assert (H6 : (parseInt10 "5" + 1 <= 2 ^ 53)%N)
    by (vm_compute; discriminate).
  destruct version_bump_rewrites as [Hlevel Hembedder].
  split.
  - destruct (Hlevel (Demo.state0 None 8%Z) Demo.versionH
                ("#define V8_BUILD_NUMBER 7" +:+ nl +:+ "#define ") "12"
                (nl +:+ "#define V8_IS_CANDIDATE_VERSION 0" +:+ nl)
                eq_refl eq_refl H13)
      as (_ & _ & Hrun & _).
    exact Hrun.
  - destruct (Hembedder Demo.gitNodeClean (Demo.state0 None 20%Z)
                Demo.commonGypi
                ("    # Reset this number to 0 on major V8 upgrades." +:+ nl
                 +:+ "    ")
                "5" ("," +:+ nl +:+
                     "    'v8_enable_31bit_smis_on_64bit_arch%': 0," +:+ nl)
                "" eq_refl eq_refl H6 eq_refl)
      as (_ & _ & _ & Hrun).
    exact Hrun.
Defined.

Lemma generatePatches_keeps_input_order_witness :
  task (generatePatches Demo.gitV8 [1; 0] [0; 1] (fun _ => [1; 0]))
       (Demo.state0 None 20%Z) =
  (Ok tt,
   afterGenerate (Demo.state0 None 20%Z)
     [mkPatch Demo.sha1 (Demo.diff "4c074516397b")
              (Demo.msg "4c074516397b") false;
      mkPatch Demo.sha2 (Demo.diff "a51f429772d1")
              (Demo.msg "a51f429772d1") false]).
Proof.
  refine (proj1 (generatePatches_keeps_input_order
                   Demo.gitV8 [1; 0] [0; 1] (fun _ => [1; 0])
                   (Demo.state0 None 20%Z) Demo.full Demo.diff Demo.msg
                   _ _ _ _ _)).
  - apply perm_swap.
  - apply Permutation_refl.
  - intros _. apply perm_swap.
  - intros ref [<-|[<-|[]]]; reflexivity.
  - intros ref [<-|[<-|[]]]; split; reflexivity.
Defined.

(** * Further properties of the tasks *)

(** ** A failed query of the upstream clone *)

Section PromiseAllRejects.

Context {A : Type}.

Lemma countNone_at_least (values : list (option A)) (k : nat) :
  nth_error values k = Some None -> 1 <= countNone values.
Proof.
  revert k. induction values as [|[x|] vs IH]; intros [|k]; simpl;
    try discriminate; try lia. apply IH.
Qed.

(** With a rejected promise that has not settled yet, the slots cannot all
    fill: the outcome is a rejection, with the error of one of the
    promises. *)
Lemma promiseAllFrom_rejected (promises : list (Result A)) (e : Err) :
  forall (sched : list nat) (values : list (option A)) (remaining : nat)
         (k : nat),
    remaining = countNone values ->
    nth_error promises k = Some (Throw e) ->
    In k sched ->
    nth_error values k = Some None ->
    exists e', promiseAllFrom sched promises values remaining = Throw e'
               /\ In (Throw e') promises.
Proof.
  induction sched as [|i sched IH]; intros values remaining k Hrem Hk Hin Hv.
  - destruct Hin.
  - cbn [promiseAllFrom].
    destruct (nth_error promises i) as [[v|e0|]|] eqn:Hi.
    + assert (Hne : i <> k) by congruence.
      assert (Hin' : In k sched) by (destruct Hin; [contradiction|assumption]).
      destruct (nth_error values i) as [[x|]|] eqn:Hvi;
        try (now apply (IH values remaining k)).
      pose proof (countNone_setNth i v values Hvi) as Hc.
      assert (Hv' : nth_error (setNth i (Some v) values) k = Some None)
        by (now rewrite nth_error_setNth_other).
      pose proof (countNone_at_least _ k Hv') as Hge.
      destruct (remaining =? 1) eqn:E1.
      * apply Nat.eqb_eq in E1. lia.
      * apply (IH _ _ k); [lia|assumption|assumption|assumption].
    + exists e0. split; [reflexivity|].
      exact (nth_error_In promises i Hi).
    + assert (Hne : i <> k) by congruence.
      assert (Hin' : In k sched) by (destruct Hin; [contradiction|assumption]).
      destruct (nth_error values i) as [[x|]|];
        now apply (IH values remaining k).
    + assert (Hne : i <> k) by congruence.
      assert (Hin' : In k sched) by (destruct Hin; [contradiction|assumption]).
      destruct (nth_error values i) as [[x|]|];
        now apply (IH values remaining k).
Qed.

(** Whatever the order in which the promises settle, [Promise.all] of
    promises one of which is rejected is rejected, with the error of one of
    them. *)
Lemma promiseAll_rejected (sched : list nat) (promises : list (Result A))
    (e : Err) :
  Permutation sched (seq 0 (length promises)) ->
  In (Throw e) promises ->
  exists e', promiseAll sched promises = Throw e' /\ In (Throw e') promises.
Proof.
  intros Hperm Hin. destruct (In_nth_error _ _ Hin) as [k Hk].
  assert (Hlt : k < length promises)
    by (apply nth_error_Some; congruence).
  unfold promiseAll. destruct promises as [|p ps] eqn:E; [destruct Hin|].
  rewrite <- E in *.
  apply (promiseAllFrom_rejected promises e sched _ _ k).
  - now rewrite countNone_repeat.
  - exact Hk.
  - apply (Permutation_in _ (Permutation_sym Hperm)), in_seq. lia.
  - now apply nth_error_repeat_None.
Qed.

End PromiseAllRejects.

(** X1: when [rev-parse] fails for one of the references, [generatePatches]
    fails with the error of a failed [rev-parse], whatever the order in
    which the queries settle; [ctx.patches] and the rest of the context are
    as before, and no [format-patch] or [log] query was started: only the
    [rev-parse] queries are on the trace. *)
Theorem generatePatches_unresolved_reference :
  forall (gitV8 : list string -> Result string)
         (schedRevParse schedFetch : list nat) (schedPair : nat -> list nat)
         (st : State) (ref : string) (e : Err),
    Permutation schedRevParse (seq 0 (length (ctx_sha (ctx st)))) ->
    In ref (ctx_sha (ctx st)) ->
    gitV8 ["rev-parse"; ref] = Throw e ->
    exists e' ref',
      task (generatePatches gitV8 schedRevParse schedFetch schedPair) st =
        (Throw e', afterRevParse st)
      /\ In ref' (ctx_sha (ctx st))
      /\ gitV8 ["rev-parse"; ref'] = Throw e'.
Proof.
  intros gitV8 schedRevParse schedFetch schedPair st ref e Hperm Hin He.
  assert (Hthrow : In (Throw e) (map (revParse gitV8) (ctx_sha (ctx st)))).
  { apply in_map_iff. exists ref. split; [|exact Hin].
    unfold revParse. now rewrite He. }
  assert (Hperm' : Permutation schedRevParse
                     (seq 0 (length (map (revParse gitV8)
                                         (ctx_sha (ctx st))))))
    by now rewrite length_map.
  destruct (promiseAll_rejected schedRevParse _ e Hperm' Hthrow)
    as (e' & Hall & Hin').
  apply in_map_iff in Hin'. destruct Hin' as (ref' & Href' & Hin').
  exists e', ref'. split; [|split].
  - unfold generatePatches. cbn [task]. unfold bind at 1. unfold getCtx.
    unfold bind at 1. rewrite logAll_run.
    unfold bind at 1. unfold liftResult at 1. rewrite Hall. reflexivity.
  - exact Hin'.
  - unfold revParse in Href'.
    destruct (gitV8 ["rev-parse"; ref']) as [out|e0|]; cbn in Href';
      congruence.
Qed.

(** ** What the strategies leave of the patches *)

Lemma keptPatch_refl (ps : list Patch) : Forall2 keptPatch ps ps.
Proof.
  induction ps; constructor; [repeat split; auto|assumption].
Qed.

Lemma keptPatch_trans (ps1 ps2 ps3 : list Patch) :
  Forall2 keptPatch ps1 ps2 -> Forall2 keptPatch ps2 ps3 ->
  Forall2 keptPatch ps1 ps3.
Proof.
  intros H. revert ps3.
  induction H as [|p q ps qs Hpq _ IH]; intros ps3 H';
    inversion H' as [|q' r qs' rs Hqr Hrest]; subst; constructor.
  - destruct Hpq as (Hs & Hd & Hm & Hf), Hqr as (Hs' & Hd' & Hm' & Hf').
    repeat split; try congruence. auto.
  - now apply IH.
Qed.

Lemma keptPatch_markConflict (i : nat) (ps : list Patch) :
  Forall2 keptPatch ps (updateNth i markConflict ps).
Proof.
  revert i. induction ps as [|p ps IH]; intros [|i]; simpl; constructor;
    try apply keptPatch_refl; try apply IH; repeat split; auto.
Qed.

Lemma keptPatch_nth (ps ps' : list Patch) (i : nat) :
  Forall2 keptPatch ps ps' ->
  keptPatch (nth i ps undefinedPatch) (nth i ps' undefinedPatch).
Proof.
  intros H. revert i. induction H; intros [|i]; simpl; auto;
    repeat split; auto.
Qed.

Lemma keepsPatches_same {A} (m : M A) :
  (forall st, patches (ctx (snd (m st))) = patches (ctx st)) ->
  keepsPatches m.
Proof. intros H st. rewrite H. apply keptPatch_refl. Qed.

Lemma keepsPatches_ret {A} (a : A) : keepsPatches (ret a).
Proof. now apply keepsPatches_same. Qed.

Lemma keepsPatches_throw {A} (e : Err) : keepsPatches (@throw A e).
Proof. now apply keepsPatches_same. Qed.

Lemma keepsPatches_bind {A B} (m : M A) (k : A -> M B) :
  keepsPatches m -> (forall a, keepsPatches (k a)) ->
  keepsPatches (bind m k).
Proof.
  intros Hm Hk st. specialize (Hm st).
  unfold bind. destruct (m st) as [[a|e|] st1]; cbn in Hm.
  - exact (keptPatch_trans _ _ _ Hm (Hk a st1)).
  - exact Hm.
  - exact Hm.
Qed.

Lemma keepsPatches_tryCatch {A} (m : M A) (h : Err -> M A) :
  keepsPatches m -> (forall e, keepsPatches (h e)) ->
  keepsPatches (tryCatch m h).
Proof.
  intros Hm Hh st. specialize (Hm st).
  unfold tryCatch. destruct (m st) as [[a|e|] st1]; cbn in Hm.
  - exact Hm.
  - exact (keptPatch_trans _ _ _ Hm (Hh e st1)).
  - exact Hm.
Qed.

Lemma keepsPatches_discard {A} (m : M A) :
  keepsPatches m -> keepsPatches (discard m).
Proof.
  intros H. apply keepsPatches_bind; [exact H|intros _; apply keepsPatches_ret].
Qed.

Lemma keepsPatches_getCtx : keepsPatches getCtx.
Proof. now apply keepsPatches_same. Qed.

Lemma keepsPatches_getPatch (i : nat) : keepsPatches (getPatch i).
Proof. now apply keepsPatches_same. Qed.

Lemma keepsPatches_log (e : Event) : keepsPatches (log e).
Proof. now apply keepsPatches_same. Qed.

Lemma keepsPatches_setHadConflicts (i : nat) :
  keepsPatches (setHadConflicts i).
Proof. intros st. apply keptPatch_markConflict. Qed.

Lemma keepsPatches_readFile (path : string) : keepsPatches (readFile path).
Proof.
  apply keepsPatches_same. intros st. unfold readFile.
  now destruct (lookupFile path (files st)).
Qed.

Lemma keepsPatches_writeFile (path content : string) :
  keepsPatches (writeFile path content).
Proof. now apply keepsPatches_same. Qed.

Lemma keepsPatches_prompt (validate : string -> bool) :
  keepsPatches (prompt validate).
Proof.
  apply keepsPatches_same. intros st. unfold prompt.
  destruct (promptLoop validate (typed st)) as [[r rest] evs].
  now destruct r.
Qed.

Lemma keepsPatches_forEach {A} (xs : list A) (body : A -> M unit) :
  (forall x, keepsPatches (body x)) -> keepsPatches (forEach xs body).
Proof.
  intros H. induction xs as [|x xs IH]; cbn [forEach].
  - apply keepsPatches_ret.
  - apply keepsPatches_bind; [apply H|intros _; apply IH].
Qed.

Lemma keepsPatches_newListr (todo : list Task) :
  Forall (fun t => keepsPatches (task t)) todo ->
  keepsPatches (newListr todo).
Proof.
  intros H. induction H as [|t todo Ht _ IH]; cbn [newListr].
  - apply keepsPatches_ret.
  - apply keepsPatches_bind; [apply keepsPatches_log|intros _].
    apply keepsPatches_bind; [exact Ht|intros _; exact IH].
Qed.

Section PatchRecords.

Variable shortSha : string -> string.
Variable gitNode :
  list Event -> string -> list string -> option string -> Result string.
Variable gitConfig : list Event -> string -> Result string.

Lemma keepsPatches_execGitNode (cmd : string) (args : list string)
    (input : option string) :
  keepsPatches (execGitNode gitNode cmd args input).
Proof. now apply keepsPatches_same. Qed.

Lemma keepsPatches_getGitConfigEntry (key : string) :
  keepsPatches (getGitConfigEntry gitConfig key).
Proof. now apply keepsPatches_same. Qed.

Lemma applyPatch_keepsPatches (patch : nat) (method : string) :
  keepsPatches (applyPatch gitNode patch method).
Proof.
  unfold applyPatch. apply keepsPatches_tryCatch.
  - apply keepsPatches_bind; [apply keepsPatches_getPatch|intros p].
    apply keepsPatches_bind; [|intros _; apply keepsPatches_ret].
    apply keepsPatches_execGitNode.
  - intros e.
    apply keepsPatches_bind; [apply keepsPatches_setHadConflicts|intros _].
    apply keepsPatches_bind; [|intros answer; apply keepsPatches_ret].
    apply keepsPatches_prompt.
Qed.

Lemma incrementV8Version_keepsPatches :
  keepsPatches (task incrementV8Version).
Proof.
  cbn [task incrementV8Version].
  apply keepsPatches_bind; [now apply keepsPatches_same|intros _].
  apply keepsPatches_bind; [apply keepsPatches_getCtx|intros c].
  apply keepsPatches_bind; [apply keepsPatches_readFile|intros versionH].
  apply keepsPatches_writeFile.
Qed.

Lemma incrementEmbedderVersion_keepsPatches :
  keepsPatches (task (incrementEmbedderVersion gitNode)).
Proof.
  cbn [task incrementEmbedderVersion].
  apply keepsPatches_bind; [apply keepsPatches_getCtx|intros c].
  apply keepsPatches_bind; [apply keepsPatches_readFile|intros commonGypi].
  destruct (search embedderAt commonGypi) as [[[pre group1] post]|].
  - apply keepsPatches_bind; [apply keepsPatches_writeFile|intros _].
    apply keepsPatches_bind; [|intros _; apply keepsPatches_ret].
    apply keepsPatches_execGitNode.
  - apply keepsPatches_throw.
Qed.

Lemma bumpTasks_keepsPatches (bump : option bool) (major : Z) :
  Forall (fun t => keepsPatches (task t)) (bumpTasks gitNode bump major).
Proof.
  unfold bumpTasks. destruct (notFalse bump); [|constructor].
  destruct (major <? 9)%Z.
  - apply Forall_cons; [apply incrementV8Version_keepsPatches|constructor].
  - apply Forall_cons;
      [apply incrementEmbedderVersion_keepsPatches|constructor].
Qed.

Lemma commitTask_keepsPatches (patch : nat)
    (extraArgs : option (list string)) (trailers : option string) :
  keepsPatches (commitTask shortSha gitNode patch extraArgs trailers).
Proof.
  unfold commitTask.
  apply keepsPatches_bind; [apply keepsPatches_getPatch|intros p].
  apply keepsPatches_bind; [apply keepsPatches_execGitNode|intros _].
  apply keepsPatches_bind; [apply keepsPatches_getCtx|intros c].
  apply keepsPatches_bind.
  - destruct extraArgs; now apply keepsPatches_same.
  - intros extra.
    apply keepsPatches_bind; [|intros _; apply keepsPatches_ret].
    apply keepsPatches_execGitNode.
Qed.

Lemma amendHEAD_keepsPatches (patch : nat) :
  keepsPatches (task (amendHEAD shortSha gitNode gitConfig patch)).
Proof.
  cbn [task amendHEAD].
  apply keepsPatches_bind; [apply keepsPatches_getPatch|intros p].
  apply keepsPatches_bind; [|intros coAuthor; apply commitTask_keepsPatches].
  destruct (hadConflicts p); [|apply keepsPatches_ret].
  apply keepsPatches_bind; [apply keepsPatches_getCtx|intros c].
  apply keepsPatches_bind; [apply keepsPatches_execGitNode|intros _].
  apply keepsPatches_bind; [apply keepsPatches_getGitConfigEntry|intros name].
  apply keepsPatches_bind;
    [apply keepsPatches_getGitConfigEntry|intros email].
  apply keepsPatches_ret.
Qed.

Lemma commitSquashedBackport_keepsPatches :
  keepsPatches (task (commitSquashedBackport shortSha gitNode)).
Proof.
  cbn [task commitSquashedBackport].
  apply keepsPatches_bind; [apply keepsPatches_getCtx|intros c].
  apply keepsPatches_bind; [apply keepsPatches_execGitNode|intros _].
  apply keepsPatches_bind; [apply keepsPatches_execGitNode|intros _].
  apply keepsPatches_ret.
Qed.

Lemma applyPatches_keepsPatches :
  keepsPatches (task (applyPatches gitNode)).
Proof.
  cbn [task applyPatches].
  apply keepsPatches_bind; [apply keepsPatches_getCtx|intros c].
  apply keepsPatches_forEach. intros patch.
  apply keepsPatches_discard, applyPatch_keepsPatches.
Qed.

Lemma applyPatchTask_keepsPatches (ps : list Patch) (patch : nat) :
  keepsPatches (task (applyPatchTask shortSha gitNode ps patch)).
Proof.
  cbn [task applyPatchTask].
  apply keepsPatches_bind; [apply keepsPatches_getCtx|intros c].
  apply keepsPatches_newListr. apply Forall_app. split; [|apply Forall_app; split].
  - apply Forall_cons; [|constructor].
    apply keepsPatches_discard, applyPatch_keepsPatches.
  - apply bumpTasks_keepsPatches.
  - apply Forall_cons; [apply commitTask_keepsPatches|constructor].
Qed.

Lemma cherryPickV8CommitTask_keepsPatches (ps : list Patch) (patch : nat) :
  keepsPatches
    (task (cherryPickV8CommitTask shortSha gitNode gitConfig ps patch)).
Proof.
  cbn [task cherryPickV8CommitTask].
  apply keepsPatches_bind; [apply keepsPatches_getCtx|intros c].
  apply keepsPatches_newListr. apply Forall_app. split; [|apply Forall_app; split].
  - apply Forall_cons; [|constructor].
    apply keepsPatches_discard, applyPatch_keepsPatches.
  - apply bumpTasks_keepsPatches.
  - apply Forall_cons; [apply amendHEAD_keepsPatches|constructor].
Qed.

Lemma strategyTodo_keepsPatches (options : Options) (s : Strategy) :
  keepsPatches (newListr (strategyTodo shortSha gitNode gitConfig options s)).
Proof.
  apply keepsPatches_newListr. destruct s; cbn [strategyTodo].
  - apply Forall_app. split; [|apply Forall_app; split].
    + apply Forall_cons; [apply applyPatches_keepsPatches|constructor].
    + apply bumpTasks_keepsPatches.
    + apply Forall_cons;
        [apply commitSquashedBackport_keepsPatches|constructor].
  - apply Forall_cons; [|constructor].
    cbn [task cherryPickV8Commits].
    apply keepsPatches_bind; [apply keepsPatches_getCtx|intros c].
    apply keepsPatches_newListr, Forall_forall. intros t Hin.
    apply in_map_iff in Hin as (patch & <- & _).
    apply cherryPickV8CommitTask_keepsPatches.
  - apply Forall_cons; [|constructor].
    cbn [task applyAndCommitPatches].
    apply keepsPatches_bind; [apply keepsPatches_getCtx|intros c].
    apply keepsPatches_newListr, Forall_forall. intros t Hin.
    apply in_map_iff in Hin as (patch & <- & _).
    apply applyPatchTask_keepsPatches.
Qed.

End PatchRecords.

(** X5: whatever git answers and the operator types, and however the run
    ends, the task list of each of the three strategies leaves
    [ctx.patches] with the same number of patches, each at its place with
    the sha, the diff and the message it had, and clears no [hadConflicts]
    flag that was set. *)
Theorem strategy_keeps_patch_records :
  forall (shortSha : string -> string)
         (gitNode :
            list Event -> string -> list string -> option string ->
            Result string)
         (gitConfig : list Event -> string -> Result string)
         (options : Options) (s : Strategy) (st : State),
    let st' :=
      snd (newListr (strategyTodo shortSha gitNode gitConfig options s) st) in
    length (patches (ctx st')) = length (patches (ctx st))
    /\ forall i,
         sha (patchAt st' i) = sha (patchAt st i)
         /\ data (patchAt st' i) = data (patchAt st i)
         /\ message (patchAt st' i) = message (patchAt st i)
         /\ (hadConflicts (patchAt st i) = true ->
             hadConflicts (patchAt st' i) = true).
Proof.
  intros shortSha gitNode gitConfig options s st st'.
  pose proof (strategyTodo_keepsPatches shortSha gitNode gitConfig
                options s st) as H.
  fold st' in H. split.
  - symmetry. exact (Forall2_length H).
  - intros i. exact (keptPatch_nth _ _ i H).
Qed.

(** ** The commits of the three strategies *)

Section CommitFacts.

Variable shortSha : string -> string.
Variable gitNode :
  list Event -> string -> list string -> option string -> Result string.
Variable gitConfig : list Event -> string -> Result string.

Lemma withEvents_app (st : State) (evs evs' : list Event) :
  withEvents (withEvents st evs) evs' = withEvents st (evs ++ evs').
Proof. unfold withEvents. cbn. now rewrite <- app_assoc. Qed.

Lemma emit_withEvents (st : State) (e : Event) :
  emit e st = withEvents st [e].
Proof. reflexivity. Qed.

Lemma execGitNode_run (st : State) (cmd : string) (args : list string)
    (input : option string) :
  execGitNode gitNode cmd args input st =
  (gitNode (trace st) cmd args input,
   withEvents st [EGitNode cmd args input]).
Proof. reflexivity. Qed.

(** [commitTask] with arguments to spread: the staging, then the commit. *)
Lemma commitTask_run (st : State) (patch : nat) (extra : list string)
    (trailers : option string) (o1 o2 : string) :
  let commit :=
    EGitNode "commit"
      (gpgSign (ctx st) ++ extra ++
       ["-m"; formatMessageTitle shortSha [patchAt st patch];
        "-m"; formatMessageBody shortSha (patchAt st patch) false trailers])
      None in
  gitNode (trace st) "add" ["deps/v8"] None = Ok o1 ->
  gitNode (trace st ++ [stageV8]) "commit"
          (gpgSign (ctx st) ++ extra ++
           ["-m"; formatMessageTitle shortSha [patchAt st patch];
            "-m"; formatMessageBody shortSha (patchAt st patch) false
                                    trailers])
          None = Ok o2 ->
  commitTask shortSha gitNode patch (Some extra) trailers st =
  (Ok tt, withEvents st [stageV8; commit]).
Proof.
  intros commit H1 H2. unfold commitTask, bind, getPatch, getCtx, spread, ret.
  rewrite execGitNode_run, H1. rewrite execGitNode_run.
  cbn [ctx trace withEvents]. unfold patchAt, stageV8 in H2. rewrite H2.
  rewrite withEvents_app. reflexivity.
Qed.

Lemma amendHEAD_clean (st : State) (patch : nat) (o1 o2 : string) :
  hadConflicts (patchAt st patch) = false ->
  gitNode (trace st) "add" ["deps/v8"] None = Ok o1 ->
  gitNode (trace st ++ [stageV8]) "commit"
          (commitArgs shortSha st patch ["--amend"] None) None = Ok o2 ->
  task (amendHEAD shortSha gitNode gitConfig patch) st =
  (Ok tt,
   withEvents st
     [stageV8;
      EGitNode "commit" (commitArgs shortSha st patch ["--amend"] None) None]).
Proof.
  intros Hflag H1 H2. cbn [task amendHEAD].
  unfold bind at 1. unfold getPatch. unfold patchAt in Hflag.
  rewrite Hflag. unfold bind at 1. unfold ret at 1.
  exact (commitTask_run st patch ["--amend"] None o1 o2 H1 H2).
Qed.

Lemma amendHEAD_conflict (st : State) (patch : nat)
    (name email o0 o1 o2 : string) :
  let identity :=
    [amContinue st; EGitConfig "user.name"; EGitConfig "user.email"] in
  let trailers := Some (coAuthorTrailer name email) in
  hadConflicts (patchAt st patch) = true ->
  gitNode (trace st) "am" (gpgSign (ctx st) ++ ["--continue"]) None = Ok o0 ->
  gitConfig (trace st ++ [amContinue st]) "user.name" = Ok name ->
  gitConfig (trace st ++ [amContinue st; EGitConfig "user.name"])
            "user.email" = Ok email ->
  gitNode (trace st ++ identity) "add" ["deps/v8"] None = Ok o1 ->
  gitNode (trace st ++ identity ++ [stageV8]) "commit"
          (commitArgs shortSha st patch ["--amend"] trailers) None = Ok o2 ->
  task (amendHEAD shortSha gitNode gitConfig patch) st =
  (Ok tt,
   withEvents st
     (identity ++
      [stageV8;
       EGitNode "commit" (commitArgs shortSha st patch ["--amend"] trailers)
                None])).
Proof.
  intros identity trailers Hflag H0 Hn He H1 H2. cbn [task amendHEAD].
  unfold bind at 1. unfold getPatch. unfold patchAt in Hflag.
  rewrite Hflag.
  unfold bind at 1. unfold bind at 1. unfold getCtx.
  unfold bind at 1. rewrite execGitNode_run, H0.
  unfold bind at 1. unfold getGitConfigEntry at 1.
  cbn [trace withEvents]. unfold amContinue in Hn. rewrite Hn.
  cbn [mapResult]. unfold bind at 1. unfold getGitConfigEntry at 1.
  cbn [trace emit withEvents]. rewrite <- app_assoc. cbn [app].
  unfold amContinue in He. rewrite He. cbn [mapResult]. unfold ret at 1.
  set (st3 := emit _ (emit _ (withEvents st _))).
  assert (E3 : st3 = withEvents st identity).
  { subst st3 identity. unfold emit, withEvents, amContinue. cbn.
    now rewrite <- !app_assoc. }
  rewrite E3.
  change (Some (nl +:+ "Co-authored-by: " +:+ trim name +:+ " <" +:+
                trim email +:+ ">")) with trailers.
  rewrite (commitTask_run (withEvents st identity) patch ["--amend"]
             trailers o1 o2 H1).
  - now rewrite withEvents_app.
  - cbn [trace withEvents]. rewrite <- app_assoc. exact H2.
Qed.

(** X6: [amendHEAD] after a clean [git am] stages [deps/v8] and amends the
    commit with the title "cherry-pick" and a body without trailer, and asks
    git for nothing else; after a [git am] with conflicts it first runs
    [git am --continue], reads [user.name] and [user.email] from the git
    configuration, and amends with the title "backport" and a body that
    ends with the line [Co-authored-by: <name> <<email>>] built from the
    trimmed answers. *)
Theorem amendHEAD_commit_message :
  forall (st : State) (patch : nat),
    (forall o1 o2,
       hadConflicts (patchAt st patch) = false ->
       gitNode (trace st) "add" ["deps/v8"] None = Ok o1 ->
       gitNode (trace st ++ [stageV8]) "commit"
               (commitArgs shortSha st patch ["--amend"] None) None = Ok o2 ->
       task (amendHEAD shortSha gitNode gitConfig patch) st =
         (Ok tt,
          withEvents st
            [stageV8;
             EGitNode "commit" (commitArgs shortSha st patch ["--amend"] None)
                      None])
       /\ commitArgs shortSha st patch ["--amend"] None =
          gpgSign (ctx st) ++
          ["--amend";
           "-m"; "deps: V8: cherry-pick " +:+
                 shortSha (sha (patchAt st patch));
           "-m"; formatMessageBody shortSha (patchAt st patch) false None])
    /\ (forall name email o0 o1 o2,
          let identity :=
            [amContinue st; EGitConfig "user.name"; EGitConfig "user.email"] in
          let trailers := Some (coAuthorTrailer name email) in
          hadConflicts (patchAt st patch) = true ->
          gitNode (trace st) "am" (gpgSign (ctx st) ++ ["--continue"]) None
            = Ok o0 ->
          gitConfig (trace st ++ [amContinue st]) "user.name" = Ok name ->
          gitConfig (trace st ++ [amContinue st; EGitConfig "user.name"])
                    "user.email" = Ok email ->
          gitNode (trace st ++ identity) "add" ["deps/v8"] None = Ok o1 ->
          gitNode (trace st ++ identity ++ [stageV8]) "commit"
                  (commitArgs shortSha st patch ["--amend"] trailers) None
            = Ok o2 ->
          task (amendHEAD shortSha gitNode gitConfig patch) st =
            (Ok tt,
             withEvents st
               (identity ++
                [stageV8;
                 EGitNode "commit"
                   (commitArgs shortSha st patch ["--amend"] trailers) None]))
          /\ commitArgs shortSha st patch ["--amend"] trailers =
             gpgSign (ctx st) ++
             ["--amend";
              "-m"; "deps: V8: backport " +:+
                    shortSha (sha (patchAt st patch));
              "-m"; formatMessageBody shortSha (patchAt st patch) false None
                    +:+ coAuthorTrailer name email]).
Proof.
  intros st patch. split.
  - intros o1 o2 Hflag H1 H2. split.
    + exact (amendHEAD_clean st patch o1 o2 Hflag H1 H2).
    + unfold commitArgs, formatMessageTitle. cbn [length Nat.eqb existsb nth].
      now rewrite Hflag.
  - intros name email o0 o1 o2 identity trailers Hflag H0 Hn He H1 H2. split.
    + exact (amendHEAD_conflict st patch name email o0 o1 o2
               Hflag H0 Hn He H1 H2).
    + unfold commitArgs, formatMessageTitle. cbn [length Nat.eqb existsb nth].
      rewrite Hflag. cbn [orb app]. do 5 f_equal.
      unfold trailers, formatMessageBody.
      rewrite !append_assoc. reflexivity.
Qed.

End CommitFacts.

Section SquashCommit.

Variable shortSha : string -> string.
Variable gitNode :
  list Event -> string -> list string -> option string -> Result string.

(** X7: [commitSquashedBackport] stages [deps/v8] and then commits with
    exactly the arguments [-m <title> -m <body>] for all the patches: the
    signing arguments of [ctx.gpgSign] are not passed.  A failed staging is
    thrown before any commit is tried, and a failed commit is thrown as it
    is. *)
Theorem commitSquashedBackport_commands :
  forall st : State,
    (forall e,
       gitNode (trace st) "add" ["deps/v8"] None = Throw e ->
       task (commitSquashedBackport shortSha gitNode) st =
       (Throw e, withEvents st [stageV8]))
    /\ (forall o1 e,
          gitNode (trace st) "add" ["deps/v8"] None = Ok o1 ->
          gitNode (trace st ++ [stageV8]) "commit"
                  ["-m"; formatMessageTitle shortSha (patches (ctx st));
                   "-m"; squashedMessageBody shortSha (patches (ctx st))]
                  None = Throw e ->
          task (commitSquashedBackport shortSha gitNode) st =
          (Throw e, withEvents st [stageV8; squashCommit shortSha st]))
    /\ (forall o1 o2,
          gitNode (trace st) "add" ["deps/v8"] None = Ok o1 ->
          gitNode (trace st ++ [stageV8]) "commit"
                  ["-m"; formatMessageTitle shortSha (patches (ctx st));
                   "-m"; squashedMessageBody shortSha (patches (ctx st))]
                  None = Ok o2 ->
          task (commitSquashedBackport shortSha gitNode) st =
          (Ok tt, withEvents st [stageV8; squashCommit shortSha st])).
Proof.
  intros st. split; [|split].
  - intros e H. cbn [task commitSquashedBackport].
    unfold bind, getCtx, execGitNode. now rewrite H.
  - intros o1 e H1 H2. cbn [task commitSquashedBackport].
    unfold bind, getCtx, execGitNode. rewrite H1.
    cbn [trace emit]. unfold stageV8 in H2. rewrite H2.
    unfold emit, withEvents, squashCommit. cbn. now rewrite <- app_assoc.
  - intros o1 o2 H1 H2. cbn [task commitSquashedBackport].
    unfold bind, getCtx, execGitNode. rewrite H1.
    cbn [trace emit]. unfold stageV8 in H2. rewrite H2.
    unfold emit, withEvents, squashCommit, ret. cbn.
    now rewrite <- app_assoc.
Qed.

End SquashCommit.

(** ** The version files that are not as expected *)

Lemma search_nowhere (matchAt : string -> option (string * string))
    (s : string) :
  (forall before rest, s = before +:+ rest -> matchAt rest = None) ->
  search matchAt s = None.
Proof.
  induction s as [|c s IH]; intros H; simpl.
  - now rewrite (H "" "" eq_refl).
  - rewrite (H "" (String c s) eq_refl). rewrite IH; [reflexivity|].
    intros before rest E. apply (H (String c before) rest).
    simpl. now rewrite E.
Qed.

(** X8: when the version header does not exist, the patch-level bump fails
    with the error of the read, but the counter of the context is already
    incremented (the counter being a safe integer, so that [++] adds one);
    when [common.gypi] does not exist, the embedder bump fails with the
    error of the read and has changed nothing.  Neither writes a file nor
    runs a git command. *)
Theorem version_bump_missing_file :
  forall (gitNode :
            list Event -> string -> list string -> option string ->
            Result string)
         (st : State),
    ((currentVersion_patch (ctx st) + 1 <= 2 ^ 53)%N ->
     lookupFile (v8VersionPath (ctx st)) (files st) = None ->
     task incrementV8Version st =
     (Throw (FsError (v8VersionPath (ctx st))), afterFailedRead st))
    /\ (lookupFile (commonGypiPath (ctx st)) (files st) = None ->
        task (incrementEmbedderVersion gitNode) st =
        (Throw (FsError (commonGypiPath (ctx st))),
         withEvents st [ERead (commonGypiPath (ctx st))])).
Proof.
  intros gitNode st. split.
  - intros _ H. cbn [task incrementV8Version].
    unfold bind, modifyCtx, getCtx, readFile, afterFailedRead.
    unfold v8VersionPath in H |- *.
    cbn [ctx files setPatchLevel nodeDir]. rewrite H. reflexivity.
  - intros H. cbn [task incrementEmbedderVersion].
    unfold bind, getCtx, readFile.
    change (pathJoin (nodeDir (ctx st)) "common.gypi")
      with (commonGypiPath (ctx st)).
    rewrite H. reflexivity.
Qed.

(** X9: when [V8_PATCH_LEVEL <digits>] matches nowhere in the version
    header, the patch-level bump writes the header back as it read it and
    ends normally, with the counter of the context incremented (the
    counter being a safe integer, so that [++] adds one); when the
    embedder pattern matches nowhere in [common.gypi], the embedder bump
    throws a [TypeError] after the read: it writes nothing and stages
    nothing. *)
Theorem version_bump_missing_pattern :
  forall (gitNode :
            list Event -> string -> list string -> option string ->
            Result string)
         (st : State),
    (forall versionH,
       (currentVersion_patch (ctx st) + 1 <= 2 ^ 53)%N ->
       lookupFile (v8VersionPath (ctx st)) (files st) = Some versionH ->
       (forall before rest,
          versionH = before +:+ rest -> patchLevelAt rest = None) ->
       task incrementV8Version st =
       (Ok tt, afterPatchLevelBump st versionH))
    /\ (forall commonGypi,
          lookupFile (commonGypiPath (ctx st)) (files st) = Some commonGypi ->
          (forall before rest,
             commonGypi = before +:+ rest -> embedderAt rest = None) ->
          task (incrementEmbedderVersion gitNode) st =
          (Throw (TypeError "Cannot read properties of null (reading '1')"),
           withEvents st [ERead (commonGypiPath (ctx st))])).
Proof.
  intros gitNode st. split.
  - intros versionH _ Hf Hno.
    apply incrementV8Version_absent; [exact Hf|].
    now apply search_nowhere.
  - intros commonGypi Hf Hno.
    rewrite (incrementEmbedderVersion_absent gitNode st commonGypi Hf);
      [reflexivity|].
    now apply search_nowhere.
Qed.

Lemma search_none_everywhere (matchAt : string -> option (string * string))
    (s : string) :
  search matchAt s = None ->
  forall before rest, s = before +:+ rest -> matchAt rest = None.
Proof.
  induction s as [|c s IH]; intros H before rest E.
  - destruct before; simpl in E; [|discriminate]. subst rest.
    now apply search_none.
  - destruct before as [|c' before]; simpl in E.
    + subst rest. now apply search_none.
    + injection E as _ E. apply (IH) with (before := before); [|exact E].
      simpl in H. destruct (matchAt (String c s)) as [[? ?]|]; [discriminate|].
      destruct (search matchAt s) as [[[? ?] ?]|]; [discriminate|reflexivity].
Qed.

(** ** The lines of a commit body *)

Lemma lines_single (s : string) : hasNewline s = false -> lines s = [s].
Proof.
  intros H. rewrite <- (append_nil_r s) at 1.
  rewrite (lines_inline s "" H). cbn. now rewrite append_nil_r.
Qed.

Lemma lines_app_nl (a b : string) :
  lines (a +:+ nl +:+ b) = lines a ++ lines b.
Proof.
  induction a as [|c a IH]; [reflexivity|].
  cbn [String.append lines]. rewrite IH.
  pose proof (lines_nonempty a) as Hne.
  destruct (Ascii.eqb c LF); [reflexivity|].
  destruct (lines a); [contradiction|reflexivity].
Qed.

Lemma lines_nl (b : string) : lines (nl +:+ b) = "" :: lines b.
Proof. reflexivity. Qed.

(** Replacing every line feed by a line feed and [pad] puts [pad] in front
    of every line but the first. *)
Lemma lines_indent (pad m : string) :
  hasNewline pad = false ->
  lines (replaceNewlines (nl +:+ pad) m) =
  hd "" (lines m) :: map (String.append pad) (tl (lines m)).
Proof.
  intros Hpad. induction m as [|c m IH]; [reflexivity|].
  cbn [replaceNewlines lines]. pose proof (lines_nonempty m) as Hne.
  destruct (Ascii.eqb c LF) eqn:E.
  - change ((nl +:+ pad) +:+ replaceNewlines (nl +:+ pad) m)
      with (String LF (pad +:+ replaceNewlines (nl +:+ pad) m)).
    cbn [lines]. change (Ascii.eqb LF LF) with true. cbn iota.
    rewrite (lines_inline pad _ Hpad), IH.
    destruct (lines m); [contradiction|reflexivity].
  - cbn [lines]. rewrite E, IH.
    destruct (lines m); [contradiction|reflexivity].
Qed.

Lemma lines_indented (pad m : string) :
  hasNewline pad = false ->
  lines (pad +:+ replaceNewlines (nl +:+ pad) m) =
  map (String.append pad) (lines m).
Proof.
  intros Hpad. rewrite (lines_inline pad _ Hpad), (lines_indent pad m Hpad).
  pose proof (lines_nonempty m). destruct (lines m); [contradiction|].
  reflexivity.
Qed.

(** X10: the lines of the body of a patch are the header, an empty line,
    the lines of the original message in their order, each behind four
    spaces, an empty line, and the Refs line with the sha; with
    [prefixTitle] the action line comes before them.  (The sha and its
    short form hold no line feed.) *)
Theorem formatMessageBody_lines :
  forall (shortSha : string -> string) (p : Patch),
    hasNewline (sha p) = false ->
    hasNewline (shortSha (sha p)) = false ->
    lines (formatMessageBody shortSha p false None) =
      ["Original commit message:"; ""] ++
      map (String.append "    ") (lines (message p)) ++
      [""; "Refs: https://github.com/v8/v8/commit/" +:+ sha p]
    /\ lines (formatMessageBody shortSha p true None) =
       ((if hadConflicts p then "Backport" else "Cherry-pick") +:+ " " +:+
        shortSha (sha p) +:+ ".") ::
       lines (formatMessageBody shortSha p false None).
Proof.
  intros shortSha p Hsha Hshort.
  assert (Hbody : lines (formatMessageBody shortSha p false None) =
      ["Original commit message:"; ""] ++
      map (String.append "    ") (lines (message p)) ++
      [""; "Refs: https://github.com/v8/v8/commit/" +:+ sha p]).
  { unfold formatMessageBody.
    rewrite (lines_app_nl "Original commit message:").
    rewrite lines_nl.
    rewrite <- (append_assoc "    ").
    rewrite (lines_app_nl ("    " +:+ _)).
    rewrite lines_nl.
    rewrite (lines_indented "    " (message p) eq_refl).
    rewrite append_nil_r.
    rewrite (lines_single ("Refs: https://github.com/v8/v8/commit/" +:+ sha p)).
    - reflexivity.
    - rewrite hasNewline_app. now rewrite Hsha. }
  split; [exact Hbody|].
  assert (E : formatMessageBody shortSha p true None =
              ((if hadConflicts p then "Backport" else "Cherry-pick") +:+
               " " +:+ shortSha (sha p) +:+ ".") +:+ nl +:+
              formatMessageBody shortSha p false None).
  { unfold formatMessageBody. now rewrite !append_assoc. }
  rewrite E, lines_app_nl, lines_single; [reflexivity|].
  rewrite !hasNewline_app, Hshort. now destruct (hadConflicts p).
Qed.

(** ** Bumps that follow one another *)

Lemma strlen_app (s t : string) :
  String.length (s +:+ t) = String.length s + String.length t.
Proof. induction s; simpl; auto. Qed.

Lemma stripPrefix_app_self (p r : string) : stripPrefix p (p +:+ r) = Some r.
Proof.
  induction p as [|c p IH]; simpl; [reflexivity|].
  now rewrite Ascii.eqb_refl.
Qed.

(** A prefix no longer than [u] is looked for in [u] alone. *)
Lemma stripPrefix_extend (p u v : string) :
  String.length p <= String.length u ->
  stripPrefix p (u +:+ v) =
  match stripPrefix p u with
  | Some r => Some (r +:+ v)
  | None => None
  end.
Proof.
  revert u. induction p as [|a p IH]; intros u H; simpl; [reflexivity|].
  destruct u as [|b u]; simpl in *; [lia|].
  destruct (Ascii.eqb a b); [|reflexivity]. apply IH. lia.
Qed.

(** The digits at the start of a text that holds another character are
    the same whatever follows the text. *)
Lemma spanDigits_extend (u v : string) :
  allDigits u = false ->
  spanDigits (u +:+ v) = (fst (spanDigits u), snd (spanDigits u) +:+ v).
Proof.
  induction u as [|c u IH]; simpl; [discriminate|].
  destruct (isDigit c) eqn:E; simpl; [|reflexivity].
  intros H. rewrite (IH H). now destruct (spanDigits u).
Qed.

Lemma spanDigits_digits (d r : string) :
  allDigits d = true -> startsWithDigit r = false ->
  spanDigits (d +:+ r) = (d, r).
Proof.
  intros Hd Hr. induction d as [|c d IH]; simpl in *.
  - destruct r as [|c r]; [reflexivity|]. simpl in *. now rewrite Hr.
  - apply andb_prop in Hd as [Hc Hd]. now rewrite Hc, (IH Hd).
Qed.

Lemma lastChar_app (x r : string) :
  r <> "" -> lastChar (x +:+ r) = lastChar r.
Proof.
  intros Hr. induction x as [|c x IH]; [reflexivity|].
  cbn [String.append lastChar]. rewrite IH.
  destruct (x +:+ r) eqn:E; [|reflexivity].
  destruct x; simpl in E; [contradiction|discriminate].
Qed.

Lemma endsOffDigits_app (x key : string) :
  endsOffDigits key -> endsOffDigits (x +:+ key).
Proof.
  intros (c & Hc & Hd). exists c. split; [|exact Hd].
  rewrite lastChar_app; [exact Hc|]. intros ->. discriminate.
Qed.

Lemma endsOffDigits_not_allDigits (s : string) :
  endsOffDigits s -> allDigits s = false.
Proof.
  intros (c & Hc & Hd). induction s as [|a s IH]; [discriminate|].
  simpl. destruct s as [|b s].
  - injection Hc as ->. now rewrite Hd.
  - rewrite (IH Hc). apply andb_false_r.
Qed.

Lemma endsOffDigits_rest (key u r : string) :
  u = key +:+ r -> String.length key < String.length u ->
  endsOffDigits u -> endsOffDigits r.
Proof.
  intros -> Hlen (c & Hc & Hd). exists c. split; [|exact Hd].
  rewrite lastChar_app in Hc; [exact Hc|].
  intros ->. rewrite strlen_app in Hlen. simpl in Hlen. lia.
Qed.

(** Whether and how the patch-level pattern matches at the start of a text
    is decided by a prefix of the text that is longer than the key and
    ends off the digits. *)
Lemma patchLevelAt_extend (u v : string) :
  String.length "V8_PATCH_LEVEL " < String.length u ->
  endsOffDigits u ->
  patchLevelAt (u +:+ v) =
  match patchLevelAt u with
  | Some (ds, post) => Some (ds, post +:+ v)
  | None => None
  end.
Proof.
  intros Hlen Hend. unfold patchLevelAt.
  rewrite stripPrefix_extend by lia.
  destruct (stripPrefix "V8_PATCH_LEVEL " u) as [r|] eqn:E; [|reflexivity].
  pose proof (stripPrefix_sound _ _ _ E) as Hu.
  pose proof (endsOffDigits_rest _ _ _ Hu Hlen Hend) as Hr.
  rewrite (spanDigits_extend r v (endsOffDigits_not_allDigits r Hr)).
  destruct (spanDigits r) as [d r2]. cbn [fst snd].
  now destruct (isEmpty d).
Qed.

Lemma embedderAt_extend (u v : string) :
  String.length embedderKey < String.length u ->
  endsOffDigits u ->
  embedderAt (u +:+ v) =
  match embedderAt u with
  | Some (ds, post) => Some (ds, post +:+ v)
  | None => None
  end.
Proof.
  intros Hlen Hend. unfold embedderAt.
  rewrite stripPrefix_extend by lia.
  destruct (stripPrefix embedderKey u) as [r|] eqn:E; [|reflexivity].
  pose proof (stripPrefix_sound _ _ _ E) as Hu.
  pose proof (endsOffDigits_rest _ _ _ Hu Hlen Hend) as Hr.
  pose proof (endsOffDigits_not_allDigits r Hr) as Hnd.
  rewrite (spanDigits_extend r v Hnd).
  destruct (spanDigits r) as [d r2] eqn:Es. cbn [fst snd].
  destruct (isEmpty d); [reflexivity|].
  apply spanDigits_sound in Es. destruct Es as (Hr2 & Hd & _).
  assert (Hlen2 : String.length "'" <= String.length r2).
  { destruct r2; [|simpl; lia]. rewrite append_nil_r in Hr2. congruence. }
  rewrite (stripPrefix_extend "'" r2 v Hlen2).
  now destruct (stripPrefix "'" r2).
Qed.

Lemma search_complete (matchAt : string -> option (string * string))
    (pre matched g post : string) :
  matchAt matched = Some (g, post) ->
  (forall a b, pre = a +:+ b -> b <> "" -> matchAt (b +:+ matched) = None) ->
  search matchAt (pre +:+ matched) = Some (pre, g, post).
Proof.
  intros Hm. induction pre as [|c pre IH]; intros Hno.
  - cbn [String.append]. destruct matched; simpl; now rewrite Hm.
  - assert (H0 : matchAt (String c pre +:+ matched) = None)
      by (apply (Hno "" (String c pre)); [reflexivity|discriminate]).
    cbn [String.append] in H0. cbn [String.append search].
    rewrite H0, IH; [reflexivity|].
    intros a b E Hb. apply (Hno (String c a) b); [|exact Hb].
    simpl. now rewrite E.
Qed.

Lemma ofN_not_empty (n : N) : isEmpty (ofN n) = false.
Proof.
  unfold ofN. destruct n as [|p]; [reflexivity|].
  cbn [N.to_uint].
  pose proof (DecimalPos.Unsigned.to_uint_nonnil p) as H.
  now destruct (Pos.to_uint p).
Qed.

Lemma ofN_digits (n : N) : allDigits (ofN n) = true.
Proof. apply string_of_uint_digits. Qed.

(** The header that a patch-level bump wrote has the pattern at the same
    place, with the number that was written. *)
Lemma patchLevel_written_found (versionH pre ds post : string) (n : N) :
  search patchLevelAt versionH = Some (pre, ds, post) ->
  search patchLevelAt (bumpedVersionH pre n post) = Some (pre, ofN n, post).
Proof.
  intros Hs.
  destruct (search_sound _ _ _ _ _ Hs) as (m & Hm & Hat).
  destruct (patchLevelAt_sound _ _ _ Hat) as (-> & Hds & _ & Hpost).
  unfold bumpedVersionH. apply search_complete.
  - unfold patchLevelAt. rewrite stripPrefix_app_self.
    rewrite (spanDigits_digits _ _ (ofN_digits n) Hpost).
    now rewrite ofN_not_empty.
  - intros a b Hab Hb.
    assert (Hleft : patchLevelAt
                      ((b +:+ "V8_PATCH_LEVEL ") +:+ ds +:+ post) = None).
    { apply (search_leftmost _ _ _ _ _ Hs a b); [exact Hab|exact Hb|].
      rewrite Hm, Hab. now rewrite !append_assoc. }
    assert (Hu : String.length "V8_PATCH_LEVEL " <
                 String.length (b +:+ "V8_PATCH_LEVEL ")).
    { rewrite strlen_app. destruct b; [contradiction|]. simpl. lia. }
    assert (He : endsOffDigits (b +:+ "V8_PATCH_LEVEL ")).
    { apply endsOffDigits_app. exists " "%char. split; reflexivity. }
    rewrite <- append_assoc.
    rewrite (patchLevelAt_extend _ (ds +:+ post) Hu He) in Hleft.
    rewrite (patchLevelAt_extend _ (ofN n +:+ post) Hu He).
    destruct (patchLevelAt (b +:+ "V8_PATCH_LEVEL ")) as [[d r]|];
      [discriminate|reflexivity].
Qed.

(** The build configuration that an embedder bump wrote has the pattern at
    the same place, with the number that was written. *)
Lemma embedder_written_found (commonGypi pre ds post : string) (n : N) :
  search embedderAt commonGypi = Some (pre, ds, post) ->
  search embedderAt (bumpedGypi pre n post) = Some (pre, ofN n, post).
Proof.
  intros Hs.
  destruct (search_sound _ _ _ _ _ Hs) as (m & Hm & Hat).
  destruct (embedderAt_sound _ _ _ Hat) as (-> & Hds & _).
  unfold bumpedGypi. apply search_complete.
  - unfold embedderAt. rewrite stripPrefix_app_self.
    rewrite (spanDigits_digits (ofN n) ("'" +:+ post) (ofN_digits n) eq_refl).
    rewrite ofN_not_empty. now rewrite (stripPrefix_app_self "'" post).
  - intros a b Hab Hb.
    assert (Hleft : embedderAt
                      ((b +:+ embedderKey) +:+ ds +:+ "'" +:+ post) = None).
    { apply (search_leftmost _ _ _ _ _ Hs a b); [exact Hab|exact Hb|].
      rewrite Hm, Hab. now rewrite !append_assoc. }
    assert (Hu : String.length embedderKey <
                 String.length (b +:+ embedderKey)).
    { rewrite strlen_app. destruct b; [contradiction|]. simpl. lia. }
    assert (He : endsOffDigits (b +:+ embedderKey)).
    { apply endsOffDigits_app. exists "."%char. split; reflexivity. }
    rewrite <- append_assoc.
    rewrite (embedderAt_extend _ (ds +:+ "'" +:+ post) Hu He) in Hleft.
    rewrite (embedderAt_extend _ (ofN n +:+ "'" +:+ post) Hu He).
    destruct (embedderAt (b +:+ embedderKey)) as [[d r]|];
      [discriminate|reflexivity].
Qed.

Lemma lookupFile_written (path content : string)
    (fs : list (string * string)) :
  lookupFile path ((path, content) :: fs) = Some content.
Proof. simpl. now rewrite String.eqb_refl. Qed.

Lemma times_succ (n : nat) (m : M unit) (st st1 : State) :
  m st = (Ok tt, st1) -> times (S n) m st = times n m st1.
Proof. intros H. cbn [times]. unfold bind. now rewrite H. Qed.

Lemma patch_level_bumps (n : nat) :
  forall (st : State) (versionH pre ds post : string),
    lookupFile (v8VersionPath (ctx st)) (files st) = Some versionH ->
    search patchLevelAt versionH = Some (pre, ds, post) ->
    let run := times (S n) (task incrementV8Version) st in
    let level := (currentVersion_patch (ctx st) + N.of_nat (S n))%N in
    fst run = Ok tt
    /\ lookupFile (v8VersionPath (ctx st)) (files (snd run)) =
       Some (bumpedVersionH pre level post)
    /\ currentVersion_patch (ctx (snd run)) = level.
Proof.
  induction n as [|n IH]; intros st versionH pre ds post Hf Hs run level.
  - destruct (patch_level_bump_rewrites st versionH pre ds post Hf Hs)
      as (_ & _ & Hrun & _).
    subst run level. rewrite (times_succ 0 _ st _ Hrun). cbn [times ret fst snd].
    split; [reflexivity|]. split; [apply lookupFile_written|reflexivity].
  - destruct (patch_level_bump_rewrites st versionH pre ds post Hf Hs)
      as (_ & _ & Hrun & _).
    set (st1 := afterPatchLevelBump st
                  (bumpedVersionH pre (currentVersion_patch (ctx st) + 1)
                                  post)) in *.
    assert (Hf1 : lookupFile (v8VersionPath (ctx st1)) (files st1) =
                  Some (bumpedVersionH pre (currentVersion_patch (ctx st) + 1)
                                       post))
      by apply lookupFile_written.
    pose proof (patchLevel_written_found versionH pre ds post
                  (currentVersion_patch (ctx st) + 1) Hs) as Hs1.
    destruct (IH st1 _ pre _ post Hf1 Hs1) as (Hok & Hfile & Hlevel).
    subst run level. rewrite (times_succ (S n) _ st st1 Hrun).
    assert (E : (currentVersion_patch (ctx st1) + N.of_nat (S n) =
                 currentVersion_patch (ctx st) + N.of_nat (S (S n)))%N).
    { change (currentVersion_patch (ctx st1))
        with (currentVersion_patch (ctx st) + 1)%N. lia. }
    rewrite E in Hfile, Hlevel. split; [exact Hok|].
    split; [exact Hfile|exact Hlevel].
Qed.

Section EmbedderBumps.

Variable gitNode :
  list Event -> string -> list string -> option string -> Result string.

Hypothesis staging_succeeds :
  forall tr, exists out, gitNode tr "add" ["common.gypi"] None = Ok out.

Lemma embedder_bumps (n : nat) :
  forall (st : State) (commonGypi pre ds post : string),
    lookupFile (commonGypiPath (ctx st)) (files st) = Some commonGypi ->
    search embedderAt commonGypi = Some (pre, ds, post) ->
    let run := times (S n) (task (incrementEmbedderVersion gitNode)) st in
    fst run = Ok tt
    /\ lookupFile (commonGypiPath (ctx st)) (files (snd run)) =
       Some (bumpedGypi pre (parseInt10 ds + N.of_nat (S n)) post).
Proof.
  induction n as [|n IH]; intros st commonGypi pre ds post Hf Hs run.
  - destruct (staging_succeeds
                (gypiRewritten st (bumpedGypi pre (parseInt10 ds + 1) post)))
      as [out Hadd].
    destruct (embedder_bump_rewrites gitNode st commonGypi pre ds post out
                Hf Hs Hadd) as (_ & _ & _ & Hrun).
    subst run. rewrite (times_succ 0 _ st _ Hrun). cbn [times ret fst snd].
    split; [reflexivity|]. apply lookupFile_written.
  - destruct (staging_succeeds
                (gypiRewritten st (bumpedGypi pre (parseInt10 ds + 1) post)))
      as [out Hadd].
    destruct (embedder_bump_rewrites gitNode st commonGypi pre ds post out
                Hf Hs Hadd) as (_ & _ & _ & Hrun).
    set (st1 := afterEmbedderBump st
                  (bumpedGypi pre (parseInt10 ds + 1) post)) in *.
    assert (Hf1 : lookupFile (commonGypiPath (ctx st1)) (files st1) =
                  Some (bumpedGypi pre (parseInt10 ds + 1) post))
      by apply lookupFile_written.
    pose proof (embedder_written_found commonGypi pre ds post
                  (parseInt10 ds + 1) Hs) as Hs1.
    destruct (IH st1 _ pre _ post Hf1 Hs1) as (Hok & Hfile).
    subst run. rewrite (times_succ (S n) _ st st1 Hrun).
    rewrite parseInt10_ofN in Hfile.
    assert (E : (parseInt10 ds + 1 + N.of_nat (S n) =
                 parseInt10 ds + N.of_nat (S (S n)))%N) by lia.
    rewrite E in Hfile. split; [exact Hok|exact Hfile].
Qed.

End EmbedderBumps.

(** X11: embedder bumps that follow one another add up: when the pattern
    is in [common.gypi] with the number [<N>] and the staging succeeds, [k]
    bumps (one or more) end normally and leave [-node.<N+k>] at the place
    of the pattern, the text around it being the same: each bump finds what
    the one before wrote.  The numbers are safe integers. *)
Theorem embedder_bumps_add_up :
  forall (gitNode :
            list Event -> string -> list string -> option string ->
            Result string)
         (k : nat) (st : State) (commonGypi pre ds post : string),
    (forall tr, exists out, gitNode tr "add" ["common.gypi"] None = Ok out) ->
    lookupFile (commonGypiPath (ctx st)) (files st) = Some commonGypi ->
    search embedderAt commonGypi = Some (pre, ds, post) ->
    (parseInt10 ds + N.of_nat (S k) <= 2 ^ 53)%N ->
    let run := times (S k) (task (incrementEmbedderVersion gitNode)) st in
    commonGypi = pre +:+ embedderKey +:+ ds +:+ "'" +:+ post
    /\ fst run = Ok tt
    /\ lookupFile (commonGypiPath (ctx st)) (files (snd run)) =
       Some (pre +:+ embedderKey +:+ ofN (parseInt10 ds + N.of_nat (S k))
                 +:+ "'" +:+ post).
Proof.
  intros gitNode k st commonGypi pre ds post Hadd Hf Hs _ run.
  destruct (search_sound _ _ _ _ _ Hs) as (m & Hm & Hat).
  destruct (embedderAt_sound _ _ _ Hat) as (-> & _ & _).
  split; [exact Hm|].
  exact (embedder_bumps gitNode Hadd k st commonGypi pre ds post Hf Hs).
Qed.

(** X12: patch-level bumps that follow one another add up, and the number
    in the file is never read: when the pattern is in the version header,
    [k] bumps (one or more) end normally, the counter of the context is
    the counter before plus [k], and the header has that counter at the
    place of the pattern, whatever digits it had there before.  The
    counters are safe integers. *)
Theorem patch_level_bumps_add_up :
  forall (k : nat) (st : State) (versionH pre ds post : string),
    lookupFile (v8VersionPath (ctx st)) (files st) = Some versionH ->
    search patchLevelAt versionH = Some (pre, ds, post) ->
    (currentVersion_patch (ctx st) + N.of_nat (S k) <= 2 ^ 53)%N ->
    let run := times (S k) (task incrementV8Version) st in
    let level := (currentVersion_patch (ctx st) + N.of_nat (S k))%N in
    versionH = pre +:+ "V8_PATCH_LEVEL " +:+ ds +:+ post
    /\ fst run = Ok tt
    /\ lookupFile (v8VersionPath (ctx st)) (files (snd run)) =
       Some (pre +:+ "V8_PATCH_LEVEL " +:+ ofN level +:+ post)
    /\ currentVersion_patch (ctx (snd run)) = level.
Proof.
  intros k st versionH pre ds post Hf Hs _ run level.
  destruct (search_sound _ _ _ _ _ Hs) as (m & Hm & Hat).
  destruct (patchLevelAt_sound _ _ _ Hat) as (-> & _ & _ & _).
  split; [exact Hm|].
  exact (patch_level_bumps k st versionH pre ds post Hf Hs).
Qed.

(** ** A failed fetch *)

Lemma length_mapi {A B} (f : nat -> A -> B) (k : nat) (l : list A) :
  length (mapi f k l) = length l.
Proof. revert k. induction l; intros k; simpl; auto. Qed.

Lemma in_mapi {A B} (f : nat -> A -> B) (k : nat) (l : list A) (x : A) :
  In x l -> exists i, In (f i x) (mapi f k l).
Proof.
  revert k. induction l as [|y l IH]; intros k; [intros []|].
  intros [->|H].
  - exists k. now left.
  - destruct (IH (S k) H) as [i Hi]. exists i. now right.
Qed.

Lemma fetchPatch_rejected (gitV8 : list string -> Result string)
    (schedPair : nat -> list nat) (i : nat) (sha : string) (e : Err) :
  Permutation (schedPair i) [0; 1] ->
  In (Throw e) (map gitV8 (fetchArgs sha)) ->
  exists e', fetchPatch gitV8 schedPair i sha = Throw e'.
Proof.
  intros Hperm Hin. unfold fetchPatch.
  destruct (promiseAll_rejected (schedPair i) (map gitV8 (fetchArgs sha)) e
              Hperm Hin) as (e' & -> & _).
  now exists e'.
Qed.

(** X14: when the references resolve but the diff or the message of one of
    the commits cannot be fetched, [generatePatches] fails, whatever the
    order in which the queries settle: every query was started, and the
    context is as before, so that no partial list of patches is stored in
    [ctx.patches]. *)
Theorem generatePatches_failed_fetch :
  forall (gitV8 : list string -> Result string)
         (schedRevParse schedFetch : list nat) (schedPair : nat -> list nat)
         (st : State) (full : string -> string) (ref : string) (e : Err),
    Permutation schedRevParse (seq 0 (length (ctx_sha (ctx st)))) ->
    Permutation schedFetch (seq 0 (length (ctx_sha (ctx st)))) ->
    (forall i, Permutation (schedPair i) [0; 1]) ->
    (forall r, In r (ctx_sha (ctx st)) ->
       gitV8 ["rev-parse"; r] = Ok (full r)) ->
    In ref (ctx_sha (ctx st)) ->
    In (Throw e) (map gitV8 (fetchArgs (trim (full ref)))) ->
    exists e',
      task (generatePatches gitV8 schedRevParse schedFetch schedPair) st =
      (Throw e',
       afterFetches st (map (fun r => trim (full r)) (ctx_sha (ctx st)))).
Proof.
  intros gitV8 schedRevParse schedFetch schedPair st full ref e
         Hs1 Hs2 Hpair Hfull Hin Hfail.
  set (fullShas := map (fun r => trim (full r)) (ctx_sha (ctx st))).
  assert (E1 : map (revParse gitV8) (ctx_sha (ctx st)) = map Ok fullShas).
  { unfold fullShas. rewrite map_map. apply map_ext_in. intros r Hr.
    unfold revParse. now rewrite (Hfull r Hr). }
  assert (Hin' : In (trim (full ref)) fullShas)
    by (unfold fullShas; apply in_map_iff; eauto).
  destruct (in_mapi (fetchPatch gitV8 schedPair) 0 fullShas _ Hin')
    as [i Hi].
  destruct (fetchPatch_rejected gitV8 schedPair i _ e (Hpair i) Hfail)
    as [e1 He1].
  rewrite He1 in Hi.
  assert (Hperm : Permutation schedFetch
                    (seq 0 (length (mapi (fetchPatch gitV8 schedPair) 0
                                         fullShas)))).
  { rewrite length_mapi. unfold fullShas. now rewrite length_map. }
  destruct (promiseAll_rejected schedFetch _ e1 Hperm Hi) as (e' & Hall & _).
  exists e'.
  unfold generatePatches. cbn [task]. unfold bind at 1. unfold getCtx.
  unfold bind at 1. rewrite logAll_run.
  unfold bind at 1. unfold liftResult at 1.
  rewrite E1, promiseAll_fulfilled
    by (unfold fullShas; now rewrite length_map).
  unfold bind at 1. rewrite logAll_run.
  unfold bind at 1. unfold liftResult. rewrite Hall.
  unfold afterFetches, withEvents. cbn [ctx files confirms typed trace].
  now rewrite <- app_assoc.
Qed.

(** ** A squash without bump *)

Section NoBump.

Variable shortSha : string -> string.
Variable gitNode :
  list Event -> string -> list string -> option string -> Result string.
Variable gitConfig : list Event -> string -> Result string.

Lemma applyPatch_notBump (patch : nat) :
  emitsOnly notBumpEvent (applyPatch gitNode patch "apply").
Proof.
  unfold applyPatch. apply emitsOnly_tryCatch.
  - apply emitsOnly_bind; [apply emitsOnly_getPatch|intros p].
    apply emitsOnly_bind; [|intros _; apply emitsOnly_ret].
    now apply emitsOnly_execGitNode.
  - intros e. apply emitsOnly_bind; [apply emitsOnly_setHadConflicts|].
    intros _. apply emitsOnly_bind; [|intros answer; apply emitsOnly_ret].
    now apply emitsOnly_prompt.
Qed.

Lemma filter_bump_events (evs : list Event) :
  forallb notBumpEvent evs = true -> filter isBumpEvent evs = [].
Proof.
  induction evs as [|e evs IH]; [reflexivity|]. cbn [forallb filter].
  intros H. apply andb_prop in H as [He Hevs].
  unfold notBumpEvent in He. apply negb_true_iff in He. rewrite He.
  now apply IH.
Qed.

(** X13: with [bump: false] in the options, the task list of the squash
    strategy reads and writes no file and does not stage [common.gypi],
    whatever git answers and the operator types: the version files are
    left to the operator. *)
Theorem squash_without_bump_edits_no_version :
  forall (options : Options) (st : State),
    opt_bump options = Some false ->
    filter isBumpEvent
      (trace (snd (newListr (strategyTodo shortSha gitNode gitConfig options
                                          Squash) st))) =
    filter isBumpEvent (trace st).
Proof.
  intros options st Hbump.
  assert (E : emitsOnly notBumpEvent
                (newListr (strategyTodo shortSha gitNode gitConfig options
                                        Squash))).
  { cbn [strategyTodo]. unfold bumpTasks. rewrite Hbump. cbn [notFalse app].
    apply emitsOnly_newListr; [reflexivity|].
    constructor; [|constructor; [|constructor]].
    - cbn [task applyPatches].
      apply emitsOnly_bind; [apply emitsOnly_getCtx|intros c].
      apply emitsOnly_forEach. intros patch.
      apply emitsOnly_discard, applyPatch_notBump.
    - cbn [task commitSquashedBackport].
      apply emitsOnly_bind; [apply emitsOnly_getCtx|intros c].
      apply emitsOnly_bind; [now apply emitsOnly_execGitNode|intros _].
      apply emitsOnly_bind; [now apply emitsOnly_execGitNode|intros _].
      apply emitsOnly_ret. }
  destruct (E st) as (_ & evs & Ht & Hok).
  now rewrite Ht, filter_app, (filter_bump_events evs Hok), app_nil_r.
Qed.

End NoBump.

(** ** The further properties at a concrete run *)

Lemma generatePatches_unresolved_reference_witness :
  task (generatePatches Demo.gitV8Unknown [1; 0] [0; 1] (fun _ => [1; 0]))
       (Demo.state0 None 20%Z) =
  (Throw (CommandFailed "fatal: bad revision"),
   afterRevParse (Demo.state0 None 20%Z)).
Proof.
  destruct (generatePatches_unresolved_reference
              Demo.gitV8Unknown [1; 0] [0; 1] (fun _ => [1; 0])
              (Demo.state0 None 20%Z) "a51f429772d1"
              (CommandFailed "fatal: bad revision"))
    as (e' & ref' & Hrun & Hin & He').
  - apply perm_swap.
  - right. now left.
  - reflexivity.
  - rewrite Hrun. f_equal. f_equal.
    destruct Hin as [<-|[<-|[]]]; cbn in He'; congruence.
Defined.

Lemma squash_commits_once_witness :
  topology
    (trace (snd (newListr
                   (strategyTodo Demo.shortSha Demo.gitNodeConflict
                                 Demo.gitConfig (Demo.options0 true false)
                                 Squash)
                   Demo.stateReady))) =
  [SApply "apply" "diff 1"; SApply "apply" "diff 2"; SCommit false].
Proof.
  set (run := newListr _ Demo.stateReady).
  assert (E : run = (Ok tt, snd run)) by (vm_compute; reflexivity).
  rewrite (squash_commits_once Demo.shortSha Demo.gitNodeConflict
             Demo.gitConfig (Demo.options0 true false) Demo.stateReady
             (snd run) E).
  reflexivity.
Defined.

Lemma preserve_author_amends_each_commit_witness :
  topology
    (trace (snd (newListr
                   (strategyTodo Demo.shortSha Demo.gitNodeConflict
                                 Demo.gitConfig (Demo.options0 false true)
                                 PreserveAuthor)
                   Demo.stateReady))) =
  [SApply "am" "diff 1"; SCommit true; SApply "am" "diff 2"; SCommit true].
Proof.
  set (run := newListr _ Demo.stateReady).
  assert (E : run = (Ok tt, snd run)) by (vm_compute; reflexivity).
  rewrite (preserve_author_amends_each_commit Demo.shortSha
             Demo.gitNodeConflict Demo.gitConfig (Demo.options0 false true)
             Demo.stateReady (snd run) E).
  reflexivity.
Defined.

Lemma amendHEAD_commit_message_witness :
  task (amendHEAD Demo.shortSha Demo.gitNodeClean Demo.gitConfig 0)
       Demo.stateConflicted =
  (Ok tt,
   withEvents Demo.stateConflicted
     [EGitNode "am" ["--continue"] None;
      EGitConfig "user.name"; EGitConfig "user.email";
      stageV8;
      EGitNode "commit"
        ["--amend";
         "-m"; "deps: V8: backport 4c074516397b";
         "-m";
         formatMessageBody Demo.shortSha Demo.patch1 false None +:+ nl +:+
         "Co-authored-by: Jane user.name <Jane user.email>"]
        None]).
Proof.
  destruct (amendHEAD_commit_message Demo.shortSha Demo.gitNodeClean
              Demo.gitConfig Demo.stateConflicted 0) as (_ & Hconflict).
  destruct (Hconflict ("Jane user.name" +:+ nl) ("Jane user.email" +:+ nl)
              "" "" "" eq_refl eq_refl eq_refl eq_refl eq_refl eq_refl)
    as (Hrun & _).
  rewrite Hrun. reflexivity.
Defined.

Lemma commitSquashedBackport_commands_witness :
  task (commitSquashedBackport Demo.shortSha Demo.gitNodeMissing)
       Demo.stateReady =
  (Throw (CommandFailed "spawn git ENOENT"),
   withEvents Demo.stateReady [stageV8]).
Proof.
  destruct (commitSquashedBackport_commands Demo.shortSha Demo.gitNodeMissing
              Demo.stateReady) as (Hfail & _).
  exact (Hfail _ eq_refl).
Defined.

Lemma version_bump_missing_file_witness :
  task incrementV8Version Demo.stateBare =
    (Throw (FsError "/node/deps/v8/include/v8-version.h"),
     afterFailedRead Demo.stateBare)
  /\ currentVersion_patch (ctx (afterFailedRead Demo.stateBare)) = 13%N.
Proof.
  assert (H13 : (12 + 1 <= 2 ^ 53)%N) by (vm_compute; discriminate).
  destruct (version_bump_missing_file Demo.gitNodeClean Demo.stateBare)
    as (Hlevel & _).
  split; [exact (Hlevel H13 eq_refl)|reflexivity].
Defined.

Lemma version_bump_missing_pattern_witness :
  task incrementV8Version Demo.stateOther =
    (Ok tt, afterPatchLevelBump Demo.stateOther Demo.versionHOther)
  /\ task (incrementEmbedderVersion Demo.gitNodeClean) Demo.stateOther =
     (Throw (TypeError "Cannot read properties of null (reading '1')"),
      withEvents Demo.stateOther [ERead "/node/common.gypi"]).
Proof.
  assert (H13 : (12 + 1 <= 2 ^ 53)%N) by (vm_compute; discriminate).
  destruct (version_bump_missing_pattern Demo.gitNodeClean Demo.stateOther)
    as (Hlevel & Hembedder).
  split.
  - apply (Hlevel Demo.versionHOther H13 eq_refl).
    apply search_none_everywhere. reflexivity.
  - apply (Hembedder Demo.commonGypiOther eq_refl).
    apply search_none_everywhere. reflexivity.
Defined.

Lemma formatMessageBody_lines_witness :
  lines (formatMessageBody Demo.shortSha Demo.patch1 true None) =
  ["Cherry-pick 4c074516397b.";
   "Original commit message:"; "";
   "    fix"; "    Details.";
   ""; "Refs: https://github.com/v8/v8/commit/" +:+ Demo.sha1].
Proof.
  destruct (formatMessageBody_lines Demo.shortSha Demo.patch1
              eq_refl eq_refl) as (Hbody & Hprefixed).
  rewrite Hprefixed, Hbody. reflexivity.
Defined.

Lemma embedder_bumps_add_up_witness :
  lookupFile "/node/common.gypi"
    (files (snd (times 2 (task (incrementEmbedderVersion Demo.gitNodeClean))
                       (Demo.state0 None 20%Z)))) =
  Some ("    # Reset this number to 0 on major V8 upgrades." +:+ nl +:+
        "    'v8_embedder_string': '-node.7'," +:+ nl +:+
        "    'v8_enable_31bit_smis_on_64bit_arch%': 0," +:+ nl).
Proof.
  assert (H7 : (parseInt10 "5" + N.of_nat 2 <= 2 ^ 53)%N)
    by (vm_compute; discriminate).
  destruct (embedder_bumps_add_up Demo.gitNodeClean 1 (Demo.state0 None 20%Z)
              Demo.commonGypi
              ("    # Reset this number to 0 on major V8 upgrades." +:+ nl
               +:+ "    ")
              "5" ("," +:+ nl +:+
                   "    'v8_enable_31bit_smis_on_64bit_arch%': 0," +:+ nl)
              (fun _ => ex_intro _ "" eq_refl) eq_refl eq_refl H7)
    as (_ & _ & Hfile).
  exact Hfile.
Defined.

Lemma patch_level_bumps_add_up_witness :
  lookupFile "/node/deps/v8/include/v8-version.h"
    (files (snd (times 2 (task incrementV8Version) (Demo.state0 None 8%Z)))) =
  Some ("#define V8_BUILD_NUMBER 7" +:+ nl +:+
        "#define V8_PATCH_LEVEL 14" +:+ nl +:+
        "#define V8_IS_CANDIDATE_VERSION 0" +:+ nl).
Proof.
  assert (H14 : (12 + N.of_nat 2 <= 2 ^ 53)%N) by (vm_compute; discriminate).
  destruct (patch_level_bumps_add_up 1 (Demo.state0 None 8%Z) Demo.versionH
              ("#define V8_BUILD_NUMBER 7" +:+ nl +:+ "#define ") "12"
              (nl +:+ "#define V8_IS_CANDIDATE_VERSION 0" +:+ nl)
              eq_refl eq_refl H14)
    as (_ & _ & Hfile & _).
  exact Hfile.
Defined.

Lemma squash_without_bump_edits_no_version_witness :
  filter isBumpEvent
    (trace (snd (newListr
                   (strategyTodo Demo.shortSha Demo.gitNodeConflict
                                 Demo.gitConfig
                                 (mkOptions ["4c074516397b"; "a51f429772d1"]
                                            true false (Some false) 20%Z)
                                 Squash)
                   Demo.stateReady))) = [].
Proof.
  rewrite (squash_without_bump_edits_no_version Demo.shortSha
             Demo.gitNodeConflict Demo.gitConfig
             (mkOptions ["4c074516397b"; "a51f429772d1"]
                        true false (Some false) 20%Z)
             Demo.stateReady eq_refl).
  reflexivity.
Defined.

Lemma generatePatches_failed_fetch_witness :
  exists e,
    task (generatePatches Demo.gitV8NoLog [1; 0] [0; 1] (fun _ => [1; 0]))
         (Demo.state0 None 20%Z) =
    (Throw e, afterFetches (Demo.state0 None 20%Z) [Demo.sha1; Demo.sha2]).
Proof.
  refine (generatePatches_failed_fetch Demo.gitV8NoLog [1; 0] [0; 1]
            (fun _ => [1; 0]) (Demo.state0 None 20%Z) Demo.full
            "a51f429772d1" (CommandFailed "fatal: bad object")
            _ _ _ _ _ _).
  - apply perm_swap.
  - apply Permutation_refl.
  - intros _. apply perm_swap.
  - intros r [<-|[<-|[]]]; reflexivity.
  - right. now left.
  - right. now left.
Defined.
